(** * Circuit simulation library (shared-circuit-simulator.js)

    A shallow embedding of the simulation core of the CSC210 circuit
    simulator: the component classes and their [compute] rules, the
    [CircuitSimulator] graph operations ([addComponent], [removeComponent],
    [connectComponents], [simulate], [topologicalSort], [exportCircuit],
    [importCircuit]) and [TruthTableGenerator.generate].

    JavaScript objects are mutable and shared by reference.  Component
    objects and array objects therefore live in two object stores, and a
    method is a function in a small state-and-exception monad over the
    simulator.  Canvas drawing ([render], [draw]) has no effect on the
    simulation state and is left out. *)

From Stdlib Require Import ZArith Ascii String.
From stdpp Require Import gmap strings list.

Set Warnings "-clear-no-such-hyp".

(** ** JavaScript values *)

(** The values the library handles: booleans on pins and wires,
    [undefined] (an array slot that was never written, a property a class
    does not have), the numbers of a truth table, and references to array
    objects. *)
Inductive jsval :=
| VUndef
| VBool (b : bool)
| VNum (n : Z)
| VArr (a : nat).

#[global] Instance jsval_eq_dec : EqDecision jsval.
Proof. solve_decision. Defined.

#[global] Instance jsval_inhabited : Inhabited jsval := populate VUndef.

(** ToBoolean: objects (arrays) are truthy, [undefined] and [0] are
    falsy. *)
Definition truthy (v : jsval) : bool :=
  match v with
  | VUndef => false
  | VBool b => b
  | VNum n => negb (n =? 0)%Z
  | VArr _ => true
  end.

(** [a && b] and [a || b] return one of their operands. *)
Definition js_and (a b : jsval) : jsval := if truthy a then b else a.
Definition js_or (a b : jsval) : jsval := if truthy a then a else b.
Definition js_not (a : jsval) : jsval := VBool (negb (truthy a)).

(** [a !== b]: strict inequality; arrays compare by reference. *)
Definition js_strict_neq (a b : jsval) : jsval :=
  VBool (if decide (a = b) then false else true).

(** [arr[k] = v] on an array object: writing past the end extends the
    array, the skipped slots read as [undefined]. *)
Definition array_set (l : list jsval) (k : nat) (v : jsval) : list jsval :=
  if decide (k < length l) then <[k := v]> l
  else l ++ replicate (k - length l) VUndef ++ [v].

(** ** Components and connections *)

(** The classes [addComponent] can instantiate; the constructor stores
    the tag in [this.type]. *)
Inductive ctype := AND | OR | XOR | NOT | INPUT | OUTPUT.

#[global] Instance ctype_eq_dec : EqDecision ctype.
Proof. solve_decision. Defined.

Definition type_name (t : ctype) : string :=
  match t with
  | AND => "AND" | OR => "OR" | XOR => "XOR" | NOT => "NOT"
  | INPUT => "INPUT" | OUTPUT => "OUTPUT"
  end.

(** A component object.  [output] is the field of the four gate classes,
    [value] and [label] those of [InputComponent] and [OutputComponent];
    a field a class does not have reads as [undefined].  [width],
    [height] and [outputs] are only used for drawing. *)
Record Component := mkComponent {
  id : string;
  type : ctype;
  x : Z;
  y : Z;
  inputs : jsval;
  output : jsval;
  value : jsval;
  label : option string;
  selected : bool
}.

#[global] Instance Component_inhabited : Inhabited Component :=
  populate (mkComponent "" AND 0 0 VUndef VUndef VUndef None false).

(** A connection holds references to its two endpoint objects. *)
Record Connection := mkConnection {
  from : nat;
  fromOutput : nat;
  to : nat;
  toInput : nat;
  conn_value : jsval;
  animated : bool
}.

#[global] Instance Connection_inhabited : Inhabited Connection :=
  populate (mkConnection 0 0 0 0 VUndef false).

(** ** The simulator state *)

(** [heap] and [arrays] are the object stores (a reference is an index,
    objects are never freed); [components] and [connections] are the two
    arrays of the [CircuitSimulator] instance. *)
Record Simulator := mkSimulator {
  heap : list Component;
  arrays : list (list jsval);
  components : list nat;
  connections : list Connection;
  selectedComponent : option nat
}.

Definition deref (s : Simulator) (r : nat) : Component := heap s !!! r.
Definition array_of (s : Simulator) (a : nat) : list jsval := arrays s !!! a.

Definition set_heap (s : Simulator) (h : list Component) : Simulator :=
  mkSimulator h (arrays s) (components s) (connections s) (selectedComponent s).
Definition set_arrays (s : Simulator) (a : list (list jsval)) : Simulator :=
  mkSimulator (heap s) a (components s) (connections s) (selectedComponent s).
Definition set_components (s : Simulator) (cs : list nat) : Simulator :=
  mkSimulator (heap s) (arrays s) cs (connections s) (selectedComponent s).
Definition set_connections (s : Simulator) (cs : list Connection) : Simulator :=
  mkSimulator (heap s) (arrays s) (components s) cs (selectedComponent s).
Definition set_selectedComponent (s : Simulator) (o : option nat) : Simulator :=
  mkSimulator (heap s) (arrays s) (components s) (connections s) o.

Definition set_output (c : Component) (v : jsval) : Component :=
  mkComponent (id c) (type c) (x c) (y c) (inputs c) v (value c) (label c) (selected c).
Definition set_value (c : Component) (v : jsval) : Component :=
  mkComponent (id c) (type c) (x c) (y c) (inputs c) (output c) v (label c) (selected c).
Definition set_inputs (c : Component) (v : jsval) : Component :=
  mkComponent (id c) (type c) (x c) (y c) v (output c) (value c) (label c) (selected c).
Definition set_conn_value (c : Connection) (v : jsval) : Connection :=
  mkConnection (from c) (fromOutput c) (to c) (toInput c) v (animated c).

(** ** A monad for methods: state, exceptions, fuel *)

Inductive js_error :=
| Error (msg : string)
| TypeError.

(** A call returns, throws (the mutations made before the throw stay), or
    exhausts the recursion budget of the model. *)
Inductive result (A : Type) :=
| Returned (a : A) (s : Simulator)
| Thrown (e : js_error) (s : Simulator)
| OutOfFuel.

Arguments Returned {A} a s.
Arguments Thrown {A} e s.
Arguments OutOfFuel {A}.

Definition M (A : Type) : Type := Simulator -> result A.

Definition ret {A} (a : A) : M A := fun s => Returned a s.
Definition bind {A B} (m : M A) (k : A -> M B) : M B :=
  fun s => match m s with
           | Returned a s' => k a s'
           | Thrown e s' => Thrown e s'
           | OutOfFuel => OutOfFuel
           end.
Definition throw {A} (e : js_error) : M A := fun s => Thrown e s.
Definition get : M Simulator := fun s => Returned s s.
Definition modify (f : Simulator -> Simulator) : M unit := fun s => Returned tt (f s).

Notation "'let*' x ':=' c 'in' k" := (bind c (fun x => k))
  (at level 10, x name, c at level 100, k at level 200).
Notation "c ';;' k" := (bind c (fun _ => k))
  (at level 100, k at level 200, right associativity).

(** [Array.prototype.forEach] with a callback that may throw. *)
Fixpoint forEach {A} (l : list A) (f : A -> M unit) : M unit :=
  match l with
  | [] => ret tt
  | a :: l' => f a ;; forEach l' f
  end.

(** ** Object access *)

Definition update_component (r : nat) (f : Component -> Component) : M unit :=
  modify (fun s => set_heap s (<[r := f (deref s r)]> (heap s))).

(** [obj[k]] where [obj] is the value of an [inputs] field. *)
Definition get_index (obj : jsval) (k : nat) : M jsval :=
  fun s => match obj with
           | VArr a => Returned (default VUndef (array_of s a !! k)) s
           | VBool _ | VNum _ => Returned VUndef s
           | VUndef => Thrown TypeError s
           end.

(** [obj[k] = v] in strict-mode code (class bodies are strict): only an
    object accepts the write. *)
Definition set_index (obj : jsval) (k : nat) (v : jsval) : M unit :=
  fun s => match obj with
           | VArr a => Returned tt (set_arrays s (<[a := array_set (array_of s a) k v]> (arrays s)))
           | VBool _ | VNum _ | VUndef => Thrown TypeError s
           end.

(** ** compute() of the six simulator classes *)

Definition binary_gate (op : jsval -> jsval -> jsval) (r : nat) : M jsval :=
  let* s := get in
  let* a := get_index (inputs (deref s r)) 0 in
  let* b := get_index (inputs (deref s r)) 1 in
  update_component r (fun c => set_output c (op a b)) ;;
  ret (op a b).

Definition compute (r : nat) : M jsval :=
  let* s := get in
  match type (deref s r) with
  | AND => binary_gate js_and r
  | OR => binary_gate js_or r
  | XOR => binary_gate js_strict_neq r
  | NOT =>
      let* a := get_index (inputs (deref s r)) 0 in
      update_component r (fun c => set_output c (js_not a)) ;;
      ret (js_not a)
  | INPUT => ret (value (deref s r))
  | OUTPUT => ret (value (deref s r))
  end.

(** InputComponent.toggle *)
Definition toggle (r : nat) : M jsval :=
  let* s := get in
  update_component r (fun c => set_value c (js_not (value c))) ;;
  ret (js_not (value (deref s r))).

(** OutputComponent.setValue *)
Definition setValue (r : nat) (v : jsval) : M unit :=
  update_component r (fun c => set_value c v).

(** ** CircuitSimulator.topologicalSort *)

(** The inner closure [visit].  [visited] is the [Set] of ids, [result]
    the array being filled.  The recursion of the source is bounded here
    by [fuel]; [None] means the budget ran out. *)
Fixpoint visit (s : Simulator) (fuel : nat) (component : nat)
    (st : gset string * list nat) : option (gset string * list nat) :=
  match fuel with
  | O => None
  | S fuel' =>
      if decide (id (deref s component) ∈ st.1) then Some st
      else
        let deps :=
          filter (fun conn => id (deref s (to conn)) = id (deref s component))
                 (connections s) in
        match
          foldl (fun acc conn =>
                   match acc with
                   | Some st' => visit s fuel' (from conn) st'
                   | None => None
                   end)
                (Some ({[ id (deref s component) ]} ∪ st.1, st.2)) deps
        with
        | Some st' => Some (st'.1, st'.2 ++ [component])
        | None => None
        end
  end.

Definition visit_all (s : Simulator) (fuel : nat) (l : list nat)
    (st : gset string * list nat) : option (gset string * list nat) :=
  foldl (fun acc component =>
           match acc with
           | Some st' => visit s fuel component st'
           | None => None
           end) (Some st) l.

(** A recursion budget that no call can exhaust: every nested call of
    [visit] that recurses has first added a new id to [visited]. *)
Definition sort_fuel (s : Simulator) : nat :=
  S (length (components s) + length (connections s)).

Definition topologicalSort_from (s : Simulator) (fuel : nat) : option (list nat) :=
  snd <$> visit_all s fuel (components s) (∅, []).

Definition topologicalSort : M (list nat) :=
  fun s => match topologicalSort_from s (sort_fuel s) with
           | Some sorted => Returned sorted s
           | None => OutOfFuel
           end.

(** ** CircuitSimulator.simulate *)

(** First loop: every component of the sorted order except the INPUTs
    runs [compute] on the pin values it holds at that moment. *)
Definition evaluate_pass (sorted : list nat) : M unit :=
  forEach sorted (fun component =>
    let* s := get in
    if decide (type (deref s component) ≠ INPUT)
    then compute component ;; ret tt
    else ret tt).

Definition update_connection (i : nat) (f : Connection -> Connection) : M unit :=
  modify (fun s => set_connections s (<[i := f (connections s !!! i)]> (connections s))).

(** Body of the second loop for the connection at position [i]. *)
Definition propagate_connection (i : nat) : M unit :=
  let* s := get in
  let connection := connections s !!! i in
  let* v := compute (from connection) in
  update_connection i (fun c => set_conn_value c v) ;;
  let* s' := get in
  if decide (type (deref s' (to connection)) ≠ OUTPUT)
  then set_index (inputs (deref s' (to connection))) (toInput connection) v
  else setValue (to connection) v.

(** Second loop: the connections in insertion order. *)
Definition propagate_pass : M unit :=
  let* s := get in
  forEach (seq 0 (length (connections s))) propagate_connection.

Definition simulate : M unit :=
  let* sorted := topologicalSort in
  evaluate_pass sorted ;;
  propagate_pass.

(** ** CircuitSimulator.addComponent *)

Definition upper_ascii (c : ascii) : ascii :=
  let n := nat_of_ascii c in
  if (97 <=? n)%nat && (n <=? 122)%nat then ascii_of_nat (n - 32) else c.

(** The upper case of the ligatures U+FB00 .. U+FB06, by the last byte
    of their UTF-8 encoding. *)
Definition ligature (c : ascii) : option string :=
  if decide (c = "128"%char) then Some "FF"
  else if decide (c = "129"%char) then Some "FI"
  else if decide (c = "130"%char) then Some "FL"
  else if decide (c = "131"%char) then Some "FFI"
  else if decide (c = "132"%char) then Some "FFL"
  else if decide (c = "133"%char) then Some "ST"
  else if decide (c = "134"%char) then Some "ST"
  else None.

(** [String.prototype.toUpperCase].  A string of the code is given by
    its UTF-8 bytes.  The result is [Some u] when the upper case of the
    string is ASCII text, [u] being that text.  Besides the letters a-z,
    the characters whose upper case is made of ASCII letters are raised:
    U+0131 (dotless i) to [I], U+017F (long s) to [S], U+00DF (sharp s)
    to [SS], and the ligatures U+FB00 .. U+FB06 to [FF], [FI], [FL],
    [FFI], [FFL], [ST], [ST].  The upper case of every other character
    outside ASCII holds a character outside ASCII: the result is then
    [None], a string that equals no ASCII literal. *)
Fixpoint toUpperCase (t : string) : option string :=
  match t with
  | EmptyString => Some EmptyString
  | String c t1 =>
      if (nat_of_ascii c <? 128)%nat
      then String (upper_ascii c) <$> toUpperCase t1
      else
        match t1 with
        | EmptyString => None
        | String c2 t2 =>
            if decide (c = "196"%char ∧ c2 = "177"%char)
            then String "I" <$> toUpperCase t2
            else if decide (c = "197"%char ∧ c2 = "191"%char)
            then String "S" <$> toUpperCase t2
            else if decide (c = "195"%char ∧ c2 = "159"%char)
            then append "SS" <$> toUpperCase t2
            else if decide (c = "239"%char ∧ c2 = "172"%char)
            then match t2 with
                 | EmptyString => None
                 | String c3 t3 =>
                     match ligature c3 with
                     | Some l => append l <$> toUpperCase t3
                     | None => None
                     end
                 end
            else None
        end
  end.

(** [new Array] : allocate an array object, return its reference. *)
Definition new_array (l : list jsval) : M jsval :=
  fun s => Returned (VArr (length (arrays s))) (set_arrays s (arrays s ++ [l])).

(** [new C(...)] : allocate a component object, return its reference. *)
Definition new_component (c : Component) : M nat :=
  fun s => Returned (length (heap s)) (set_heap s (heap s ++ [c])).

(** [options.label || dflt]: a missing or empty label gives the default. *)
Definition label_or (l : option string) (dflt : string) : string :=
  match l with
  | Some EmptyString | None => dflt
  | Some l' => l'
  end.

(** The constructors.  Each object gets the one array that ends up in its
    [inputs] field. *)
Definition new_gate (t : ctype) (pins : list jsval) (i : string) (x0 y0 : Z) : M nat :=
  let* a := new_array pins in
  new_component (mkComponent i t x0 y0 a (VBool false) VUndef None false).

Definition new_io (t : ctype) (lbl : string) (i : string) (x0 y0 : Z) : M nat :=
  let* a := new_array [] in
  new_component (mkComponent i t x0 y0 a VUndef (VBool false) (Some lbl) false).

Definition unknown_type (t : string) : js_error :=
  Error ("Unknown component type: " +:+ t).

Definition addComponent (t : string) (i : string) (x0 y0 : Z)
    (options_label : option string) : M nat :=
  let* component :=
    (let u := toUpperCase t in
     if decide (u = Some "AND") then new_gate AND [VBool false; VBool false] i x0 y0
     else if decide (u = Some "OR") then new_gate OR [VBool false; VBool false] i x0 y0
     else if decide (u = Some "XOR") then new_gate XOR [VBool false; VBool false] i x0 y0
     else if decide (u = Some "NOT") then new_gate NOT [VBool false] i x0 y0
     else if decide (u = Some "INPUT")
     then new_io INPUT (label_or options_label "IN") i x0 y0
     else if decide (u = Some "OUTPUT")
     then new_io OUTPUT (label_or options_label "OUT") i x0 y0
     else throw (unknown_type t)) in
  modify (fun s => set_components s (components s ++ [component])) ;;
  ret component.

(** ** removeComponent, connectComponents, clear *)

(** [this.components.findIndex(comp => comp.id === id)] *)
Definition findIndex (s : Simulator) (i : string) : option nat :=
  fst <$> list_find (fun r => id (deref s r) = i) (components s).

(** [this.components.find(c => c.id === id)] *)
Definition find_component (s : Simulator) (i : string) : option nat :=
  snd <$> list_find (fun r => id (deref s r) = i) (components s).

Definition removeComponent (i : string) : M unit :=
  let* s := get in
  match findIndex s i with
  | Some index =>
      modify (fun s => set_connections s
        (filter (fun conn => id (deref s (from conn)) ≠ i ∧ id (deref s (to conn)) ≠ i)
                (connections s))) ;;
      modify (fun s => set_components s (delete index (components s))) ;;
      modify (fun s =>
        match selectedComponent s with
        | Some r => if decide (id (deref s r) = i)
                    then set_selectedComponent s None else s
        | None => s
        end)
  | None => ret tt
  end.

Definition connectComponents (fromId : string) (fromOutput0 : nat)
    (toId : string) (toInput0 : nat) : M (option Connection) :=
  let* s := get in
  match find_component s fromId, find_component s toId with
  | Some fromComponent, Some toComponent =>
      let connection :=
        mkConnection fromComponent fromOutput0 toComponent toInput0 (VBool false) false in
      modify (fun s => set_connections s (connections s ++ [connection])) ;;
      ret (Some connection)
  | _, _ => ret None
  end.

Definition clear : M unit :=
  modify (fun s => set_selectedComponent (set_connections (set_components s []) []) None).

Definition getComponentById (i : string) : M (option nat) :=
  let* s := get in ret (find_component s i).

(** ** exportCircuit and importCircuit *)

Record ComponentData := mkComponentData {
  data_id : string;
  data_type : string;
  data_x : Z;
  data_y : Z;
  data_value : jsval;
  data_label : option string
}.

Record ConnectionData := mkConnectionData {
  data_from : string;
  data_fromOutput : nat;
  data_to : string;
  data_toInput : nat
}.

Record CircuitData := mkCircuitData {
  data_components : list ComponentData;
  data_connections : list ConnectionData
}.

(** [value: c.value || c.inputs] *)
Definition export_component (c : Component) : ComponentData :=
  mkComponentData (id c) (type_name (type c)) (x c) (y c)
                  (js_or (value c) (inputs c)) (label c).

Definition export_connection (s : Simulator) (c : Connection) : ConnectionData :=
  mkConnectionData (id (deref s (from c))) (fromOutput c)
                   (id (deref s (to c))) (toInput c).

Definition exportCircuit : M CircuitData :=
  let* s := get in
  ret (mkCircuitData (map (fun r => export_component (deref s r)) (components s))
                     (map (export_connection s) (connections s))).

Definition import_component (compData : ComponentData) : M unit :=
  let* component :=
    addComponent (data_type compData) (data_id compData)
                 (data_x compData) (data_y compData) (data_label compData) in
  if decide (data_value compData ≠ VUndef) then
    let* s := get in
    if decide (type (deref s component) = INPUT)
    then update_component component (fun c => set_value c (data_value compData))
    else update_component component (fun c => set_inputs c (data_value compData))
  else ret tt.

Definition import_connection (connData : ConnectionData) : M unit :=
  connectComponents (data_from connData) (data_fromOutput connData)
                    (data_to connData) (data_toInput connData) ;;
  ret tt.

Definition importCircuit (circuitData : CircuitData) : M unit :=
  clear ;;
  forEach (data_components circuitData) import_component ;;
  forEach (data_connections circuitData) import_connection.

(** ** The composite classes HalfAdder, FullAdder, Multiplexer4to1 *)

(** These classes are defined next to the simulator but [addComponent]
    has no case for them; an instance is a free-standing object. *)
Module HalfAdder.
Record t := mk { inputs : list jsval; outputs : list jsval }.

(** [new HalfAdder(id, x, y)] *)
Definition new : t := mk [VBool false; VBool false] [VBool false; VBool false].

Definition compute (h : t) : t :=
  let a := default VUndef (inputs h !! 0) in
  let b := default VUndef (inputs h !! 1) in
  mk (inputs h)
     (array_set (array_set (outputs h) 0 (js_strict_neq a b)) 1 (js_and a b)).
End HalfAdder.

Module FullAdder.
Record t := mk { inputs : list jsval; outputs : list jsval }.

Definition new : t :=
  mk [VBool false; VBool false; VBool false] [VBool false; VBool false].

Definition compute (f : t) : t :=
  let a := default VUndef (inputs f !! 0) in
  let b := default VUndef (inputs f !! 1) in
  let cin := default VUndef (inputs f !! 2) in
  mk (inputs f)
     (array_set
        (array_set (outputs f) 0 (js_strict_neq (js_strict_neq a b) cin))
        1 (js_or (js_and a b) (js_and cin (js_strict_neq a b)))).
End FullAdder.

Module Multiplexer4to1.
(** The select pins are the booleans the constructor stores; nothing in
    the library writes another kind of value there. *)
Record t := mk { dataInputs : list jsval; selectInputs : list bool; output : jsval }.

Definition new : t :=
  mk [VBool false; VBool false; VBool false; VBool false] [false; false] (VBool false).

(** [this.selectInputs[1] * 2 + this.selectInputs[0]]; a missing pin
    makes the sum [NaN], rendered as [None]. *)
Definition selectValue (m : t) : option Z :=
  match selectInputs m !! 1, selectInputs m !! 0 with
  | Some s1, Some s0 => Some (Z.b2z s1 * 2 + Z.b2z s0)%Z
  | _, _ => None
  end.

Definition compute (m : t) : t :=
  mk (dataInputs m) (selectInputs m)
     match selectValue m with
     | Some k => default VUndef (dataInputs m !! Z.to_nat k)
     | None => VUndef
     end.
End Multiplexer4to1.

(** ** TruthTableGenerator.generate *)

Module TruthTableGenerator.
(** ToInt32 *)
Definition to_int32 (n : Z) : Z :=
  let m := (n mod 2 ^ 32)%Z in
  if (m <? 2 ^ 31)%Z then m else (m - 2 ^ 32)%Z.

(** [a >> b]: sign-propagating shift of the 32-bit value by the low
    five bits of the count. *)
Definition js_shr (a b : Z) : Z :=
  Z.shiftr (to_int32 a) (Z.land (b mod 2 ^ 32) 31).

(** [a & b] *)
Definition js_band (a b : Z) : Z :=
  to_int32 (Z.land (to_int32 a) (to_int32 b)).

(** What a row holds, or a read of a row gives: a value of the kinds
    above, or the object [Object.prototype]. *)
Inductive value := Val (v : jsval) | ObjectPrototype.

#[global] Instance value_eq_dec : EqDecision value.
Proof. solve_decision. Defined.

(** A row is an object created by [{}]: the map holds its own
    properties, its prototype is [Object.prototype]. *)
Abbreviation row := (gmap string value).

(** [row[name] = n] for a number [n].  The name ['__proto__'] is the
    accessor inherited from [Object.prototype], whose setter ignores a
    value that is not an object: no property is created.  Every other
    name becomes (or stays) an own property. *)
Definition row_set (r : row) (name : string) (n : Z) : row :=
  if decide (name = "__proto__") then r else <[name := Val (VNum n)]> r.

(** [inputs.forEach((inputName, index) => row[inputName] = ...)] from
    position [index] on. *)
Fixpoint fill_row (numInputs : Z) (i : Z) (index : Z) (inputs : list string)
    (r : row) : row :=
  match inputs with
  | [] => r
  | inputName :: rest =>
      fill_row numInputs i (index + 1) rest
        (row_set r inputName (js_band (js_shr i (numInputs - 1 - index)) 1))
  end.

(** [row[name]].  ['__proto__'] reads through the inherited accessor and
    gives [Object.prototype]; an own property gives its value.  A name
    that is neither reads as [undefined] unless [Object.prototype] has a
    member of that name; [generate] only reads names it has just
    written, so that case does not occur there. *)
Definition row_get (r : row) (name : string) : value :=
  if decide (name = "__proto__") then ObjectPrototype
  else default (Val VUndef) (r !! name).

(** One iteration of the loop body; [outputFunction] is [None] when the
    second argument is not a function. *)
Definition make_row (inputs : list string)
    (outputFunction : option (list value -> value)) (i : Z) : row :=
  let r := fill_row (Z.of_nat (length inputs)) i 0 inputs ∅ in
  match outputFunction with
  | Some f => <["output" := f (map (row_get r) inputs)]> r
  | None => r
  end.

(** The loop pushes one row per [i < 2^numInputs].  An array holds fewer
    than [2^32] elements: from 32 inputs on, [table.push] ends the call
    with a RangeError, rendered as [None]. *)
Definition generate (inputs : list string)
    (outputFunction : option (list value -> value)) : option (list row) :=
  let numRows := 2 ^ length inputs in
  if decide (length inputs < 32)
  then Some (map (fun i => make_row inputs outputFunction (Z.of_nat i)) (seq 0 numRows))
  else None.

(** Truthiness; an object is truthy. *)
Definition value_truthy (a : value) : bool :=
  match a with
  | Val v => truthy v
  | ObjectPrototype => true
  end.

(** The caller's [(a, b) => a && b]; a parameter without argument is
    [undefined]. *)
Definition and_function (args : list value) : value :=
  let a := default (Val VUndef) (args !! 0) in
  let b := default (Val VUndef) (args !! 1) in
  if value_truthy a then b else a.

(** Bit [k] of [i] as the number 0 or 1. *)
Definition bit (i : nat) (k : nat) : value :=
  Val (VNum (Z.b2z (Z.testbit (Z.of_nat i) (Z.of_nat k)))).
End TruthTableGenerator.

(** ** CircuitTemplates.fullAdderCircuit *)

Module CircuitTemplates.
(** The template asks the simulator for a ['FULL_ADDER'] component. *)
Definition fullAdderCircuit : M (nat * nat * nat * nat * nat) :=
  clear ;;
  let* inputA := addComponent "INPUT" "input_a" 50 60 (Some "A") in
  let* inputB := addComponent "INPUT" "input_b" 50 100 (Some "B") in
  let* inputCin := addComponent "INPUT" "input_cin" 50 140 (Some "Cin") in
  let* fullAdder := addComponent "FULL_ADDER" "fa_1" 200 100 None in
  let* sumOutput := addComponent "OUTPUT" "sum_out" 350 80 (Some "SUM") in
  let* carryOutput := addComponent "OUTPUT" "carry_out" 350 120 (Some "Cout") in
  ret (inputA, inputB, inputCin, sumOutput, carryOutput).
End CircuitTemplates.

(** ** Vocabulary of the specification *)

(** The state of a freshly constructed simulator. *)
Definition empty_simulator : Simulator := mkSimulator [] [] [] [] None.

(** [component.id] through a reference. *)
Definition cid (s : Simulator) (r : nat) : string := id (deref s r).

(** The invariants of a circuit graph: component ids are unique, and the
    endpoints of every connection are components of the graph. *)
Definition unique_ids (s : Simulator) : Prop :=
  NoDup (cid s <$> components s).

Definition endpoints_owned (s : Simulator) : Prop :=
  ∀ conn, conn ∈ connections s →
          from conn ∈ components s ∧ to conn ∈ components s.

Definition well_formed (s : Simulator) : Prop :=
  unique_ids s ∧ endpoints_owned s.

(** The connection relation and its cycles. *)
Definition feeds (s : Simulator) (r r' : nat) : Prop :=
  ∃ conn, conn ∈ connections s ∧ from conn = r ∧ to conn = r'.

Definition has_cycle (s : Simulator) : Prop := ∃ r, tc (feeds s) r r.

(** The sources of all connections, and every id the sort can meet. *)
Definition froms (s : Simulator) : list nat := from <$> connections s.

Definition all_ids (s : Simulator) : gset string :=
  list_to_set (cid s <$> (components s ++ froms s)).

(** What a run of [visit] over the list [l] must have produced from the
    state [(V, R)]: it appended a block [A] of components with fresh,
    pairwise distinct ids and marked exactly those ids. *)
Definition visit_post (s : Simulator) (l : list nat) (V : gset string)
    (R : list nat) (res : option (gset string * list nat)) : Prop :=
  ∃ A, res = Some (V ∪ list_to_set (cid s <$> A), R ++ A)
       ∧ NoDup (cid s <$> A)
       ∧ (∀ a, a ∈ A → cid s a ∉ V)
       ∧ (∀ a, a ∈ A → a ∈ l ∨ a ∈ froms s)
       ∧ (∀ c, c ∈ l → cid s c ∈ V ∪ list_to_set (cid s <$> A)).


(** ** Circuits used as examples *)

(** INPUT A -> NOT n1, A toggled to true. *)
Definition single_inverter : M (nat * nat) :=
  let* a := addComponent "INPUT" "A" 100 100 None in
  let* n1 := addComponent "NOT" "n1" 100 100 None in
  connectComponents "A" 0 "n1" 0 ;;
  toggle a ;;
  ret (a, n1).

(** INPUT A -> NOT n1 -> NOT n2, A toggled to true. *)
Definition inverter_chain : M (nat * nat * nat) :=
  let* a := addComponent "INPUT" "A" 100 100 None in
  let* n1 := addComponent "NOT" "n1" 100 100 None in
  let* n2 := addComponent "NOT" "n2" 100 100 None in
  connectComponents "A" 0 "n1" 0 ;;
  connectComponents "n1" 0 "n2" 0 ;;
  toggle a ;;
  ret (a, n1, n2).

(** NOT n1 -> NOT n2 -> NOT n1: a two-gate loop. *)
Definition inverter_loop : M (nat * nat) :=
  let* n1 := addComponent "NOT" "n1" 100 100 None in
  let* n2 := addComponent "NOT" "n2" 100 100 None in
  connectComponents "n1" 0 "n2" 0 ;;
  connectComponents "n2" 0 "n1" 0 ;;
  ret (n1, n2).

(** INPUT A (false) -> NOT n1 -> OUTPUT o. *)
Definition inverter_probe : M unit :=
  addComponent "INPUT" "A" 50 80 None ;;
  addComponent "NOT" "n1" 200 80 None ;;
  addComponent "OUTPUT" "o" 350 80 None ;;
  connectComponents "A" 0 "n1" 0 ;;
  connectComponents "n1" 0 "o" 0 ;;
  ret tt.

(** [importCircuit(exportCircuit())] on the same simulator. *)
Definition export_import : M unit :=
  let* circuitData := exportCircuit in
  importCircuit circuitData.

(** The value shown by the (first) component with the given id. *)
Definition value_of (s : Simulator) (i : string) : option jsval :=
  (fun r => value (deref s r)) <$> find_component s i.

Definition output_of (s : Simulator) (i : string) : option jsval :=
  (fun r => output (deref s r)) <$> find_component s i.

(** The final state of a call that returned. *)
Definition final {A} (r : result A) : option Simulator :=
  match r with
  | Returned _ s => Some s
  | _ => None
  end.

(** The position of [r] in an evaluation order. *)
Definition rank (sorted : list nat) (r : nat) : nat :=
  default 0 (fst <$> list_find (fun r' => r' = r) sorted).

(** An evaluation order is violated by a connection whose target is
    placed no later than its source. *)
Definition out_of_order (sorted : list nat) (conn : Connection) : Prop :=
  ∃ i j, sorted !! i = Some (to conn) ∧ sorted !! j = Some (from conn) ∧ i ≤ j.

(** What a call does not do: hang, or throw anything but a TypeError. *)
Definition no_hang_no_cycle_error {A} (r : result A) : Prop :=
  match r with
  | Returned _ _ => True
  | Thrown e _ => e = TypeError
  | OutOfFuel => False
  end.

(** The final state of a sequence of calls, whatever its outcome. *)
Definition run {A} (m : M A) (s : Simulator) : Simulator :=
  match m s with
  | Returned _ s' => s'
  | Thrown _ s' => s'
  | OutOfFuel => s
  end.

(** The class the [switch] of [addComponent] selects for an upper-cased
    type string. *)
Definition class_of (u : option string) : option ctype :=
  if decide (u = Some "AND") then Some AND
  else if decide (u = Some "OR") then Some OR
  else if decide (u = Some "XOR") then Some XOR
  else if decide (u = Some "NOT") then Some NOT
  else if decide (u = Some "INPUT") then Some INPUT
  else if decide (u = Some "OUTPUT") then Some OUTPUT
  else None.

(** A call neither hangs nor throws anything but the TypeError of a pin
    access on a non-object. *)
Definition safe {A} (m : M A) : Prop :=
  ∀ s, match m s with
       | Returned _ _ => True
       | Thrown e _ => e = TypeError
       | OutOfFuel => False
       end.

(** Component [r] of type [t] holds the pin values [pins]. *)
Definition holds_pins (s : Simulator) (r : nat) (t : ctype) (pins : list jsval) : Prop :=
  ∃ c arr, heap s !! r = Some c ∧ type c = t ∧ inputs c = VArr arr
           ∧ arrays s !! arr = Some pins.

(** [compute()] on [r] returns [v] and leaves it in [r.output]. *)
Definition computes (s : Simulator) (r : nat) (v : jsval) : Prop :=
  ∃ s', compute r s = Returned v s' ∧ output (deref s' r) = v.

(** The states the examples start from. *)
Definition single_inverter_state : Simulator := run single_inverter empty_simulator.
Definition inverter_chain_state : Simulator := run inverter_chain empty_simulator.
Definition inverter_loop_state : Simulator := run inverter_loop empty_simulator.
Definition inverter_probe_state : Simulator :=
  run (inverter_probe ;; simulate) empty_simulator.

(** ** selectComponent, handleClick, handleKeyDown *)

Definition set_selected (c : Component) (b : bool) : Component :=
  mkComponent (id c) (type c) (x c) (y c) (inputs c) (output c) (value c) (label c) b.

(** [selectComponent(component)]; [None] is [null]. *)
Definition selectComponent (component : option nat) : M unit :=
  let* s := get in
  match selectedComponent s with
  | Some old => update_component old (fun c => set_selected c false)
  | None => ret tt
  end ;;
  modify (fun s => set_selectedComponent s component) ;;
  match component with
  | Some r => update_component r (fun c => set_selected c true)
  | None => ret tt
  end.

(** [handleClick(event)] from the point where [getComponentAt] has
    returned [clickedComponent] ([None] when no component is under the
    pointer). *)
Definition handleClick (clickedComponent : option nat) : M unit :=
  match clickedComponent with
  | Some r =>
      let* s := get in
      if decide (type (deref s r) = INPUT)
      then toggle r ;; simulate
      else selectComponent (Some r)
  | None => selectComponent None
  end.

(** [handleKeyDown(event)] for the key [event.key]. *)
Definition handleKeyDown (key : string) : M unit :=
  let* s := get in
  match selectedComponent s with
  | Some sel =>
      if decide (key = "Delete") then removeComponent (id (deref s sel)) else ret tt
  | None => ret tt
  end ;;
  if decide (key = "Escape") then selectComponent None else ret tt.

(** ** CircuitTemplates.halfAdderCircuit and mux2to1Circuit *)

Module Templates.
(** Returns the references [(A, B, SUM, CARRY)]. *)
Definition halfAdderCircuit : M (nat * nat * nat * nat) :=
  clear ;;
  let* inputA := addComponent "INPUT" "input_a" 50 80 (Some "A") in
  let* inputB := addComponent "INPUT" "input_b" 50 140 (Some "B") in
  let* xorGate := addComponent "XOR" "xor_1" 200 100 None in
  let* andGate := addComponent "AND" "and_1" 200 160 None in
  let* sumOutput := addComponent "OUTPUT" "sum_out" 350 100 (Some "SUM") in
  let* carryOutput := addComponent "OUTPUT" "carry_out" 350 160 (Some "CARRY") in
  connectComponents "input_a" 0 "xor_1" 0 ;;
  connectComponents "input_b" 0 "xor_1" 1 ;;
  connectComponents "input_a" 0 "and_1" 0 ;;
  connectComponents "input_b" 0 "and_1" 1 ;;
  connectComponents "xor_1" 0 "sum_out" 0 ;;
  connectComponents "and_1" 0 "carry_out" 0 ;;
  simulate ;;
  ret (inputA, inputB, sumOutput, carryOutput).

(** Returns the references [(D0, D1, S, Y)]. *)
Definition mux2to1Circuit : M (nat * nat * nat * nat) :=
  clear ;;
  let* inputD0 := addComponent "INPUT" "input_d0" 50 80 (Some "D0") in
  let* inputD1 := addComponent "INPUT" "input_d1" 50 140 (Some "D1") in
  let* inputS := addComponent "INPUT" "input_s" 150 200 (Some "S") in
  let* notGate := addComponent "NOT" "not_s" 200 200 None in
  let* and1 := addComponent "AND" "and_1" 280 90 None in
  let* and2 := addComponent "AND" "and_2" 280 150 None in
  let* orGate := addComponent "OR" "or_1" 380 120 None in
  let* output := addComponent "OUTPUT" "output_y" 480 120 (Some "Y") in
  connectComponents "input_s" 0 "not_s" 0 ;;
  connectComponents "input_d0" 0 "and_1" 0 ;;
  connectComponents "not_s" 0 "and_1" 1 ;;
  connectComponents "input_d1" 0 "and_2" 0 ;;
  connectComponents "input_s" 0 "and_2" 1 ;;
  connectComponents "and_1" 0 "or_1" 0 ;;
  connectComponents "and_2" 0 "or_1" 1 ;;
  connectComponents "or_1" 0 "output_y" 0 ;;
  simulate ;;
  ret (inputD0, inputD1, inputS, output).

(** Returns the references [(A, B, Cin, SUM, CARRY)]. *)
Definition fullAdderCircuit : M (nat * nat * nat * nat * nat) :=
  clear ;;
  let* inputA := addComponent "INPUT" "input_a" 50 60 (Some "A") in
  let* inputB := addComponent "INPUT" "input_b" 50 100 (Some "B") in
  let* inputCin := addComponent "INPUT" "input_cin" 50 140 (Some "Cin") in
  let* fullAdder := addComponent "FULL_ADDER" "fa_1" 200 100 None in
  let* sumOutput := addComponent "OUTPUT" "sum_out" 350 80 (Some "SUM") in
  let* carryOutput := addComponent "OUTPUT" "carry_out" 350 120 (Some "Cout") in
  ret (inputA, inputB, inputCin, sumOutput, carryOutput).
End Templates.

(** ** Vocabulary for the further properties *)

(** Hoare triples over the method monad: from a state satisfying [P] the
    call does not exhaust its budget, a normal return satisfies [Q] and a
    throw leaves a state satisfying [E]. *)
Definition triple {A} (P : Simulator → Prop) (m : M A)
    (Q : A → Simulator → Prop) (E : Simulator → Prop) : Prop :=
  ∀ s, P s → match m s with
             | Returned a s' => Q a s'
             | Thrown _ s' => E s'
             | OutOfFuel => False
             end.

(** The part of a connection that simulate() does not write. *)
Definition wiring (c : Connection) : nat * nat * nat * nat * bool :=
  (from c, fromOutput c, to c, toInput c, animated c).

(** What a call leaves alone on a component: everything but the output
    of a gate and the value of an OUTPUT. *)
Definition same_component (c c' : Component) : Prop :=
  id c' = id c ∧ type c' = type c ∧ x c' = x c ∧ y c' = y c
  ∧ inputs c' = inputs c ∧ label c' = label c ∧ selected c' = selected c
  ∧ (type c ≠ OUTPUT → value c' = value c)
  ∧ (type c = INPUT ∨ type c = OUTPUT → output c' = output c).

(** [s'] has the graph of [s]: same component list, same objects with
    the same identity, pins and INPUT values, same wiring, same
    selection. *)
Definition same_graph (s s' : Simulator) : Prop :=
  components s' = components s
  ∧ selectedComponent s' = selectedComponent s
  ∧ length (heap s') = length (heap s)
  ∧ length (arrays s') = length (arrays s)
  ∧ (∀ r, same_component (deref s r) (deref s' r))
  ∧ wiring <$> connections s' = wiring <$> connections s.

(** The store invariant of a graph built through the simulator's
    methods: the component list and the connections refer to allocated
    objects, connections join components of the graph, and every
    component other than an OUTPUT keeps its pins in an array object. *)
Definition graph_ok (s : Simulator) : Prop :=
  (∀ r, r ∈ components s → r < length (heap s))
  ∧ endpoints_owned s
  ∧ (∀ r, r ∈ components s → type (deref s r) ≠ OUTPUT →
          ∃ a, inputs (deref s r) = VArr a ∧ a < length (arrays s)).

(** The calls a page or a user makes on a simulator.  A click is given
    by the position, in the component list, of the component under the
    pointer ([None]: empty canvas). *)
Inductive api_call :=
| CallAddComponent (t i : string) (x0 y0 : Z) (l : option string)
| CallRemoveComponent (i : string)
| CallConnectComponents (fromId : string) (fromOutput0 : nat)
                        (toId : string) (toInput0 : nat)
| CallClick (position : option nat)
| CallKeyDown (key : string)
| CallSimulate
| CallClear.

Definition exec (c : api_call) : M unit :=
  match c with
  | CallAddComponent t i x0 y0 l => addComponent t i x0 y0 l ;; ret tt
  | CallRemoveComponent i => removeComponent i
  | CallConnectComponents f k t j => connectComponents f k t j ;; ret tt
  | CallClick None => handleClick None
  | CallClick (Some n) =>
      let* s := get in
      match components s !! n with
      | Some r => handleClick (Some r)
      | None => handleClick None
      end
  | CallKeyDown key => handleKeyDown key
  | CallSimulate => simulate
  | CallClear => clear
  end.

(** The state after a sequence of calls; a call that throws leaves the
    state it had reached, and the next call goes on from there. *)
Definition after_calls (calls : list api_call) : Simulator :=
  foldl (fun s c => run (exec c) s) empty_simulator calls.

(** The [selected] flags agree with the selection: a component of the
    graph is flagged exactly when it is the selected component. *)
Definition selection_ok (s : Simulator) : Prop :=
  ∀ r, r ∈ components s →
       (selected (deref s r) = true ↔ selectedComponent s = Some r).

(** Everything about a component except its [selected] flag. *)
Definition unselected (c : Component) : Component := set_selected c false.

(** ** Sessions on the template circuits *)

(** Build the half-adder template on a fresh simulator, then click the
    two INPUT pegs in the given order ([false]: A, [true]: B). *)
Definition half_adder_session (clicks : list bool) : M unit :=
  let* t := Templates.halfAdderCircuit in
  forEach clicks (fun c => handleClick (Some (if c then t.1.1.2 else t.1.1.1))).

(** The pegs of the 2:1 multiplexer template. *)
Inductive mux_peg := PegD0 | PegD1 | PegS.

#[global] Instance mux_peg_eq_dec : EqDecision mux_peg.
Proof. solve_decision. Defined.

Definition mux_session (clicks : list mux_peg) : M unit :=
  let* t := Templates.mux2to1Circuit in
  forEach clicks (fun c =>
    handleClick (Some match c with
                      | PegD0 => t.1.1.1
                      | PegD1 => t.1.1.2
                      | PegS => t.1.2
                      end)).

(** A peg that starts at false is true after an odd number of clicks. *)
Definition pressed {A} `{EqDecision A} (peg : A) (clicks : list A) : bool :=
  Nat.odd (length (filter (fun c => c = peg) clicks)).

(** The state of the half-adder template with the given INPUT values. *)
Definition half_adder_state (a b : bool) : Simulator :=
  run (half_adder_session ((if a then [false] else []) ++ (if b then [true] else [])))
      empty_simulator.

Definition mux_state (d0 d1 sel : bool) : Simulator :=
  run (mux_session ((if d0 then [PegD0] else []) ++ (if d1 then [PegD1] else [])
                    ++ (if sel then [PegS] else [])))
      empty_simulator.

(** ** Dependency order *)

(** In the list [R] every connection whose target is listed has its
    source listed earlier. *)
Definition ordered (s : Simulator) (R : list nat) : Prop :=
  ∀ j conn, conn ∈ connections s → R !! j = Some (to conn) →
            ∃ i, i < j ∧ R !! i = Some (from conn).

(** The state of the sort between two calls of [visit], with [S] the
    components whose visit is in progress: the visited set holds the ids
    of the components already listed and of those in progress, and the
    list is in dependency order. *)
Definition sort_inv (s : Simulator) (S : list nat)
    (st : gset string * list nat) : Prop :=
  (∀ r, r ∈ components s → cid s r ∈ st.1 ↔ r ∈ st.2 ∨ r ∈ S)
  ∧ (∀ r, r ∈ st.2 → r ∈ components s)
  ∧ ordered s st.2.

(** ** Import *)

(** What [import_component] makes of one exported record: a component
    with the record's id, type and position; the record's [value] (when
    it is not undefined) becomes the value of an INPUT and the [inputs]
    of any other component. *)
Definition imported (d : ComponentData) (c : Component) : Prop :=
  id c = data_id d ∧ type_name (type c) = data_type d
  ∧ x c = data_x d ∧ y c = data_y d
  ∧ (type c = INPUT → data_value d ≠ VUndef → value c = data_value d)
  ∧ (type c ≠ INPUT → data_value d ≠ VUndef → inputs c = data_value d).

(** The connection [connectComponents] creates for an exported record
    on the graph [s]. *)
Definition resolve (s : Simulator) (d : ConnectionData) : Connection :=
  mkConnection (default 0 (find_component s (data_from d))) (data_fromOutput d)
               (default 0 (find_component s (data_to d))) (data_toInput d)
               (VBool false) false.

(** The identity, type and position a component is exported with. *)
Definition placement (d : ComponentData) : string * string * Z * Z :=
  (data_id d, data_type d, data_x d, data_y d).

(** A place the second loop of simulate() writes: an element of a pins
    array, or the value of an OUTPUT. *)
Inductive location := Pin (a k : nat) | Value (r : nat).

#[global] Instance location_eq_dec : EqDecision location.
Proof. solve_decision. Defined.

(** The place written for a connection: [to.inputs[toInput]] unless [to]
    is an OUTPUT, whose value is set. *)
Definition target (s : Simulator) (conn : Connection) : option location :=
  if decide (type (deref s (to conn)) ≠ OUTPUT)
  then match inputs (deref s (to conn)) with
       | VArr a => Some (Pin a (toInput conn))
       | _ => None
       end
  else Some (Value (to conn)).

Definition read (s : Simulator) (l : location) : jsval :=
  match l with
  | Pin a k => default VUndef (array_of s a !! k)
  | Value r => value (deref s r)
  end.

(** The places compute() of a component reads. *)
Definition operands (s : Simulator) (r : nat) : list location :=
  match type (deref s r), inputs (deref s r) with
  | (INPUT | OUTPUT), _ => [Value r]
  | NOT, VArr a => [Pin a 0]
  | (AND | OR | XOR), VArr a => [Pin a 0; Pin a 1]
  | _, _ => []
  end.

(** No connection after position [k] writes the place that connection
    [k] writes. *)
Definition last_writer (s : Simulator) (k : nat) : Prop :=
  ∀ j conn later,
    k < j → connections s !! k = Some conn → connections s !! j = Some later →
    target s later ≠ target s conn.

(** No connection from position [k] on writes a place that the source of
    connection [k] reads. *)
Definition settled (s : Simulator) (k : nat) : Prop :=
  ∀ j conn later l,
    k ≤ j → connections s !! k = Some conn → connections s !! j = Some later →
    target s later = Some l → l ∉ operands s (from conn).

(** What holds after the first [m] iterations of the second loop of
    simulate() run on the graph of [s0]. *)
Definition delivered (s0 : Simulator) (m : nat) (st : Simulator) : Prop :=
  same_graph s0 st
  ∧ ∀ k conn,
      k < m → connections st !! k = Some conn →
      ((∀ j later, k < j < m → connections st !! j = Some later →
                   target s0 later ≠ target s0 conn) →
       ∃ l, target s0 conn = Some l ∧ read st l = conn_value conn)
      ∧ ((∀ j later l, k ≤ j < m → connections st !! j = Some later →
                       target s0 later = Some l → l ∉ operands s0 (from conn)) →
         ∃ st', compute (from conn) st = Returned (conn_value conn) st').

(** The position of an assignment in a truth table: its bits read as a
    binary number, the first bit the most significant. *)
Fixpoint row_index (v : list bool) : nat :=
  match v with
  | [] => 0
  | b :: v' => Nat.b2n b * 2 ^ length v' + row_index v'
  end.

(** The selected component, if there is one, is a component of the graph
    and is not an INPUT. *)
Definition selection_in_graph (s : Simulator) : Prop :=
  ∀ r, selectedComponent s = Some r →
       r ∈ components s ∧ type (deref s r) ≠ INPUT.

(** The invariant of a session of calls: the store invariant, and the
    selection is a non-INPUT component of the graph. *)
Definition session_ok (s : Simulator) : Prop :=
  graph_ok s ∧ selection_in_graph s.

(** * Properties *)

(** ** topologicalSort: termination and shape of the result *)

Lemma NoDup_fmap_eq {A B} (f : A → B) (l : list A) (a b : A) :
  NoDup (f <$> l) → a ∈ l → b ∈ l → f a = f b → a = b.
Proof.
  induction l as [|c l IH]; intros Hnd Ha Hb Heq; [by apply elem_of_nil in Ha|].
  simpl in Hnd. apply NoDup_cons in Hnd as [Hc Hnd].
  apply elem_of_cons in Ha as [->|Ha]; apply elem_of_cons in Hb as [->|Hb].
  - done.
  - exfalso. apply Hc. rewrite Heq. apply list_elem_of_fmap. eauto.
  - exfalso. apply Hc. rewrite <- Heq. apply list_elem_of_fmap. eauto.
  - by apply IH.
Qed.

Section topological_sort.
Variable s : Simulator.

Lemma size_list_to_set_le (l : list string) :
  size (list_to_set l : gset string) ≤ length l.
Proof.
  induction l as [|i l IH].
  - rewrite list_to_set_nil, size_empty. done.
  - rewrite list_to_set_cons, size_union_alt, size_singleton. simpl.
    assert (size (list_to_set l ∖ {[i]} : gset string) ≤ size (list_to_set l : gset string))
      by (apply subseteq_size; set_solver).
    lia.
Qed.

Lemma all_ids_size : size (all_ids s) < sort_fuel s.
Proof.
  unfold all_ids, sort_fuel, froms.
  pose proof (size_list_to_set_le (cid s <$> (components s ++ (from <$> connections s)))) as H.
  rewrite length_fmap, length_app, length_fmap in H. lia.
Qed.

Lemma cid_in_all_ids (c : nat) :
  c ∈ components s ∨ c ∈ froms s → cid s c ∈ all_ids s.
Proof.
  intros H. unfold all_ids. apply elem_of_list_to_set, list_elem_of_fmap.
  exists c. split; [done|]. apply elem_of_app. done.
Qed.

(** The loop over the filtered connections is the loop over their
    sources. *)
Lemma visit_conns_froms (fuel : nat) (deps : list Connection)
    (acc : option (gset string * list nat)) :
  foldl (fun acc conn =>
           match acc with
           | Some st' => visit s fuel (from conn) st'
           | None => None
           end) acc deps
  = foldl (fun acc component =>
             match acc with
             | Some st' => visit s fuel component st'
             | None => None
             end) acc (from <$> deps).
Proof.
  revert acc. induction deps as [|d deps IH]; intros acc; simpl; [done|]. apply IH.
Qed.

Lemma visit_all_cons (fuel : nat) (c : nat) (l : list nat) st :
  visit_all s fuel (c :: l) st
  = match visit s fuel c st with
    | Some st' => visit_all s fuel l st'
    | None => None
    end.
Proof.
  unfold visit_all. simpl. destruct (visit s fuel c st); [done|].
  induction l; simpl; auto.
Qed.

(** One level of recursion: if [visit] meets its postcondition at a given
    budget, so does the loop over a list. *)
Lemma visit_all_post (fuel : nat) :
  (∀ c V R, (c ∈ components s ∨ c ∈ froms s) → V ⊆ all_ids s →
            size (all_ids s ∖ V) < fuel →
            visit_post s [c] V R (visit s fuel c (V, R))) →
  ∀ l V R, (∀ c, c ∈ l → c ∈ components s ∨ c ∈ froms s) → V ⊆ all_ids s →
           size (all_ids s ∖ V) < fuel →
           visit_post s l V R (visit_all s fuel l (V, R)).
Proof.
  intros Hvisit l. induction l as [|c l IH]; intros V R Hl HV Hsize.
  - exists []. simpl. rewrite app_nil_r, union_empty_r_L.
    split_and!; [done|constructor|set_solver..].
  - rewrite visit_all_cons.
    destruct (Hvisit c V R) as (A0 & -> & Hnd0 & Hfresh0 & Hin0 & Hc0);
      [apply Hl; left|done|done|].
    assert (HA0 : list_to_set (cid s <$> A0) ⊆ all_ids s).
    { intros i Hi. apply elem_of_list_to_set, list_elem_of_fmap in Hi as (a & -> & Ha).
      apply cid_in_all_ids. destruct (Hin0 a Ha) as [Hc|Hf]; [|by right].
      apply list_elem_of_singleton in Hc as ->. apply Hl. left. }
    destruct (IH (V ∪ list_to_set (cid s <$> A0)) (R ++ A0))
      as (A1 & -> & Hnd1 & Hfresh1 & Hin1 & Hc1).
    + intros c' Hc'. apply Hl. by right.
    + set_solver.
    + eapply Nat.le_lt_trans; [|exact Hsize]. apply subseteq_size. set_solver.
    + exists (A0 ++ A1). split_and!.
      * rewrite fmap_app, list_to_set_app_L, <- (assoc_L (++)).
        by rewrite (assoc_L (∪)).
      * rewrite fmap_app. apply NoDup_app. split_and!; [done| |done].
        intros i Hi0 Hi1. apply list_elem_of_fmap in Hi1 as (a & -> & Ha).
        apply (Hfresh1 a Ha). apply elem_of_union_r, elem_of_list_to_set. done.
      * intros a Ha. apply elem_of_app in Ha as [Ha|Ha]; [by apply Hfresh0|].
        specialize (Hfresh1 a Ha). set_solver.
      * intros a Ha. apply elem_of_app in Ha as [Ha|Ha].
        -- destruct (Hin0 a Ha) as [Hc|Hf]; [|by right].
           apply list_elem_of_singleton in Hc as ->. left. left.
        -- destruct (Hin1 a Ha) as [Hc|Hf]; [|by right]. left. by right.
      * intros c' Hc'. rewrite fmap_app, list_to_set_app_L.
        apply elem_of_cons in Hc' as [->|Hc'].
        -- specialize (Hc0 c (list_elem_of_here _ _)). set_solver.
        -- specialize (Hc1 c' Hc'). set_solver.
Qed.

(** [visit] returns within any budget larger than the number of ids not
    yet visited, and meets its postcondition. *)
Lemma visit_meets_post (fuel : nat) :
  ∀ c V R, (c ∈ components s ∨ c ∈ froms s) → V ⊆ all_ids s →
           size (all_ids s ∖ V) < fuel →
           visit_post s [c] V R (visit s fuel c (V, R)).
Proof.
  induction fuel as [|fuel IH]; intros c V R Hc HV Hsize; [lia|].
  simpl. destruct (decide (id (deref s c) ∈ V)) as [Hvis|Hnew].
  - exists []. simpl. rewrite app_nil_r, union_empty_r_L.
    split_and!; [done|constructor|set_solver..|].
    intros c' Hc'. apply list_elem_of_singleton in Hc' as ->. set_solver.
  - rewrite visit_conns_froms.
    pose proof (cid_in_all_ids c Hc) as HcU. unfold cid in HcU.
    set (deps := filter (fun conn => id (deref s (to conn)) = id (deref s c))
                        (connections s)).
    destruct (visit_all_post fuel IH (from <$> deps)
                ({[id (deref s c)]} ∪ V) R)
      as (A1 & Hres & Hnd1 & Hfresh1 & Hin1 & Hc1).
    + intros c' Hc'. right. unfold froms.
      apply list_elem_of_fmap in Hc' as (d & -> & Hd).
      apply list_elem_of_fmap. exists d. split; [done|].
      by apply list_elem_of_filter in Hd as [_ Hd].
    + set_solver.
    + assert (size (all_ids s ∖ ({[id (deref s c)]} ∪ V)) < size (all_ids s ∖ V)); [|lia].
      apply subset_size. set_solver.
    + unfold visit_all in Hres. rewrite Hres. simpl.
      exists (A1 ++ [c]). split_and!.
      * rewrite fmap_app, list_to_set_app_L, <- (assoc_L (++)). simpl.
        do 2 f_equal. unfold cid. clear. set_solver.
      * rewrite fmap_app. apply NoDup_app. split_and!; [done| |apply NoDup_singleton].
        intros i Hi1 Hi. simpl in Hi. apply list_elem_of_singleton in Hi as ->.
        apply list_elem_of_fmap in Hi1 as (a & Heq & Ha).
        apply (Hfresh1 a Ha). rewrite <- Heq. unfold cid. clear. set_solver.
      * intros a Ha. apply elem_of_app in Ha as [Ha|Ha].
        -- specialize (Hfresh1 a Ha). set_solver.
        -- apply list_elem_of_singleton in Ha as ->. done.
      * intros a Ha. apply elem_of_app in Ha as [Ha|Ha].
        -- right. destruct (Hin1 a Ha) as [Hd|Hf]; [|done].
           unfold froms. apply list_elem_of_fmap in Hd as (d & -> & Hd).
           apply list_elem_of_fmap. exists d. split; [done|].
           by apply list_elem_of_filter in Hd as [_ Hd].
        -- by left.
      * intros c' Hc'. apply list_elem_of_singleton in Hc' as ->.
        rewrite fmap_app, list_to_set_app_L. simpl. unfold cid. clear. set_solver.
Qed.

(** The sort always returns: its result lists components with pairwise
    distinct ids, each a component of the graph or the source of a
    connection, and every id of the graph is represented. *)
Lemma topologicalSort_from_post :
  ∃ sorted, topologicalSort_from s (sort_fuel s) = Some sorted
            ∧ NoDup (cid s <$> sorted)
            ∧ (∀ a, a ∈ sorted → a ∈ components s ∨ a ∈ froms s)
            ∧ (∀ c, c ∈ components s → cid s c ∈ cid s <$> sorted).
Proof.
  destruct (visit_all_post (sort_fuel s) (visit_meets_post (sort_fuel s))
              (components s) ∅ [])
    as (A & Hres & Hnd & _ & Hin & Hc).
  - intros c Hc. by left.
  - set_solver.
  - eapply Nat.le_lt_trans; [|apply all_ids_size]. apply subseteq_size. set_solver.
  - exists A. unfold topologicalSort_from. rewrite Hres. simpl.
    split_and!; [done|done|done|].
    intros c Hc'. specialize (Hc c Hc'). set_solver.
Qed.

Lemma topologicalSort_returns :
  ∃ sorted, topologicalSort s = Returned sorted s
            ∧ NoDup (cid s <$> sorted)
            ∧ (∀ a, a ∈ sorted → a ∈ components s ∨ a ∈ froms s)
            ∧ (∀ c, c ∈ components s → cid s c ∈ cid s <$> sorted).
Proof.
  destruct topologicalSort_from_post as (sorted & Heq & H).
  exists sorted. unfold topologicalSort. rewrite Heq. done.
Qed.

(** On a graph that satisfies its invariants the result is a
    rearrangement of the component list. *)
Lemma topologicalSort_permutation :
  well_formed s →
  ∃ sorted, topologicalSort s = Returned sorted s ∧ sorted ≡ₚ components s.
Proof.
  intros [Hids Hown].
  destruct topologicalSort_returns as (sorted & Heq & Hnd & Hin & Hall).
  exists sorted. split; [done|].
  assert (Hsub : ∀ a, a ∈ sorted → a ∈ components s).
  { intros a Ha. destruct (Hin a Ha) as [Hc|Hf]; [done|].
    unfold froms in Hf. apply list_elem_of_fmap in Hf as (conn & -> & Hconn).
    by apply Hown. }
  apply NoDup_Permutation.
  - by apply NoDup_fmap_1 in Hnd.
  - by apply NoDup_fmap_1 in Hids.
  - intros c. split; [apply Hsub|].
    intros Hc. specialize (Hall c Hc).
    apply list_elem_of_fmap in Hall as (a & Heq' & Ha).
    assert (a = c) as <-; [|done].
    apply (NoDup_fmap_eq (cid s) (components s)); auto.
Qed.

End topological_sort.

(** ** simulate neither hangs nor raises a cycle error *)

Lemma safe_ret {A} (a : A) : safe (ret a).
Proof. intros s. exact I. Qed.

Lemma safe_get : safe get.
Proof. intros s. exact I. Qed.

Lemma safe_modify (f : Simulator → Simulator) : safe (modify f).
Proof. intros s. exact I. Qed.

Lemma safe_bind {A B} (m : M A) (k : A → M B) :
  safe m → (∀ a, safe (k a)) → safe (bind m k).
Proof.
  intros Hm Hk s. unfold bind. specialize (Hm s).
  destruct (m s) as [a s'| |]; [apply Hk|done..].
Qed.

Lemma safe_forEach {A} (l : list A) (f : A → M unit) :
  (∀ a, safe (f a)) → safe (forEach l f).
Proof.
  intros Hf. induction l as [|a l IH]; simpl.
  - apply safe_ret.
  - apply safe_bind; [apply Hf|intros _; apply IH].
Qed.

Lemma safe_get_index (obj : jsval) (k : nat) : safe (get_index obj k).
Proof. intros s. unfold get_index. by destruct obj. Qed.

Lemma safe_set_index (obj : jsval) (k : nat) (v : jsval) : safe (set_index obj k v).
Proof. intros s. unfold set_index. by destruct obj. Qed.

Lemma safe_compute (r : nat) : safe (compute r).
Proof.
  unfold compute. apply safe_bind; [apply safe_get|]. intros s.
  destruct (type (deref s r)); unfold binary_gate;
    repeat first
      [ apply safe_ret | apply safe_get | apply safe_get_index
      | apply safe_modify | apply safe_bind | intros ? ].
Qed.

Lemma safe_topologicalSort : safe topologicalSort.
Proof.
  intros s. destruct (topologicalSort_returns s) as (sorted & -> & _). exact I.
Qed.

Lemma safe_evaluate_pass (sorted : list nat) : safe (evaluate_pass sorted).
Proof.
  apply safe_forEach. intros r. apply safe_bind; [apply safe_get|]. intros s.
  destruct (decide _); [|apply safe_ret].
  apply safe_bind; [apply safe_compute|intros _; apply safe_ret].
Qed.

Lemma safe_propagate_connection (i : nat) : safe (propagate_connection i).
Proof.
  unfold propagate_connection.
  apply safe_bind; [apply safe_get|]. intros s.
  apply safe_bind; [apply safe_compute|]. intros v.
  apply safe_bind; [apply safe_modify|]. intros _.
  apply safe_bind; [apply safe_get|]. intros s'.
  destruct (decide _); [apply safe_set_index|apply safe_modify].
Qed.

Lemma safe_propagate_pass : safe propagate_pass.
Proof.
  apply safe_bind; [apply safe_get|]. intros s.
  apply safe_forEach, safe_propagate_connection.
Qed.

Lemma safe_simulate : safe simulate.
Proof.
  apply safe_bind; [apply safe_topologicalSort|]. intros sorted.
  apply safe_bind; [apply safe_evaluate_pass|]. intros _.
  apply safe_propagate_pass.
Qed.

(** ** Concrete states *)

Lemma single_inverter_acyclic : ¬ has_cycle single_inverter_state.
Proof.
  intros [r Hr].
  assert (Hstep : ∀ a b, feeds single_inverter_state a b → a = 0 ∧ b = 1).
  { intros a b (conn & Hconn & <- & <-).
    vm_compute in Hconn. apply list_elem_of_singleton in Hconn as ->. done. }
  assert (Htc : ∀ a b, tc (feeds single_inverter_state) a b → a = 0 ∧ b = 1).
  { intros a b H. induction H as [a b H|a b c H _ IH].
    - by apply Hstep.
    - apply Hstep in H as [-> ->]. destruct IH as [? _]. done. }
  apply Htc in Hr as [? ?]. congruence.
Qed.

Lemma inverter_loop_has_cycle : has_cycle inverter_loop_state.
Proof.
  exists 0. apply tc_l with 1; [|apply tc_once].
  - exists (mkConnection 0 0 1 0 (VBool false) false).
    split; [|done]. vm_compute. apply list_elem_of_here.
  - exists (mkConnection 1 0 0 0 (VBool false) false).
    split; [|done]. vm_compute. apply list_elem_of_further, list_elem_of_here.
Qed.

Lemma inverter_loop_well_formed : well_formed inverter_loop_state.
Proof.
  split.
  - unfold unique_ids. apply (bool_decide_unpack _). by vm_compute.
  - intros conn Hconn. vm_compute in Hconn.
    apply elem_of_cons in Hconn as [->|Hconn];
      [|apply list_elem_of_singleton in Hconn as ->];
      split; apply (bool_decide_unpack _); by vm_compute.
Qed.

(** ** addComponent *)

Lemma addComponent_known (t i : string) (x0 y0 : Z) (l : option string)
    (ty : ctype) (s : Simulator) :
  class_of (toUpperCase t) = Some ty →
  ∃ c pins,
    addComponent t i x0 y0 l s
    = Returned (length (heap s))
        (mkSimulator (heap s ++ [c]) (arrays s ++ [pins])
                     (components s ++ [length (heap s)])
                     (connections s) (selectedComponent s))
    ∧ id c = i ∧ type c = ty ∧ x c = x0 ∧ y c = y0
    ∧ inputs c = VArr (length (arrays s)).
Proof.
  unfold class_of, addComponent. intros H.
  repeat case_decide; simplify_eq; destruct s; eexists _, _; split_and!;
    try reflexivity.
Qed.

Lemma addComponent_unknown (t i : string) (x0 y0 : Z) (l : option string)
    (s : Simulator) :
  class_of (toUpperCase t) = None →
  addComponent t i x0 y0 l s = Thrown (unknown_type t) s.
Proof.
  unfold class_of, addComponent. intros H.
  repeat case_decide; simplify_eq. reflexivity.
Qed.

(** The switch compares the upper case the code computes: the type
    'ınput', written with a dotless i (U+0131), is an INPUT, and so is
    'input'; 'inpüt' is unknown. *)
Lemma addComponent_upper_case :
  class_of (toUpperCase "ınput") = Some INPUT
  ∧ class_of (toUpperCase "input") = Some INPUT
  ∧ class_of (toUpperCase "inpüt") = None
  ∧ ∃ s, addComponent "ınput" "A" 0 0 None empty_simulator = Returned 0 s
         ∧ type (deref s 0) = INPUT.
Proof.
  split_and!; try by vm_compute.
  exists (run (addComponent "ınput" "A" 0 0 None) empty_simulator).
  split; by vm_compute.
Qed.

(** ** Statements of the specification *)

(** C1 (defect of the code): the graph INPUT A -> NOT n1 with A toggled
    to true is acyclic, and two calls of simulate() in a row, with
    nothing changed in between, leave different outputs on n1: [true]
    after the first call (computed from the pin value stored before the
    call), [false] after the second. *)
Theorem simulate_twice_single_inverter :
  ¬ has_cycle single_inverter_state
  ∧ ∃ s1 s2, simulate single_inverter_state = Returned tt s1
             ∧ simulate s1 = Returned tt s2
             ∧ output_of s1 "n1" = Some (VBool true)
             ∧ output_of s2 "n1" = Some (VBool false).
Proof.
  split; [apply single_inverter_acyclic|].
  exists (run simulate single_inverter_state),
         (run (simulate ;; simulate) single_inverter_state).
  split_and!; by vm_compute.
Qed.


(** C3 (the claim as stated fails): the two-gate loop n1 -> n2 -> n1 has
    a cycle, yet topologicalSort returns the order [n2; n1] and
    simulate() returns normally with a new output committed on n1. *)
Lemma inverter_loop_simulates_without_error :
  has_cycle inverter_loop_state
  ∧ topologicalSort inverter_loop_state = Returned [1; 0] inverter_loop_state
  ∧ ∃ s1, simulate inverter_loop_state = Returned tt s1
          ∧ output_of inverter_loop_state "n1" = Some (VBool false)
          ∧ output_of s1 "n1" = Some (VBool true).
Proof.
  split; [apply inverter_loop_has_cycle|]. split; [by vm_compute|].
  exists (run simulate inverter_loop_state). split_and!; by vm_compute.
Qed.

(** ** Cycles and the returned order *)

Lemma rank_lookup (sorted : list nat) (r : nat) :
  r ∈ sorted → sorted !! rank sorted r = Some r.
Proof.
  intros Hin.
  destruct (list_find_elem_of (fun r' => r' = r) sorted r Hin eq_refl) as [[i r'] Hf].
  unfold rank. rewrite Hf. simpl.
  apply list_find_Some in Hf as (Hl & -> & _). done.
Qed.

(** No linear order agrees with every connection of a cyclic graph. *)
Lemma cycle_breaks_order (s : Simulator) (sorted : list nat) :
  (∀ conn, conn ∈ connections s → from conn ∈ sorted ∧ to conn ∈ sorted) →
  has_cycle s →
  ∃ conn, conn ∈ connections s ∧ out_of_order sorted conn.
Proof.
  intros Hin [r Hr].
  destruct (decide (Exists (fun conn => rank sorted (to conn) ≤ rank sorted (from conn))
                           (connections s))) as [Hex|Hno].
  - apply Exists_exists in Hex as (conn & Hconn & Hle).
    exists conn. split; [done|].
    exists (rank sorted (to conn)), (rank sorted (from conn)).
    destruct (Hin conn Hconn). auto using rank_lookup.
  - exfalso. apply not_Exists_Forall in Hno; [|intros ?; apply _].
    rewrite Forall_forall in Hno.
    assert (Hlt : ∀ a b, tc (feeds s) a b → rank sorted a < rank sorted b).
    { intros a b H. induction H as [a b (conn & Hconn & <- & <-)
                                   |a b c (conn & Hconn & <- & <-) _ IH].
      - specialize (Hno conn Hconn). simpl in Hno. lia.
      - specialize (Hno conn Hconn). simpl in Hno. lia. }
    apply Hlt in Hr. lia.
Qed.

(** C3 (amended): on every graph whose connection relation has a cycle,
    topologicalSort returns an order (there is no cycle error, and the
    visited set stops the recursion); simulate() goes on to run the
    evaluation pass and the propagation pass over that order as on any
    other graph, so it neither hangs nor raises a cycle error and its
    results are committed.  When the graph satisfies its invariants the
    order lists every component once, and some connection has its target
    placed no later than its source. *)
Theorem simulate_on_cyclic_graph (s : Simulator) :
  has_cycle s →
  ∃ sorted,
    topologicalSort s = Returned sorted s
    ∧ simulate s = (evaluate_pass sorted ;; propagate_pass) s
    ∧ no_hang_no_cycle_error (simulate s)
    ∧ (well_formed s →
       sorted ≡ₚ components s
       ∧ ∃ conn, conn ∈ connections s ∧ out_of_order sorted conn).
Proof.
  intros Hcycle.
  destruct (topologicalSort_returns s) as (sorted & Heq & Hnd & Hin & Hall).
  exists sorted. split_and!; [done| | |].
  - unfold simulate, bind at 1. rewrite Heq. done.
  - apply safe_simulate.
  - intros Hwf.
    destruct (topologicalSort_permutation s Hwf) as (sorted' & Heq' & Hperm).
    rewrite Heq in Heq'. injection Heq' as <-.
    split; [done|]. apply cycle_breaks_order; [|done].
    intros conn Hconn. destruct Hwf as [_ Hown]. rewrite Hperm. by apply Hown.
Qed.

Lemma simulate_on_cyclic_graph_witness :
  has_cycle inverter_loop_state
  ∧ ∃ sorted,
      topologicalSort inverter_loop_state = Returned sorted inverter_loop_state
      ∧ simulate inverter_loop_state
        = (evaluate_pass sorted ;; propagate_pass) inverter_loop_state
      ∧ no_hang_no_cycle_error (simulate inverter_loop_state)
      ∧ (well_formed inverter_loop_state →
         sorted ≡ₚ components inverter_loop_state
         ∧ ∃ conn, conn ∈ connections inverter_loop_state ∧ out_of_order sorted conn).
Proof.
  split; [apply inverter_loop_has_cycle|].
  apply (simulate_on_cyclic_graph inverter_loop_state), inverter_loop_has_cycle.
Defined.

(** C10 (the claim as stated fails): two components added under the same
    id are both in the graph, and topologicalSort returns a list that
    holds the first and not the second: the visited set is keyed by id. *)
Lemma topologicalSort_drops_shared_id :
  ∃ s0 s,
    addComponent "NOT" "n1" 100 100 None empty_simulator = Returned 0 s0
    ∧ addComponent "NOT" "n1" 200 100 None s0 = Returned 1 s
    ∧ components s = [0; 1]
    ∧ topologicalSort s = Returned [0] s
    ∧ 1 ∈ components s
    ∧ 1 ∉ [0].
Proof.
  exists (run (addComponent "NOT" "n1" 100 100 None) empty_simulator),
         (run (addComponent "NOT" "n1" 100 100 None ;;
               addComponent "NOT" "n1" 200 100 None) empty_simulator).
  split_and!; try by vm_compute.
  - apply (bool_decide_unpack _). by vm_compute.
  - apply (bool_decide_unpack _). by vm_compute.
Qed.

(** C10 (amended): on every graph, cyclic or not, topologicalSort
    returns: the recursion stops because an id is put in the visited set
    before the components feeding it are visited.  The result lists no
    component and no id twice, every id of a component of the graph is
    the id of a listed component, and every listed component is a
    component of the graph or the source of a connection.  On a graph
    with unique ids whose connections join components of the graph, the
    result lists each component of the graph exactly once. *)
Theorem topologicalSort_total (s : Simulator) :
  ∃ sorted,
    topologicalSort s = Returned sorted s
    ∧ NoDup sorted
    ∧ NoDup (cid s <$> sorted)
    ∧ (∀ c, c ∈ components s → cid s c ∈ cid s <$> sorted)
    ∧ (∀ a, a ∈ sorted → a ∈ components s ∨ a ∈ froms s)
    ∧ (well_formed s → sorted ≡ₚ components s).
Proof.
  destruct (topologicalSort_returns s) as (sorted & Heq & Hnd & Hin & Hall).
  exists sorted. split_and!; [done|by apply NoDup_fmap_1 in Hnd|done..|].
  intros Hwf.
  destruct (topologicalSort_permutation s Hwf) as (sorted' & Heq' & Hperm).
  rewrite Heq in Heq'. by injection Heq' as <-.
Qed.

Lemma topologicalSort_total_witness :
  has_cycle inverter_loop_state
  ∧ well_formed inverter_loop_state
  ∧ ∃ sorted,
      topologicalSort inverter_loop_state = Returned sorted inverter_loop_state
      ∧ NoDup sorted
      ∧ sorted ≡ₚ components inverter_loop_state.
Proof.
  split; [apply inverter_loop_has_cycle|].
  split; [apply inverter_loop_well_formed|].
  destruct (topologicalSort_total inverter_loop_state)
    as (sorted & Heq & Hnd & _ & _ & _ & Hperm).
  exists sorted. split_and!; [done|done|].
  apply Hperm, inverter_loop_well_formed.
Defined.

(** C5 (the claim as stated fails): adding a component under an id that
    is already present returns normally and appends a second component
    with that id. *)
Lemma addComponent_accepts_duplicate_id :
  ∃ s0 s1,
    addComponent "INPUT" "A" 100 100 None empty_simulator = Returned 0 s0
    ∧ find_component s0 "A" = Some 0
    ∧ addComponent "AND" "A" 100 100 None s0 = Returned 1 s1
    ∧ components s0 = [0]
    ∧ components s1 = [0; 1]
    ∧ cid s1 0 = "A" ∧ cid s1 1 = "A".
Proof.
  exists (run (addComponent "INPUT" "A" 100 100 None) empty_simulator),
         (run (addComponent "INPUT" "A" 100 100 None ;;
               addComponent "AND" "A" 100 100 None) empty_simulator).
  split_and!; by vm_compute.
Qed.

(** C5 (amended): addComponent does not look at the ids in the graph.
    When a component with the given id is already present, a call with a
    known type returns a new component with that id and with a pins
    array of its own, appended after the existing components; the
    existing components, their pins arrays, the connections and the
    selection stay as they were.  A call with an unknown type throws and
    leaves the graph unchanged. *)
Theorem addComponent_existing_id (s : Simulator) (t i : string) (x0 y0 : Z)
    (l : option string) (r0 : nat) :
  find_component s i = Some r0 →
  match class_of (toUpperCase t) with
  | Some ty =>
      ∃ c pins s',
        addComponent t i x0 y0 l s = Returned (length (heap s)) s'
        ∧ heap s' = heap s ++ [c]
        ∧ arrays s' = arrays s ++ [pins]
        ∧ id c = i ∧ type c = ty
        ∧ inputs c = VArr (length (arrays s))
        ∧ components s' = components s ++ [length (heap s)]
        ∧ connections s' = connections s
        ∧ selectedComponent s' = selectedComponent s
  | None => addComponent t i x0 y0 l s = Thrown (unknown_type t) s
  end.
Proof.
  intros _. destruct (class_of (toUpperCase t)) as [ty|] eqn:Hclass.
  - destruct (addComponent_known t i x0 y0 l ty s Hclass)
      as (c & pins & Heq & Hid & Hty & _ & _ & Hin).
    eexists c, pins, _. split; [exact Heq|]. simpl. done.
  - by apply addComponent_unknown.
Qed.

Lemma addComponent_existing_id_witness :
  find_component (run (addComponent "INPUT" "A" 100 100 None) empty_simulator) "A"
  = Some 0
  ∧ ∃ c pins s',
      addComponent "and" "A" 7 9 None
        (run (addComponent "INPUT" "A" 100 100 None) empty_simulator)
      = Returned 1 s'
      ∧ heap s' = heap (run (addComponent "INPUT" "A" 100 100 None) empty_simulator) ++ [c]
      ∧ arrays s'
        = arrays (run (addComponent "INPUT" "A" 100 100 None) empty_simulator) ++ [pins]
      ∧ id c = "A" ∧ type c = AND
      ∧ components s' = [0; 1].
Proof.
  split; [by vm_compute|].
  destruct (addComponent_existing_id
              (run (addComponent "INPUT" "A" 100 100 None) empty_simulator)
              "and" "A" 7 9 None 0 eq_refl)
    as (c & pins & s' & Heq & Hheap & Harr & Hid & Hty & _ & Hcomp & _).
  exists c, pins, s'. split_and!; done.
Defined.

(** C6 (defect of the code): the switch of addComponent has no case for
    the composite classes.  On every graph a call with 'HALF_ADDER',
    'FULL_ADDER' or 'MUX_4TO1' throws "Unknown component type" and
    leaves the graph unchanged, and the library's own template
    fullAdderCircuit, which asks for a 'FULL_ADDER', ends in that
    exception. *)
Theorem addComponent_rejects_composite_types (s : Simulator) (i : string)
    (x0 y0 : Z) (l : option string) :
  addComponent "HALF_ADDER" i x0 y0 l s = Thrown (unknown_type "HALF_ADDER") s
  ∧ addComponent "FULL_ADDER" i x0 y0 l s = Thrown (unknown_type "FULL_ADDER") s
  ∧ addComponent "MUX_4TO1" i x0 y0 l s = Thrown (unknown_type "MUX_4TO1") s
  ∧ ∃ s', CircuitTemplates.fullAdderCircuit empty_simulator
          = Thrown (Error "Unknown component type: FULL_ADDER") s'
          ∧ components s' = [0; 1; 2].
Proof.
  split_and!; try (by apply addComponent_unknown).
  exists (run CircuitTemplates.fullAdderCircuit empty_simulator).
  split; by vm_compute.
Qed.

(** ** removeComponent *)

Lemma findIndex_Some (s : Simulator) (i : string) (index : nat) :
  findIndex s i = Some index →
  ∃ r, components s !! index = Some r ∧ cid s r = i
       ∧ ∀ j r', components s !! j = Some r' → j < index → cid s r' ≠ i.
Proof.
  unfold findIndex. intros H.
  destruct (list_find _ _) as [[j r]|] eqn:Hf; simplify_eq/=.
  apply list_find_Some in Hf as (Hl & Hid & Hfirst). exists r. done.
Qed.

Lemma findIndex_None (s : Simulator) (i : string) :
  findIndex s i = None → ∀ r, r ∈ components s → cid s r ≠ i.
Proof.
  unfold findIndex. intros H.
  destruct (list_find _ _) as [[j r]|] eqn:Hf; simplify_eq/=.
  rewrite list_find_None, Forall_forall in Hf. done.
Qed.

(** C7: removeComponent(id) changes nothing when no component has that
    id.  Otherwise it removes the (first) component with that id from the
    component list, keeps exactly the connections neither of whose
    endpoints has that id, so that no remaining connection has
    from.id === id or to.id === id, and clears the selection if the
    selected component has that id. *)
Theorem removeComponent_spec (s : Simulator) (i : string) :
  match findIndex s i with
  | None =>
      (∀ r, r ∈ components s → cid s r ≠ i)
      ∧ removeComponent i s = Returned tt s
  | Some index =>
      ∃ s' r,
        removeComponent i s = Returned tt s'
        ∧ components s !! index = Some r ∧ cid s r = i
        ∧ components s' = delete index (components s)
        ∧ connections s'
          = filter (fun conn => cid s (from conn) ≠ i ∧ cid s (to conn) ≠ i)
                   (connections s)
        ∧ (∀ conn, conn ∈ connections s' →
                   cid s' (from conn) ≠ i ∧ cid s' (to conn) ≠ i)
        ∧ selectedComponent s'
          = match selectedComponent s with
            | Some sel => if decide (cid s sel = i) then None else Some sel
            | None => None
            end
        ∧ heap s' = heap s ∧ arrays s' = arrays s
  end.
Proof.
  destruct (findIndex s i) as [index|] eqn:Hfind.
  - destruct (findIndex_Some s i index Hfind) as (r & Hr & Hid & _).
    unfold removeComponent, bind, get, modify. rewrite Hfind.
    destruct s as [h a cs conns sel].
    unfold set_components, set_connections, set_selectedComponent, cid, deref in *.
    simpl in *.
    destruct sel as [sel0|]; [destruct (decide (id (h !!! sel0) = i))|];
      (eexists _, r; split; [reflexivity|]; simpl; split_and!; try done;
       intros conn Hconn; apply list_elem_of_filter in Hconn as [Hc _]; exact Hc).
  - split; [by apply findIndex_None|].
    unfold removeComponent, bind, get. by rewrite Hfind.
Qed.

(** ** compute() and the rule table *)

Lemma compute_binary_gate (op : jsval → jsval → jsval) (s : Simulator) (r : nat)
    (c : Component) (arr : nat) (a b : jsval) :
  heap s !! r = Some c → inputs c = VArr arr → arrays s !! arr = Some [a; b] →
  ∃ s', binary_gate op r s = Returned (op a b) s'
        ∧ output (deref s' r) = op a b.
Proof.
  intros Hh Hi Ha.
  unfold binary_gate, bind, get, get_index, update_component, modify, ret,
    deref, array_of.
  rewrite (list_lookup_total_correct _ _ _ Hh), Hi,
    (list_lookup_total_correct _ _ _ Ha).
  simpl. eexists. split; [reflexivity|]. simpl.
  rewrite list_lookup_total_insert_eq; [done|]. by eapply lookup_lt_Some.
Qed.

(** C8: with boolean values on the input pins, compute() follows the rule
    table: AND gives in0 ∧ in1, OR gives in0 ∨ in1, XOR gives in0 ≠ in1,
    NOT gives ¬in0; HalfAdder gives (Sum, Carry) = (A ≠ B, A ∧ B);
    FullAdder gives Sum = A ⊕ B ⊕ Cin and Cout = (A ∧ B) ∨ (Cin ∧ (A ≠ B))
    for all eight combinations; Multiplexer4to1 gives
    data[select1 * 2 + select0]. *)
Theorem compute_follows_rule_table :
  (∀ s r (a b : bool),
      (holds_pins s r AND [VBool a; VBool b] → computes s r (VBool (a && b)))
      ∧ (holds_pins s r OR [VBool a; VBool b] → computes s r (VBool (a || b)))
      ∧ (holds_pins s r XOR [VBool a; VBool b] → computes s r (VBool (xorb a b)))
      ∧ (holds_pins s r NOT [VBool a] → computes s r (VBool (negb a))))
  ∧ (∀ (a b : bool) o0 o1,
        HalfAdder.outputs
          (HalfAdder.compute (HalfAdder.mk [VBool a; VBool b] [o0; o1]))
        = [VBool (xorb a b); VBool (a && b)])
  ∧ (∀ (a b cin : bool) o0 o1,
        FullAdder.outputs
          (FullAdder.compute (FullAdder.mk [VBool a; VBool b; VBool cin] [o0; o1]))
        = [VBool (xorb (xorb a b) cin); VBool ((a && b) || (cin && xorb a b))])
  ∧ (∀ (d0 d1 d2 d3 select0 select1 : bool) o,
        Multiplexer4to1.output
          (Multiplexer4to1.compute
             (Multiplexer4to1.mk [VBool d0; VBool d1; VBool d2; VBool d3]
                                 [select0; select1] o))
        = VBool (nth (Nat.b2n select1 * 2 + Nat.b2n select0) [d0; d1; d2; d3] false)).
Proof.
  split_and!.
  - intros s r a b. split_and!; intros (c & arr & Hh & Ht & Hi & Ha);
      unfold computes, compute, bind at 1, get at 1, deref at 1;
      rewrite (list_lookup_total_correct _ _ _ Hh), Ht.
    + destruct (compute_binary_gate js_and s r c arr _ _ Hh Hi Ha) as (s' & Heq & Hout).
      exists s'. rewrite Heq, Hout. by destruct a, b.
    + destruct (compute_binary_gate js_or s r c arr _ _ Hh Hi Ha) as (s' & Heq & Hout).
      exists s'. rewrite Heq, Hout. by destruct a, b.
    + destruct (compute_binary_gate js_strict_neq s r c arr _ _ Hh Hi Ha)
        as (s' & Heq & Hout).
      exists s'. rewrite Heq, Hout. by destruct a, b.
    + unfold bind, get, get_index, update_component, modify, ret, deref, array_of.
      rewrite (list_lookup_total_correct _ _ _ Hh), Hi,
        (list_lookup_total_correct _ _ _ Ha).
      simpl. eexists. split; [reflexivity|]. simpl.
      rewrite list_lookup_total_insert_eq; [done|]. by eapply lookup_lt_Some.
  - intros a b o0 o1. by destruct a, b.
  - intros a b cin o0 o1. by destruct a, b, cin.
  - intros d0 d1 d2 d3 select0 select1 o. by destruct select0, select1.
Qed.

Lemma compute_follows_rule_table_witness :
  holds_pins inverter_chain_state 1 NOT [VBool false]
  ∧ computes inverter_chain_state 1 (VBool true).
Proof.
  assert (H : holds_pins inverter_chain_state 1 NOT [VBool false]).
  { eexists _, 1. by vm_compute. }
  split; [exact H|].
  exact (proj2 (proj2 (proj2 (proj1 compute_follows_rule_table
                                 inverter_chain_state 1 false false))) H).
Defined.

Lemma removeComponent_spec_witness :
  ∃ s' r,
    removeComponent "n1" inverter_chain_state = Returned tt s'
    ∧ components inverter_chain_state !! 1 = Some r
    ∧ components s' = [0; 2]
    ∧ connections s' = []
    ∧ (∀ conn, conn ∈ connections s' →
               cid s' (from conn) ≠ "n1" ∧ cid s' (to conn) ≠ "n1").
Proof.
  pose proof (removeComponent_spec inverter_chain_state "n1") as H.
  change (findIndex inverter_chain_state "n1") with (Some 1) in H.
  destruct H as (s' & r & Heq & Hr & _ & Hcomp & Hconn & Hnone & _).
  exists s', r. split_and!; done.
Defined.

(** ** TruthTableGenerator.generate *)

Section truth_table.
Import TruthTableGenerator.

Lemma js_bit_spec (i k : Z) :
  (0 ≤ i < 2 ^ 31)%Z → (0 ≤ k < 32)%Z →
  js_band (js_shr i k) 1 = Z.b2z (Z.testbit i k).
Proof.
  intros Hi Hk. unfold js_band, js_shr.
  assert (Hto : ∀ n, (0 ≤ n < 2 ^ 31)%Z → to_int32 n = n).
  { intros n Hn. unfold to_int32. rewrite Z.mod_small by lia.
    destruct (Z.ltb_spec n (2 ^ 31)); lia. }
  rewrite (Hto i Hi), (Hto 1%Z) by lia.
  rewrite (Z.mod_small k) by lia.
  change 31%Z with (Z.ones 5). rewrite Z.land_ones by lia.
  rewrite (Z.mod_small k) by lia.
  assert (Hs : (0 ≤ Z.shiftr i k < 2 ^ 31)%Z).
  { rewrite Z.shiftr_div_pow2 by lia. split.
    - apply Z.div_pos; lia.
    - apply Z.div_lt_upper_bound; [lia|]. nia. }
  rewrite (Hto _ Hs).
  change 1%Z with (Z.ones 1) at 1. rewrite Z.land_ones by lia.
  rewrite Hto by (pose proof (Z.mod_pos_bound (Z.shiftr i k) (2 ^ 1)); lia).
  change (2 ^ 1)%Z with 2%Z. rewrite <- Z.bit0_mod.
  rewrite Z.shiftr_spec by lia. done.
Qed.

Lemma fill_row_other (numInputs i index : Z) (inputs : list string) (r : row)
    (name : string) :
  name ∉ inputs → fill_row numInputs i index inputs r !! name = r !! name.
Proof.
  revert index r. induction inputs as [|n inputs IH]; intros index r Hn; simpl; [done|].
  rewrite IH by set_solver. unfold row_set. case_decide; [done|].
  apply lookup_insert_ne. set_solver.
Qed.

(** No write creates a property ['__proto__']. *)
Lemma fill_row_proto (numInputs i index : Z) (inputs : list string) (r : row) :
  fill_row numInputs i index inputs r !! "__proto__" = r !! "__proto__".
Proof.
  revert index r. induction inputs as [|n inputs IH]; intros index r; simpl; [done|].
  rewrite IH. unfold row_set. case_decide as Hn; [done|].
  by rewrite lookup_insert_ne.
Qed.

(** A name other than ['__proto__'] holds the bit written at its last
    position. *)
Lemma fill_row_last (numInputs i index : Z) (inputs : list string) (r : row)
    (k : nat) (name : string) :
  inputs !! k = Some name → (∀ j, k < j → inputs !! j ≠ Some name) →
  name ≠ "__proto__" →
  fill_row numInputs i index inputs r !! name
  = Some (Val (VNum (js_band (js_shr i (numInputs - 1 - (index + Z.of_nat k))) 1))).
Proof.
  revert index r k. induction inputs as [|n inputs IH];
    intros index r k Hk Hlast Hproto; [done|].
  destruct k as [|k]; simpl in *.
  - simplify_eq. rewrite fill_row_other.
    + unfold row_set. rewrite decide_False by done.
      rewrite lookup_insert_eq. do 5 f_equal. lia.
    + intros Hin. apply list_elem_of_lookup in Hin as [j Hj].
      by apply (Hlast (S j)); [lia|].
  - rewrite (IH _ _ k); [do 5 f_equal; lia|done| |done].
    intros j Hj. apply (Hlast (S j)). lia.
Qed.

Lemma fill_row_lookup (numInputs i index : Z) (inputs : list string) (r : row)
    (k : nat) (name : string) :
  NoDup inputs → inputs !! k = Some name → name ≠ "__proto__" →
  fill_row numInputs i index inputs r !! name
  = Some (Val (VNum (js_band (js_shr i (numInputs - 1 - (index + Z.of_nat k))) 1))).
Proof.
  intros Hnd Hk Hproto. apply fill_row_last; [done| |done].
  intros j Hj Hj'. pose proof (NoDup_lookup _ _ _ _ Hnd Hk Hj'). lia.
Qed.

Lemma js_bit (n i k : nat) :
  n < 32 → i < 2 ^ n → k < n →
  Val (VNum (js_band (js_shr (Z.of_nat i) (Z.of_nat n - 1 - (0 + Z.of_nat k))) 1))
  = bit i (n - 1 - k).
Proof.
  intros Hn Hi Hk. unfold bit. do 2 f_equal.
  replace (Z.of_nat n - 1 - (0 + Z.of_nat k))%Z with (Z.of_nat (n - 1 - k)) by lia.
  apply js_bit_spec; [|lia].
  split; [lia|].
  apply Z.lt_le_trans with (Z.of_nat (2 ^ n)); [lia|].
  rewrite Nat2Z.inj_pow. apply Z.pow_le_mono_r; lia.
Qed.

Lemma fill_row_bit (inputs : list string) (i index : nat) (name : string) :
  length inputs < 32 → NoDup inputs → i < 2 ^ length inputs →
  inputs !! index = Some name → name ≠ "__proto__" →
  fill_row (Z.of_nat (length inputs)) (Z.of_nat i) 0 inputs ∅ !! name
  = Some (bit i (length inputs - 1 - index)).
Proof.
  intros Hlen Hnd Hi Hname Hproto.
  pose proof (lookup_lt_Some _ _ _ Hname) as Hindex.
  rewrite (fill_row_lookup _ _ _ _ _ index) by done.
  f_equal. by apply js_bit.
Qed.

(** The values [generate] reads back are the bits it has just written. *)
Lemma row_values (inputs : list string) (i : nat) :
  length inputs < 32 → NoDup inputs → "__proto__" ∉ inputs →
  i < 2 ^ length inputs →
  map (row_get (fill_row (Z.of_nat (length inputs)) (Z.of_nat i) 0 inputs ∅)) inputs
  = (fun index => bit i (length inputs - 1 - index)) <$> seq 0 (length inputs).
Proof.
  intros Hlen Hnd Hproto Hi. apply list_eq. intros k.
  change (map ?f inputs) with (f <$> inputs). rewrite !list_lookup_fmap.
  destruct (inputs !! k) as [name|] eqn:Hk; simpl.
  - assert (Hname : name ≠ "__proto__").
    { intros ->. apply Hproto. by eapply list_elem_of_lookup_2. }
    rewrite lookup_seq_lt by (by eapply lookup_lt_Some). simpl.
    unfold row_get. rewrite decide_False by done.
    by rewrite (fill_row_bit inputs i k name).
  - rewrite lookup_seq_ge; [done|]. by apply lookup_ge_None.
Qed.

End truth_table.

(** C9 (the claim as stated fails): with the name sequence ['A', 'A'] the
    table has four rows, but row 1 does not assign bit 1 of 1 (which is
    0) to inputNames[0]: the row is an object with the single key 'A',
    and it holds the bit written last, 1. *)
Lemma generate_repeated_name :
  ∃ table r,
    TruthTableGenerator.generate ["A"; "A"] None = Some table
    ∧ length table = 4
    ∧ table !! 1 = Some r
    ∧ ["A"; "A"] !! 0 = Some "A"
    ∧ TruthTableGenerator.bit 1 (2 - 1 - 0) = TruthTableGenerator.Val (VNum 0)
    ∧ r !! "A" = Some (TruthTableGenerator.Val (VNum 1)).
Proof.
  exists [ {["A" := TruthTableGenerator.Val (VNum 0)]};
           {["A" := TruthTableGenerator.Val (VNum 1)]};
           {["A" := TruthTableGenerator.Val (VNum 0)]};
           {["A" := TruthTableGenerator.Val (VNum 1)]} ],
         {["A" := TruthTableGenerator.Val (VNum 1)]}.
  split_and!; by vm_compute.
Qed.

(** A name '__proto__' gets no column: the rows of
    generate(['__proto__','B']) have the single field B, and an output
    function receives [Object.prototype] for that name. *)
Lemma generate_proto_name :
  TruthTableGenerator.generate ["__proto__"; "B"] None
  = Some [ {["B" := TruthTableGenerator.Val (VNum 0)]};
           {["B" := TruthTableGenerator.Val (VNum 1)]};
           {["B" := TruthTableGenerator.Val (VNum 0)]};
           {["B" := TruthTableGenerator.Val (VNum 1)]} ]
  ∧ TruthTableGenerator.generate ["__proto__"]
      (Some (fun args => default (TruthTableGenerator.Val VUndef) (args !! 0)))
    = Some [ {["output" := TruthTableGenerator.ObjectPrototype]};
             {["output" := TruthTableGenerator.ObjectPrototype]} ].
Proof. split; by vm_compute. Qed.

(** C9 (amended): for fewer than 32 pairwise distinct input names, none of
    them 'output' or '__proto__', and any output function, generate
    produces exactly 2^N rows; row i assigns to inputNames[index] bit
    (N-1-index) of i, the first name taking the most significant bit, and
    its output field is the output function applied to those values in
    input-name order (the field is absent when no function is given).  In
    particular generate(['A','B'], (a,b) => a && b) is the four rows
    {A:0,B:0,output:0}, {A:0,B:1,output:0}, {A:1,B:0,output:0},
    {A:1,B:1,output:1}. *)
Theorem generate_table :
  (∀ inputs f,
      length inputs < 32 → NoDup inputs → "output" ∉ inputs →
      "__proto__" ∉ inputs →
      ∃ table,
        TruthTableGenerator.generate inputs f = Some table
        ∧ length table = 2 ^ length inputs
        ∧ ∀ i, i < 2 ^ length inputs →
               ∃ r, table !! i = Some r
                    ∧ (∀ index name,
                          inputs !! index = Some name →
                          r !! name
                          = Some (TruthTableGenerator.bit i (length inputs - 1 - index)))
                    ∧ r !! "output"
                      = (fun g => g ((fun index =>
                                        TruthTableGenerator.bit i (length inputs - 1 - index))
                                     <$> seq 0 (length inputs))) <$> f)
  ∧ TruthTableGenerator.generate ["A"; "B"] (Some TruthTableGenerator.and_function)
    = Some [ {["A" := TruthTableGenerator.Val (VNum 0);
               "B" := TruthTableGenerator.Val (VNum 0);
               "output" := TruthTableGenerator.Val (VNum 0)]};
             {["A" := TruthTableGenerator.Val (VNum 0);
               "B" := TruthTableGenerator.Val (VNum 1);
               "output" := TruthTableGenerator.Val (VNum 0)]};
             {["A" := TruthTableGenerator.Val (VNum 1);
               "B" := TruthTableGenerator.Val (VNum 0);
               "output" := TruthTableGenerator.Val (VNum 0)]};
             {["A" := TruthTableGenerator.Val (VNum 1);
               "B" := TruthTableGenerator.Val (VNum 1);
               "output" := TruthTableGenerator.Val (VNum 1)]} ].
Proof.
  split; [|by vm_compute].
  intros inputs f Hlen Hnd Hout Hproto.
  unfold TruthTableGenerator.generate. rewrite decide_True by done.
  eexists. split; [reflexivity|].
  split; [by rewrite length_map, length_seq|].
  intros i Hi. eexists. split.
  { change (map ?g (seq 0 ?n)) with (g <$> seq 0 n).
    rewrite list_lookup_fmap, lookup_seq_lt by done. reflexivity. }
  unfold TruthTableGenerator.make_row. simpl. split.
  - intros index name Hname.
    assert (name ≠ "output") by (intros ->; apply Hout; by eapply list_elem_of_lookup_2).
    assert (name ≠ "__proto__")
      by (intros ->; apply Hproto; by eapply list_elem_of_lookup_2).
    destruct f as [g|]; [rewrite lookup_insert_ne by done|];
      by apply fill_row_bit.
  - destruct f as [g|]; simpl.
    + rewrite lookup_insert_eq. by rewrite row_values.
    + rewrite fill_row_other by done. done.
Qed.

Lemma generate_table_witness :
  length ["S1"; "S0"] < 32 ∧ NoDup ["S1"; "S0"] ∧ "output" ∉ ["S1"; "S0"]
  ∧ "__proto__" ∉ ["S1"; "S0"]
  ∧ ∃ table,
      TruthTableGenerator.generate ["S1"; "S0"] None = Some table
      ∧ length table = 4.
Proof.
  assert (H1 : length ["S1"; "S0"] < 32) by (simpl; lia).
  assert (H2 : NoDup ["S1"; "S0"]) by (apply (bool_decide_unpack _); by vm_compute).
  assert (H3 : "output" ∉ ["S1"; "S0"]) by (apply (bool_decide_unpack _); by vm_compute).
  assert (H4 : "__proto__" ∉ ["S1"; "S0"])
    by (apply (bool_decide_unpack _); by vm_compute).
  split_and!; [done..|].
  destruct (proj1 generate_table ["S1"; "S0"] None H1 H2 H3 H4)
    as (table & Heq & Hlen & _).
  exists table. done.
Defined.

(** ** exportCircuit and importCircuit *)

Lemma inverter_probe_well_formed : well_formed inverter_probe_state.
Proof.
  split.
  - unfold unique_ids. apply (bool_decide_unpack _). by vm_compute.
  - intros conn Hconn. vm_compute in Hconn.
    apply elem_of_cons in Hconn as [->|Hconn];
      [|apply list_elem_of_singleton in Hconn as ->];
      split; apply (bool_decide_unpack _); by vm_compute.
Qed.

Lemma inverter_probe_acyclic : ¬ has_cycle inverter_probe_state.
Proof.
  intros [r Hr].
  assert (Hstep : ∀ a b, feeds inverter_probe_state a b → a < b).
  { intros a b (conn & Hconn & <- & <-). vm_compute in Hconn.
    apply elem_of_cons in Hconn as [->|Hconn];
      [|apply list_elem_of_singleton in Hconn as ->]; simpl; lia. }
  assert (Htc : ∀ a b, tc (feeds inverter_probe_state) a b → a < b).
  { intros a b H. induction H as [a b H|a b c H _ IH].
    - by apply Hstep.
    - apply Hstep in H. lia. }
  apply Htc in Hr. lia.
Qed.

(** An INPUT whose value is false is exported with its [inputs] array in
    the [value] field, and importCircuit stores that array as the value of
    the new INPUT. *)
Lemma export_false_input (c : Component) :
  type c = INPUT → value c = VBool false →
  data_value (export_component c) = inputs c.
Proof. intros _ Hv. unfold export_component. simpl. by rewrite Hv. Qed.

(** C4 (defect of the code): INPUT A (false) -> NOT n1 -> OUTPUT o, after
    a simulate(), is a well-formed acyclic circuit whose OUTPUT shows true
    and keeps showing true under further simulate() calls.  Exporting it
    and importing the result gives a graph whose INPUT A holds an array
    (exportCircuit writes [c.value || c.inputs], and false || inputs is
    the inputs array), importCircuit runs no evaluation pass (the OUTPUT
    is false after it), and the next simulate() leaves the OUTPUT at
    false. *)
Theorem export_import_changes_false_input :
  well_formed inverter_probe_state
  ∧ ¬ has_cycle inverter_probe_state
  ∧ value_of inverter_probe_state "A" = Some (VBool false)
  ∧ value_of inverter_probe_state "o" = Some (VBool true)
  ∧ ∃ again imported resimulated,
      simulate inverter_probe_state = Returned tt again
      ∧ value_of again "o" = Some (VBool true)
      ∧ export_import inverter_probe_state = Returned tt imported
      ∧ value_of imported "A" = Some (VArr 0)
      ∧ value_of imported "o" = Some (VBool false)
      ∧ simulate imported = Returned tt resimulated
      ∧ value_of resimulated "o" = Some (VBool false).
Proof.
  split; [apply inverter_probe_well_formed|].
  split; [apply inverter_probe_acyclic|].
  split; [by vm_compute|]. split; [by vm_compute|].
  exists (run simulate inverter_probe_state),
         (run export_import inverter_probe_state),
         (run (export_import ;; simulate) inverter_probe_state).
  split_and!; by vm_compute.
Qed.

(** * Further properties of the code *)

(** ** Rules for triples *)

Lemma triple_ret {A} (P : A → Simulator → Prop) (E : Simulator → Prop) (a : A) :
  triple (P a) (ret a) P E.
Proof. intros s Hs. exact Hs. Qed.

Lemma triple_bind {A B} (P : Simulator → Prop) (m : M A) (Q : A → Simulator → Prop)
    (k : A → M B) (R : B → Simulator → Prop) (E : Simulator → Prop) :
  triple P m Q E → (∀ a, triple (Q a) (k a) R E) → triple P (bind m k) R E.
Proof.
  intros Hm Hk s Hs. unfold bind. specialize (Hm s Hs).
  destruct (m s) as [a s'| |]; [by apply Hk|done..].
Qed.

Lemma triple_conseq {A} (P P' : Simulator → Prop) (m : M A)
    (Q Q' : A → Simulator → Prop) (E E' : Simulator → Prop) :
  triple P' m Q' E' → (∀ s, P s → P' s) → (∀ a s, Q' a s → Q a s) →
  (∀ s, E' s → E s) → triple P m Q E.
Proof.
  intros Hm HP HQ HE s Hs. specialize (Hm s (HP s Hs)).
  destruct (m s); auto.
Qed.

Lemma triple_get (P : Simulator → Prop) (E : Simulator → Prop) :
  triple P get (fun a s => a = s ∧ P s) E.
Proof. intros s Hs. done. Qed.

Lemma triple_modify (P : Simulator → Prop) (f : Simulator → Simulator)
    (Q : Simulator → Prop) (E : Simulator → Prop) :
  (∀ s, P s → Q (f s)) → triple P (modify f) (fun _ => Q) E.
Proof. intros Hf s Hs. by apply Hf. Qed.

Lemma triple_forEach {A} (I : Simulator → Prop) (E : Simulator → Prop)
    (l : list A) (f : A → M unit) :
  (∀ a, a ∈ l → triple I (f a) (fun _ => I) E) →
  triple I (forEach l f) (fun _ => I) E.
Proof.
  induction l as [|a l IH]; intros Hf; simpl.
  - apply (triple_ret (fun _ => I)).
  - eapply triple_bind; [apply Hf; left|].
    intros []. apply IH. intros a' Ha'. apply Hf. by right.
Qed.

(** ** connectComponents *)

Lemma find_component_Some (s : Simulator) (i : string) (r : nat) :
  find_component s i = Some r →
  r ∈ components s ∧ cid s r = i.
Proof.
  unfold find_component. intros H.
  destruct (list_find _ _) as [[j r']|] eqn:Hf; simplify_eq/=.
  apply list_find_Some in Hf as (Hl & Hid & _).
  split; [by eapply list_elem_of_lookup_2|done].
Qed.

Lemma find_component_None (s : Simulator) (i : string) :
  find_component s i = None ↔ ∀ r, r ∈ components s → cid s r ≠ i.
Proof.
  unfold find_component. destruct (list_find _ _) as [[j r']|] eqn:Hf; simpl.
  - split; [done|]. intros H. apply list_find_Some in Hf as (Hl & Hid & _).
    exfalso. eapply H; [by eapply list_elem_of_lookup_2|done].
  - split; [|done]. intros _. rewrite list_find_None, Forall_forall in Hf. done.
Qed.

Lemma find_component_is_Some (s : Simulator) (i : string) (r : nat) :
  r ∈ components s → cid s r = i → is_Some (find_component s i).
Proof.
  intros Hr Hid. destruct (find_component s i) eqn:Hf; [done|].
  rewrite find_component_None in Hf. by destruct (Hf r Hr).
Qed.

(** X1: connectComponents looks both ids up before it creates anything.  If
    no component has the source id, or none has the target id, it returns
    null and the simulator is unchanged.  Otherwise it appends one
    connection, with value false and the pin indices as given (they are
    not checked against the number of pins), whose endpoints are
    components of the graph carrying the two ids; components and earlier
    connections are untouched. *)
Theorem connectComponents_spec (s : Simulator) (fromId toId : string) (k j : nat) :
  ((∀ r, r ∈ components s → cid s r ≠ fromId)
   ∨ (∀ r, r ∈ components s → cid s r ≠ toId) →
   connectComponents fromId k toId j s = Returned None s)
  ∧ ((∃ r, r ∈ components s ∧ cid s r = fromId)
     → (∃ r, r ∈ components s ∧ cid s r = toId)
     → ∃ conn,
         connectComponents fromId k toId j s
         = Returned (Some conn) (set_connections s (connections s ++ [conn]))
         ∧ from conn ∈ components s ∧ cid s (from conn) = fromId
         ∧ to conn ∈ components s ∧ cid s (to conn) = toId
         ∧ fromOutput conn = k ∧ toInput conn = j
         ∧ conn_value conn = VBool false).
Proof.
  split.
  - intros H. unfold connectComponents, bind, get.
    destruct H as [H|H]; apply find_component_None in H; rewrite H;
      [done|by destruct (find_component s fromId)].
  - intros (f & Hf & Hfid) (t & Ht & Htid).
    destruct (find_component_is_Some s fromId f Hf Hfid) as [f' Hf'].
    destruct (find_component_is_Some s toId t Ht Htid) as [t' Ht'].
    unfold connectComponents, bind, get. rewrite Hf', Ht'.
    apply find_component_Some in Hf' as [? ?].
    apply find_component_Some in Ht' as [? ?].
    eexists. split; [reflexivity|]. simpl. done.
Qed.

Lemma connectComponents_spec_witness :
  ∃ conn,
    connectComponents "A" 0 "n1" 7 single_inverter_state
    = Returned (Some conn)
        (set_connections single_inverter_state
           (connections single_inverter_state ++ [conn]))
    ∧ from conn = 0 ∧ to conn = 1 ∧ toInput conn = 7.
Proof.
  destruct (proj2 (connectComponents_spec single_inverter_state "A" "n1" 0 7))
    as (conn & Heq & Hf & Hfid & Ht & Htid & _ & Hj & _).
  - exists 0. split; [|done]. apply (bool_decide_unpack _). by vm_compute.
  - exists 1. split; [|done]. apply (bool_decide_unpack _). by vm_compute.
  - exists conn. split; [done|].
    assert (Hs : ∀ r i, r ∈ components single_inverter_state →
                        cid single_inverter_state r = i →
                        (i = "A" → r = 0) ∧ (i = "n1" → r = 1)).
    { intros r i Hr <-. vm_compute in Hr.
      apply elem_of_cons in Hr as [->|Hr];
        [|apply list_elem_of_singleton in Hr as ->]; by vm_compute. }
    split; [by apply (Hs _ _ Hf Hfid)|].
    split; [by apply (Hs _ _ Ht Htid)|done].
Defined.

(** ** The adders as arithmetic *)

(** X2: With boolean pins, HalfAdder.compute() and FullAdder.compute() add:
    the two outputs read as a two-bit number (Carry/Cout the high bit,
    Sum the low bit) are the number of inputs that are true; and calling
    compute() again changes nothing. *)
Theorem adders_add (a b cin : bool) (o0 o1 : jsval) :
  (∃ sum carry,
      HalfAdder.outputs (HalfAdder.compute (HalfAdder.mk [VBool a; VBool b] [o0; o1]))
      = [VBool sum; VBool carry]
      ∧ (2 * Z.b2z carry + Z.b2z sum = Z.b2z a + Z.b2z b)%Z)
  ∧ (∃ sum cout,
        FullAdder.outputs
          (FullAdder.compute (FullAdder.mk [VBool a; VBool b; VBool cin] [o0; o1]))
        = [VBool sum; VBool cout]
        ∧ (2 * Z.b2z cout + Z.b2z sum = Z.b2z a + Z.b2z b + Z.b2z cin)%Z)
  ∧ HalfAdder.compute (HalfAdder.compute (HalfAdder.mk [VBool a; VBool b] [o0; o1]))
    = HalfAdder.compute (HalfAdder.mk [VBool a; VBool b] [o0; o1])
  ∧ FullAdder.compute
      (FullAdder.compute (FullAdder.mk [VBool a; VBool b; VBool cin] [o0; o1]))
    = FullAdder.compute (FullAdder.mk [VBool a; VBool b; VBool cin] [o0; o1]).
Proof.
  split_and!.
  - exists (xorb a b), (a && b). by destruct a, b.
  - exists (xorb (xorb a b) cin), ((a && b) || (cin && xorb a b)).
    by destruct a, b, cin.
  - by destruct a, b.
  - by destruct a, b, cin.
Qed.

(** ** What simulate() leaves alone *)

Lemma deref_update (s : Simulator) (r0 r : nat) (c : Component) :
  deref (set_heap s (<[r0 := c]> (heap s))) r
  = if decide (r = r0 ∧ r0 < length (heap s)) then c else deref s r.
Proof.
  unfold deref. simpl. case_decide as H.
  - destruct H as [-> H]. by apply list_lookup_total_insert_eq.
  - destruct (decide (r0 < length (heap s))).
    + apply list_lookup_total_insert_ne. naive_solver.
    + by rewrite list_insert_ge by lia.
Qed.

Lemma same_component_refl (c : Component) : same_component c c.
Proof. unfold same_component. naive_solver. Qed.

Lemma same_graph_refl (s : Simulator) : same_graph s s.
Proof. unfold same_graph. split_and!; auto using same_component_refl. Qed.

Lemma same_graph_set_output (s0 s : Simulator) (r : nat) (v : jsval) :
  same_graph s0 s → type (deref s r) ≠ INPUT → type (deref s r) ≠ OUTPUT →
  same_graph s0 (set_heap s (<[r := set_output (deref s r) v]> (heap s))).
Proof.
  intros (Hc & Hsel & Hlen & Harr & Hcomp & Hw) Hi Ho.
  split_and!; simpl; try done.
  - by rewrite length_insert.
  - intros r'. rewrite deref_update. case_decide as H; [|apply Hcomp].
    destruct H as [-> _]. specialize (Hcomp r).
    unfold same_component in *. destruct Hcomp as (? & Hty & ?). simpl.
    rewrite Hty in Hi, Ho. naive_solver.
Qed.

Lemma same_graph_set_value (s0 s : Simulator) (r : nat) (v : jsval) :
  same_graph s0 s → type (deref s r) = OUTPUT →
  same_graph s0 (set_heap s (<[r := set_value (deref s r) v]> (heap s))).
Proof.
  intros (Hc & Hsel & Hlen & Harr & Hcomp & Hw) Ho.
  split_and!; simpl; try done.
  - by rewrite length_insert.
  - intros r'. rewrite deref_update. case_decide as H; [|apply Hcomp].
    destruct H as [-> _]. specialize (Hcomp r).
    unfold same_component in *. destruct Hcomp as (? & Hty & ?). simpl.
    rewrite Hty in Ho. naive_solver.
Qed.

Lemma same_graph_set_arrays (s0 s : Simulator) (a : nat) (l : list jsval) :
  same_graph s0 s → same_graph s0 (set_arrays s (<[a := l]> (arrays s))).
Proof.
  intros (Hc & Hsel & Hlen & Harr & Hcomp & Hw).
  split_and!; simpl; try done. by rewrite length_insert.
Qed.

Lemma wiring_insert (l : list Connection) (i : nat) (v : jsval) :
  wiring <$> <[i := set_conn_value (l !!! i) v]> l = wiring <$> l.
Proof.
  destruct (decide (i < length l)) as [Hi|Hi].
  - rewrite list_fmap_insert. apply list_insert_id.
    rewrite list_lookup_fmap.
    destruct (lookup_lt_is_Some_2 l i Hi) as [c Hc].
    by rewrite (list_lookup_total_correct _ _ _ Hc), Hc.
  - by rewrite list_insert_ge by lia.
Qed.

Lemma same_graph_set_conn_value (s0 s : Simulator) (i : nat) (v : jsval) :
  same_graph s0 s →
  same_graph s0 (set_connections s
                   (<[i := set_conn_value (connections s !!! i) v]> (connections s))).
Proof.
  intros (Hc & Hsel & Hlen & Harr & Hcomp & Hw).
  split_and!; simpl; try done. by rewrite wiring_insert.
Qed.

(** The three ways a call of compute() can end. *)
Lemma compute_cases (r : nat) (s : Simulator) :
  match compute r s with
  | Returned v s' =>
      ((type (deref s r) = INPUT ∨ type (deref s r) = OUTPUT)
       ∧ s' = s ∧ v = value (deref s r))
      ∨ (type (deref s r) ≠ INPUT ∧ type (deref s r) ≠ OUTPUT
         ∧ inputs (deref s r) ≠ VUndef
         ∧ s' = set_heap s (<[r := set_output (deref s r) v]> (heap s)))
  | Thrown e s' =>
      e = TypeError ∧ s' = s ∧ inputs (deref s r) = VUndef
      ∧ type (deref s r) ≠ INPUT ∧ type (deref s r) ≠ OUTPUT
  | OutOfFuel => False
  end.
Proof.
  unfold compute, bind at 1, get at 1.
  destruct (type (deref s r)) eqn:Hty;
    unfold binary_gate, bind, get, get_index, update_component, modify, ret;
    try (destruct (inputs (deref s r)) eqn:Hin; simpl; naive_solver).
  all: left; naive_solver.
Qed.

Lemma compute_same_graph (s0 s : Simulator) (r : nat) :
  same_graph s0 s →
  match compute r s with
  | Returned _ s' | Thrown _ s' => same_graph s0 s'
  | OutOfFuel => False
  end.
Proof.
  intros Hs. pose proof (compute_cases r s) as H.
  destruct (compute r s) as [v s'|e s'|]; [|naive_solver|done].
  destruct H as [(_ & -> & _)|(Hi & Ho & _ & ->)]; [done|].
  by apply same_graph_set_output.
Qed.

Lemma evaluate_pass_same_graph (s0 : Simulator) (sorted : list nat) :
  triple (same_graph s0) (evaluate_pass sorted) (fun _ => same_graph s0) (same_graph s0).
Proof.
  apply triple_forEach. intros r _ s Hs.
  unfold bind at 1, get. case_decide; [|done].
  unfold bind. pose proof (compute_same_graph s0 s r Hs) as Hcompute.
  by destruct (compute r s).
Qed.

Lemma propagate_connection_same_graph (s0 : Simulator) (i : nat) :
  triple (same_graph s0) (propagate_connection i) (fun _ => same_graph s0) (same_graph s0).
Proof.
  intros s Hs. unfold propagate_connection, bind at 1, get at 1.
  unfold bind at 1. pose proof (compute_same_graph s0 s (from (connections s !!! i)) Hs) as H.
  destruct (compute (from (connections s !!! i)) s) as [v s1|e s1|]; [|done..].
  unfold bind at 1, update_connection, modify.
  unfold bind at 1, get.
  apply (same_graph_set_conn_value _ _ i v) in H.
  set (s2 := set_connections s1 _) in *.
  case_decide as Hty.
  - unfold set_index. destruct (inputs (deref s2 (to (connections s !!! i)))); try done.
    by apply same_graph_set_arrays.
  - unfold setValue, update_component, modify. apply same_graph_set_value; [done|].
    by destruct (decide (type (deref s2 (to (connections s !!! i))) = OUTPUT)).
Qed.

Lemma propagate_pass_same_graph (s0 : Simulator) :
  triple (same_graph s0) propagate_pass (fun _ => same_graph s0) (same_graph s0).
Proof.
  eapply triple_bind; [apply triple_get|]. intros a.
  eapply triple_conseq;
    [apply (triple_forEach (same_graph s0) (same_graph s0))| | |]; simpl.
  - intros i _. apply propagate_connection_same_graph.
  - naive_solver.
  - done.
  - done.
Qed.

(** X3: simulate() only writes gate outputs, OUTPUT values, pin values and
    connection values.  However the call ends, it has not added, removed
    or reordered a component or a connection, has not changed an id, a
    type, a position, a label, the selection, the endpoints or pin indices
    of a connection, or which array holds a component's pins, and it has
    not changed the value of any INPUT. *)
Theorem simulate_keeps_graph (s : Simulator) :
  match simulate s with
  | Returned _ s' | Thrown _ s' => same_graph s s'
  | OutOfFuel => False
  end.
Proof.
  assert (H : triple (same_graph s) simulate (fun _ => same_graph s) (same_graph s)).
  { eapply triple_bind.
    - intros s1 Hs1. destruct (topologicalSort_returns s1) as (sorted & -> & _).
      exact Hs1.
    - intros sorted. eapply triple_bind; [apply evaluate_pass_same_graph|].
      intros []. apply propagate_pass_same_graph. }
  specialize (H s (same_graph_refl s)). by destruct (simulate s).
Qed.

(** ** simulate() on a graph built through the simulator's methods *)

Lemma same_graph_connection (s0 s : Simulator) (conn : Connection) :
  same_graph s0 s → conn ∈ connections s →
  ∃ conn0, conn0 ∈ connections s0 ∧ wiring conn0 = wiring conn.
Proof.
  intros (_ & _ & _ & _ & _ & Hw) Hconn.
  assert (H : wiring conn ∈ wiring <$> connections s0).
  { rewrite <- Hw. apply list_elem_of_fmap. eauto. }
  apply list_elem_of_fmap in H as (conn0 & Heq & Hin). eauto.
Qed.

Lemma same_graph_ok (s0 s : Simulator) :
  graph_ok s0 → same_graph s0 s → graph_ok s.
Proof.
  intros (Hrefs & Hown & Hpins) Hs.
  pose proof Hs as (Hc & _ & Hlen & Harr & Hcomp & _).
  split_and!.
  - intros r Hr. rewrite Hc in Hr. rewrite Hlen. by apply Hrefs.
  - intros conn Hconn.
    destruct (same_graph_connection s0 s conn Hs Hconn) as (conn0 & Hin & Heq).
    rewrite Hc. unfold wiring in Heq. destruct (Hown conn0 Hin).
    split; congruence.
  - intros r Hr Hty. rewrite Hc in Hr.
    destruct (Hcomp r) as (_ & Hty' & _ & _ & Hin & _).
    rewrite Hin, Harr. apply Hpins; [done|]. by rewrite <- Hty'.
Qed.

Lemma compute_returns (s : Simulator) (r : nat) :
  graph_ok s → r ∈ components s → ∃ v s', compute r s = Returned v s'.
Proof.
  intros (_ & _ & Hpins) Hr. pose proof (compute_cases r s) as H.
  destruct (compute r s) as [v s'|e s'|]; [eauto| |done].
  destruct H as (_ & _ & Hin & _ & Ho).
  destruct (Hpins r Hr Ho) as (a & Ha & _). congruence.
Qed.

Section simulate_on_store.
Variable s0 : Simulator.
Hypothesis Hok : graph_ok s0.

Lemma evaluate_pass_returns (sorted : list nat) :
  (∀ r, r ∈ sorted → r ∈ components s0) →
  triple (same_graph s0) (evaluate_pass sorted) (fun _ => same_graph s0) (fun _ => False).
Proof.
  intros Hsorted. apply triple_forEach. intros r Hr s Hs.
  unfold bind at 1, get. case_decide; [|done].
  unfold bind. pose proof (compute_same_graph s0 s r Hs) as Hsame.
  destruct (compute_returns s r) as (v & s' & Heq).
  - by apply (same_graph_ok s0).
  - destruct Hs as (-> & _). by apply Hsorted.
  - by rewrite Heq in *.
Qed.

Lemma propagate_connection_returns (i : nat) :
  i < length (connections s0) →
  triple (same_graph s0) (propagate_connection i) (fun _ => same_graph s0) (fun _ => False).
Proof.
  intros Hi s Hs.
  pose proof (same_graph_ok s0 s Hok Hs) as Hoks.
  assert (Hconn : connections s !!! i ∈ connections s).
  { apply list_elem_of_lookup_total_2.
    destruct Hs as (_ & _ & _ & _ & _ & Hw).
    apply (f_equal length) in Hw. rewrite !length_fmap in Hw. lia. }
  destruct Hoks as (_ & Hown & _). destruct (Hown _ Hconn) as [Hfrom Hto].
  unfold propagate_connection, bind at 1, get at 1.
  unfold bind at 1.
  pose proof (compute_same_graph s0 s (from (connections s !!! i)) Hs) as H.
  destruct (compute_returns s (from (connections s !!! i))) as (v & s1 & Heq);
    [by apply (same_graph_ok s0)|done|].
  rewrite Heq in *.
  unfold bind at 1, update_connection, modify.
  unfold bind at 1, get.
  apply (same_graph_set_conn_value _ _ i v) in H.
  set (s2 := set_connections s1 _) in *.
  case_decide as Hty.
  - pose proof (same_graph_ok s0 s2 Hok H) as (_ & _ & Hpins).
    destruct (Hpins (to (connections s !!! i))) as (a & Ha & _); [|done|].
    + destruct H as (-> & _). by destruct Hs as (<- & _).
    + unfold set_index. rewrite Ha. by apply same_graph_set_arrays.
  - unfold setValue, update_component, modify. apply same_graph_set_value; [done|].
    by destruct (decide (type (deref s2 (to (connections s !!! i))) = OUTPUT)).
Qed.

Lemma propagate_pass_returns :
  triple (same_graph s0) propagate_pass (fun _ => same_graph s0) (fun _ => False).
Proof.
  intros s Hs. unfold propagate_pass, bind at 1, get.
  assert (Hlen : length (connections s) = length (connections s0)).
  { destruct Hs as (_ & _ & _ & _ & _ & Hw).
    apply (f_equal length) in Hw. by rewrite !length_fmap in Hw. }
  rewrite Hlen.
  apply (triple_forEach (same_graph s0) (fun _ => False)); [|done].
  intros i Hi. apply propagate_connection_returns. apply elem_of_seq in Hi. lia.
Qed.

Lemma simulate_returns_same_graph :
  ∃ s', simulate s0 = Returned tt s' ∧ same_graph s0 s'.
Proof.
  assert (H : triple (same_graph s0) simulate (fun _ => same_graph s0) (fun _ => False)).
  { eapply triple_bind.
    - intros s1 Hs1.
      destruct (topologicalSort_returns s1) as (sorted & -> & _ & Hin & _).
      instantiate (1 := fun sorted s => same_graph s0 s
                                        ∧ ∀ r, r ∈ sorted → r ∈ components s0).
      split; [done|]. intros r Hr.
      pose proof (same_graph_ok s0 s1 Hok Hs1) as (_ & Hown & _).
      destruct Hs1 as (<- & _).
      destruct (Hin r Hr) as [?|Hf]; [done|].
      unfold froms in Hf. apply list_elem_of_fmap in Hf as (conn & -> & Hconn).
      by apply Hown.
    - intros sorted. eapply triple_bind.
      + intros s [Hs Hsorted]. by apply (evaluate_pass_returns sorted Hsorted).
      + intros []. apply propagate_pass_returns. }
  specialize (H s0 (same_graph_refl s0)).
  destruct (simulate s0) as [[] s'| |]; [eauto|done..].
Qed.

End simulate_on_store.

(** X4: On a graph that satisfies the store invariant, simulate() returns
    normally (no TypeError from a pin access), and the invariant still
    holds afterwards. *)
Theorem simulate_returns (s : Simulator) :
  graph_ok s → ∃ s', simulate s = Returned tt s' ∧ graph_ok s'.
Proof.
  intros Hok. destruct (simulate_returns_same_graph s Hok) as (s' & Heq & Hs).
  exists s'. split; [done|]. by apply (same_graph_ok s).
Qed.

Lemma inverter_loop_graph_ok : graph_ok inverter_loop_state.
Proof.
  split_and!.
  - intros r Hr. vm_compute in Hr.
    apply elem_of_cons in Hr as [->|Hr];
      [|apply list_elem_of_singleton in Hr as ->]; vm_compute; lia.
  - apply inverter_loop_well_formed.
  - intros r Hr _. vm_compute in Hr.
    apply elem_of_cons in Hr as [->|Hr];
      [|apply list_elem_of_singleton in Hr as ->];
      eexists; (split; [by vm_compute|vm_compute; lia]).
Qed.

Lemma simulate_returns_witness :
  graph_ok inverter_loop_state
  ∧ ∃ s', simulate inverter_loop_state = Returned tt s' ∧ graph_ok s'.
Proof.
  split; [apply inverter_loop_graph_ok|].
  apply (simulate_returns inverter_loop_state), inverter_loop_graph_ok.
Defined.

(** ** The store invariant under the simulator's methods *)

Lemma triple_run {A} (P Q : Simulator → Prop) (m : M A) (s : Simulator) :
  triple P m (fun _ => Q) Q → P s → Q (run m s).
Proof.
  intros Hm Hs. specialize (Hm s Hs). unfold run. by destruct (m s).
Qed.

Lemma triple_pre {A} (P P' : Simulator → Prop) (m : M A)
    (Q : A → Simulator → Prop) (E : Simulator → Prop) :
  (∀ s, P s → P' s) → triple P' m Q E → triple P m Q E.
Proof. intros HP Hm. eapply triple_conseq; [exact Hm|done..]. Qed.

Lemma triple_bind_get {B} (P : Simulator → Prop) (k : Simulator → M B)
    (R : B → Simulator → Prop) (E : Simulator → Prop) :
  (∀ a, triple (fun s => a = s ∧ P s) (k a) R E) → triple P (bind get k) R E.
Proof. intros Hk. eapply triple_bind; [apply triple_get|done]. Qed.

Lemma triple_seq {A B} (P Q : Simulator → Prop) (m : M A) (k : M B)
    (R : B → Simulator → Prop) (E : Simulator → Prop) :
  triple P m (fun _ => Q) E → triple Q k R E → triple P (m ;; k) R E.
Proof. intros Hm Hk. eapply triple_bind; [exact Hm|done]. Qed.

Lemma triple_skip (P : Simulator → Prop) (E : Simulator → Prop) :
  triple P (ret tt) (fun _ => P) E.
Proof. apply (triple_ret (fun _ => P)). Qed.

Lemma graph_ok_empty : graph_ok empty_simulator.
Proof.
  split_and!; intros r Hr; simpl in Hr; by apply elem_of_nil in Hr.
Qed.

Lemma graph_ok_update (s : Simulator) (r : nat) (f : Component → Component) :
  (∀ c, type (f c) = type c ∧ inputs (f c) = inputs c) →
  graph_ok s → graph_ok (set_heap s (<[r := f (deref s r)]> (heap s))).
Proof.
  intros Hf (Hrefs & Hown & Hpins). split_and!; simpl.
  - intros r' Hr'. rewrite length_insert. by apply Hrefs.
  - done.
  - intros r' Hr'. rewrite deref_update. case_decide as H; [|by apply Hpins].
    destruct H as [-> _]. destruct (Hf (deref s r)) as [-> ->]. by apply Hpins.
Qed.

Lemma graph_ok_set_selectedComponent (s : Simulator) (o : option nat) :
  graph_ok s → graph_ok (set_selectedComponent s o).
Proof. intros (Hrefs & Hown & Hpins). split_and!; done. Qed.

Lemma update_component_ok (r : nat) (f : Component → Component) :
  (∀ c, type (f c) = type c ∧ inputs (f c) = inputs c) →
  triple graph_ok (update_component r f) (fun _ => graph_ok) graph_ok.
Proof. intros Hf. apply triple_modify. intros s. by apply graph_ok_update. Qed.

Lemma addComponent_ok (t i : string) (x0 y0 : Z) (l : option string) :
  triple graph_ok (addComponent t i x0 y0 l) (fun _ => graph_ok) graph_ok.
Proof.
  intros s Hok. destruct (class_of (toUpperCase t)) as [ty|] eqn:Hclass.
  - destruct (addComponent_known t i x0 y0 l ty s Hclass)
      as (c & pins & -> & _ & _ & _ & _ & Hin).
    destruct Hok as (Hrefs & Hown & Hpins). split_and!; simpl.
    + intros r Hr. rewrite length_app. simpl.
      apply elem_of_app in Hr as [Hr|Hr]; [specialize (Hrefs r Hr); lia|].
      apply list_elem_of_singleton in Hr as ->. lia.
    + intros conn Hconn. simpl in *. rewrite !elem_of_app.
      destruct (Hown conn Hconn). auto.
    + intros r Hr. unfold deref. simpl.
      apply elem_of_app in Hr as [Hr|Hr].
      * rewrite lookup_total_app_l by (by apply Hrefs). intros Hty.
        destruct (Hpins r Hr Hty) as (a & Ha & Hlt).
        exists a. split; [done|]. rewrite length_app. lia.
      * apply list_elem_of_singleton in Hr as ->.
        rewrite list_lookup_total_middle by done. intros _.
        exists (length (arrays s)). split; [done|]. rewrite length_app. simpl. lia.
  - by rewrite addComponent_unknown.
Qed.

Lemma elem_of_delete_other {A} (l : list A) (index : nat) (a b : A) :
  l !! index = Some b → a ∈ l → a ≠ b → a ∈ delete index l.
Proof.
  intros Hb Ha Hne. apply list_elem_of_lookup in Ha as [j Hj].
  assert (j ≠ index) by congruence.
  apply list_elem_of_lookup.
  destruct (decide (j < index)).
  - exists j. by rewrite list_lookup_delete_lt.
  - exists (j - 1). rewrite list_lookup_delete_ge by lia.
    by replace (S (j - 1)) with j by lia.
Qed.

Lemma elem_of_delete {A} (l : list A) (index : nat) (a : A) :
  a ∈ delete index l → a ∈ l.
Proof.
  intros Ha. apply list_elem_of_lookup in Ha as [j Hj].
  destruct (decide (j < index)).
  - rewrite list_lookup_delete_lt in Hj by done. by eapply list_elem_of_lookup_2.
  - rewrite list_lookup_delete_ge in Hj by lia. by eapply list_elem_of_lookup_2.
Qed.

(** The state removeComponent leaves when the id is found at [index]. *)
Lemma removeComponent_found (s : Simulator) (i : string) (index : nat) :
  findIndex s i = Some index →
  ∃ sel,
    removeComponent i s
    = Returned tt
        (mkSimulator (heap s) (arrays s) (delete index (components s))
           (filter (fun conn => cid s (from conn) ≠ i ∧ cid s (to conn) ≠ i)
                   (connections s))
           sel)
    ∧ sel = match selectedComponent s with
            | Some r => if decide (cid s r = i) then None else Some r
            | None => None
            end.
Proof.
  intros Hfind. unfold removeComponent, bind, get, modify. rewrite Hfind.
  destruct s as [h a cs conns sel].
  unfold set_components, set_connections, set_selectedComponent, cid, deref.
  simpl. destruct sel as [sel0|]; [destruct (decide (id (h !!! sel0) = i))|];
    eexists; split; reflexivity.
Qed.

Lemma removeComponent_ok (i : string) :
  triple graph_ok (removeComponent i) (fun _ => graph_ok) graph_ok.
Proof.
  intros s Hok. destruct (findIndex s i) as [index|] eqn:Hfind.
  - destruct (removeComponent_found s i index Hfind) as (sel & -> & _).
    destruct (findIndex_Some s i index Hfind) as (r & Hr & Hid & _).
    destruct Hok as (Hrefs & Hown & Hpins). split_and!; simpl.
    + intros r' Hr'. by apply Hrefs, (elem_of_delete _ index).
    + intros conn Hconn. simpl in Hconn.
      apply list_elem_of_filter in Hconn as [[Hf Ht] Hconn].
      destruct (Hown conn Hconn).
      split; apply (elem_of_delete_other _ _ _ r); try done; congruence.
    + intros r' Hr'. apply Hpins. by apply (elem_of_delete _ index).
  - unfold removeComponent, bind, get. by rewrite Hfind.
Qed.

Lemma connectComponents_ok (fromId toId : string) (k j : nat) :
  triple graph_ok (connectComponents fromId k toId j) (fun _ => graph_ok) graph_ok.
Proof.
  intros s Hok. unfold connectComponents, bind, get.
  destruct (find_component s fromId) as [f|] eqn:Hf; [|done].
  destruct (find_component s toId) as [t|] eqn:Ht; [|done].
  apply find_component_Some in Hf as [Hf _].
  apply find_component_Some in Ht as [Ht _].
  destruct Hok as (Hrefs & Hown & Hpins). split_and!; simpl; try done.
  intros conn Hconn. simpl in Hconn.
  apply elem_of_app in Hconn as [Hconn|Hconn]; [by apply Hown|].
  by apply list_elem_of_singleton in Hconn as ->.
Qed.

Lemma simulate_ok : triple graph_ok simulate (fun _ => graph_ok) graph_ok.
Proof.
  intros s Hok. destruct (simulate_returns_same_graph s Hok) as (s' & -> & Hs).
  by apply (same_graph_ok s).
Qed.

Lemma selectComponent_ok (component : option nat) :
  triple graph_ok (selectComponent component) (fun _ => graph_ok) graph_ok.
Proof.
  unfold selectComponent. apply triple_bind_get. intros a.
  apply (triple_pre _ graph_ok); [naive_solver|].
  apply (triple_seq _ graph_ok).
  { destruct (selectedComponent a);
      [by apply update_component_ok|apply triple_skip]. }
  apply (triple_seq _ graph_ok).
  { apply triple_modify. intros s. apply graph_ok_set_selectedComponent. }
  destruct component; [by apply update_component_ok|apply triple_skip].
Qed.

Lemma toggle_ok (r : nat) :
  triple graph_ok (toggle r) (fun _ => graph_ok) graph_ok.
Proof.
  unfold toggle. apply triple_bind_get. intros a.
  apply (triple_pre _ graph_ok); [naive_solver|].
  apply (triple_seq _ graph_ok); [by apply update_component_ok|].
  apply (triple_ret (fun _ => graph_ok)).
Qed.

Lemma handleClick_ok (clickedComponent : option nat) :
  triple graph_ok (handleClick clickedComponent) (fun _ => graph_ok) graph_ok.
Proof.
  destruct clickedComponent as [r|]; simpl; [|apply selectComponent_ok].
  apply triple_bind_get. intros a.
  apply (triple_pre _ graph_ok); [naive_solver|].
  case_decide; [|apply selectComponent_ok].
  apply (triple_seq _ graph_ok); [apply toggle_ok|apply simulate_ok].
Qed.

Lemma handleKeyDown_ok (key : string) :
  triple graph_ok (handleKeyDown key) (fun _ => graph_ok) graph_ok.
Proof.
  unfold handleKeyDown. apply triple_bind_get. intros a.
  apply (triple_pre _ graph_ok); [naive_solver|].
  apply (triple_seq _ graph_ok).
  { destruct (selectedComponent a); [case_decide|];
      [apply removeComponent_ok|apply triple_skip..]. }
  case_decide; [apply selectComponent_ok|apply triple_skip].
Qed.

Lemma exec_ok (c : api_call) :
  triple graph_ok (exec c) (fun _ => graph_ok) graph_ok.
Proof.
  destruct c as [t i x0 y0 l|i|f k t j|[n|]|key| |]; simpl.
  - apply (triple_seq _ graph_ok); [apply addComponent_ok|apply triple_skip].
  - apply removeComponent_ok.
  - apply (triple_seq _ graph_ok); [apply connectComponents_ok|apply triple_skip].
  - apply triple_bind_get. intros a.
    apply (triple_pre _ graph_ok); [naive_solver|].
    destruct (components a !! n) as [r|];
      [apply (handleClick_ok (Some r))|apply (handleClick_ok None)].
  - apply (handleClick_ok None).
  - apply handleKeyDown_ok.
  - apply simulate_ok.
  - apply triple_modify. intros s _.
    split_and!; intros r Hr; simpl in Hr; by apply elem_of_nil in Hr.
Qed.

(** X5: Whatever sequence of addComponent, removeComponent,
    connectComponents, clicks, key presses, simulate and clear calls is
    made on a fresh simulator (calls that throw included), the graph
    satisfies the store invariant, and simulate() on it returns normally:
    it cannot fail with a TypeError, whatever ids, types and pin indices
    were passed. *)
Theorem simulate_after_any_calls (calls : list api_call) :
  graph_ok (after_calls calls)
  ∧ ∃ s', simulate (after_calls calls) = Returned tt s' ∧ graph_ok s'.
Proof.
  assert (H : graph_ok (after_calls calls)).
  { unfold after_calls. induction calls as [|c calls IH] using rev_ind.
    - apply graph_ok_empty.
    - rewrite foldl_app. simpl.
      apply (triple_run graph_ok); [apply exec_ok|exact IH]. }
  split; [done|].
  destruct (simulate_returns_same_graph _ H) as (s' & Heq & Hs).
  exists s'. split; [done|]. by eapply same_graph_ok.
Qed.

(** ** Looking components up by id *)

Lemma list_find_ext_in {A} (P Q : A → Prop) `{∀ x, Decision (P x)}
    `{∀ x, Decision (Q x)} (l : list A) :
  (∀ x, x ∈ l → P x ↔ Q x) → list_find P l = list_find Q l.
Proof.
  induction l as [|a l IH]; intros Hext; simpl; [done|].
  rewrite IH by (intros x Hx; apply Hext; by right).
  destruct (Hext a) as [H1 H2]; [by left|].
  destruct (decide (P a)), (decide (Q a)); naive_solver.
Qed.

Lemma list_find_delete {A} (P : A → Prop) `{∀ x, Decision (P x)}
    (l : list A) (index : nat) (b : A) :
  l !! index = Some b → ¬ P b →
  snd <$> list_find P (delete index l) = snd <$> list_find P l.
Proof.
  revert index. induction l as [|a l IH]; intros index Hb Hnb; [done|].
  destruct index as [|index]; simpl in *.
  - simplify_eq. rewrite decide_False by done.
    by destruct (list_find P l) as [[]|].
  - destruct (decide (P a)); [done|].
    specialize (IH index Hb Hnb).
    destruct (list_find P (delete index l)) as [[]|], (list_find P l) as [[]|];
      simpl in *; congruence.
Qed.

Lemma NoDup_fmap_delete_ne {A B} (f : A → B) (l : list A) (index : nat) (a b : A) :
  NoDup (f <$> l) → l !! index = Some b → a ∈ delete index l → f a ≠ f b.
Proof.
  intros Hnd Hb Ha Heq. apply list_elem_of_lookup in Ha as [j Hj].
  assert (Hfb : (f <$> l) !! index = Some (f b)) by (by rewrite list_lookup_fmap, Hb).
  destruct (decide (j < index)).
  - rewrite list_lookup_delete_lt in Hj by done.
    assert ((f <$> l) !! j = Some (f b))
      by (rewrite list_lookup_fmap, Hj; simpl; by rewrite Heq).
    pose proof (NoDup_lookup _ _ _ _ Hnd Hfb H). lia.
  - rewrite list_lookup_delete_ge in Hj by lia.
    assert ((f <$> l) !! S j = Some (f b))
      by (rewrite list_lookup_fmap, Hj; simpl; by rewrite Heq).
    pose proof (NoDup_lookup _ _ _ _ Hnd Hfb H). lia.
Qed.

(** X6: addComponent followed by a lookup.  On a graph whose component list
    refers to allocated objects, a successful addComponent(type, id, ...)
    makes the id resolvable: getComponentById(id) (and the lookups of
    connectComponents) return the new component if the id was free, and
    still return the older component if the id was already in use, so
    that a second component with the same id cannot be reached by id.
    Lookups of all other ids are unchanged. *)
Theorem addComponent_lookup (s : Simulator) (t i : string) (x0 y0 : Z)
    (l : option string) (ty : ctype) :
  (∀ r, r ∈ components s → r < length (heap s)) →
  class_of (toUpperCase t) = Some ty →
  ∃ r s',
    addComponent t i x0 y0 l s = Returned r s'
    ∧ cid s' r = i ∧ type (deref s' r) = ty
    ∧ find_component s' i = Some (default r (find_component s i))
    ∧ ∀ j, j ≠ i → find_component s' j = find_component s j.
Proof.
  intros Hrefs Hclass.
  destruct (addComponent_known t i x0 y0 l ty s Hclass)
    as (c & pins & Heq & Hid & Hty & _).
  eexists _, _. split; [exact Heq|].
  set (s' := mkSimulator _ _ _ _ _).
  assert (Hnew : deref s' (length (heap s)) = c).
  { unfold deref, s'. simpl. by apply list_lookup_total_middle. }
  assert (Hold : ∀ r, r ∈ components s → deref s' r = deref s r).
  { intros r Hr. unfold deref, s'. simpl. apply lookup_total_app_l. by apply Hrefs. }
  assert (Hfind : ∀ j, find_component s' j
                       = match find_component s j with
                         | Some r0 => Some r0
                         | None => if decide (i = j) then Some (length (heap s)) else None
                         end).
  { intros j. unfold find_component at 1 2. unfold s' at 2. simpl.
    rewrite <- (list_find_ext_in (fun r => id (deref s' r) = j)
                                 (fun r => id (deref s r) = j) (components s))
      by (intros r Hr; by rewrite (Hold r Hr)).
    destruct (list_find (fun r => id (deref s' r) = j) (components s))
      as [[k r0]|] eqn:Hf.
    - by rewrite (list_find_app_l _ _ _ _ _ Hf).
    - rewrite (list_find_app_r _ _ _ Hf). simpl. rewrite Hnew, Hid.
      by destruct (decide (i = j)). }
  unfold cid. rewrite Hnew. split_and!; [done..| |].
  - rewrite Hfind. destruct (find_component s i); [done|]. by rewrite decide_True.
  - intros j Hj. rewrite Hfind. destruct (find_component s j); [done|].
    by rewrite decide_False.
Qed.

Lemma addComponent_lookup_witness :
  (∀ r, r ∈ components single_inverter_state →
        r < length (heap single_inverter_state))
  ∧ ∃ r s',
      addComponent "xor" "n1" 0 0 None single_inverter_state = Returned r s'
      ∧ cid s' r = "n1" ∧ type (deref s' r) = XOR
      ∧ find_component s' "n1" = Some 1.
Proof.
  assert (H : ∀ r, r ∈ components single_inverter_state →
                   r < length (heap single_inverter_state)).
  { intros r Hr. vm_compute in Hr.
    apply elem_of_cons in Hr as [->|Hr];
      [|apply list_elem_of_singleton in Hr as ->]; vm_compute; lia. }
  split; [exact H|].
  destruct (addComponent_lookup single_inverter_state "xor" "n1" 0 0 None XOR H eq_refl)
    as (r & s' & Heq & Hid & Hty & Hfind & _).
  exists r, s'. split_and!; done.
Defined.

(** X7: removeComponent followed by a lookup.  On a graph with unique ids,
    after removeComponent(id) the ids are still unique, no component
    answers to the removed id, and the lookups of all other ids are
    unchanged. *)
Theorem removeComponent_lookup (s : Simulator) (i : string) :
  unique_ids s →
  unique_ids (run (removeComponent i) s)
  ∧ find_component (run (removeComponent i) s) i = None
  ∧ ∀ j, j ≠ i →
         find_component (run (removeComponent i) s) j = find_component s j.
Proof.
  intros Hnd. unfold run.
  destruct (findIndex s i) as [index|] eqn:Hfind.
  - destruct (removeComponent_found s i index Hfind) as (sel & -> & _).
    destruct (findIndex_Some s i index Hfind) as (r & Hr & Hid & _).
    split_and!.
    + unfold unique_ids, cid, deref in *. simpl. rewrite list_fmap_delete.
      eapply sublist_NoDup; [exact Hnd|apply sublist_delete].
    + apply find_component_None. intros r' Hr'. simpl in Hr'.
      rewrite <- Hid. unfold cid, deref. simpl.
      by apply (NoDup_fmap_delete_ne (cid s) (components s) index).
    + intros j Hj. unfold find_component, deref. simpl.
      apply (list_find_delete _ _ _ r); [done|]. unfold cid, deref in Hid. congruence.
  - assert (Heq : removeComponent i s = Returned tt s).
    { unfold removeComponent, bind, get. by rewrite Hfind. }
    rewrite Heq. split_and!; [done| |done].
    apply find_component_None. by apply findIndex_None.
Qed.

Lemma removeComponent_lookup_witness :
  unique_ids inverter_chain_state
  ∧ find_component (run (removeComponent "n1") inverter_chain_state) "n1" = None
  ∧ find_component (run (removeComponent "n1") inverter_chain_state) "n2" = Some 2.
Proof.
  assert (H : unique_ids inverter_chain_state).
  { unfold unique_ids. apply (bool_decide_unpack _). by vm_compute. }
  split; [exact H|].
  destruct (removeComponent_lookup inverter_chain_state "n1" H) as (_ & Hnone & Hother).
  split; [exact Hnone|]. rewrite Hother; [by vm_compute|done].
Defined.

(** ** The selection *)

Lemma lookup_total_insert_if (h : list Component) (r0 r : nat) (c : Component) :
  r < length h → <[r0 := c]> h !!! r = if decide (r0 = r) then c else h !!! r.
Proof.
  intros Hr. case_decide as H.
  - subst. by apply list_lookup_total_insert_eq.
  - by apply list_lookup_total_insert_ne.
Qed.

Lemma selectComponent_result (s : Simulator) (component : option nat) :
  ∃ h,
    selectComponent component s
    = Returned tt (mkSimulator h (arrays s) (components s) (connections s) component)
    ∧ length h = length (heap s)
    ∧ ∀ r, r < length (heap s) →
           h !!! r
           = set_selected (deref s r)
               (if decide (component = Some r) then true
                else if decide (selectedComponent s = Some r) then false
                     else selected (deref s r)).
Proof.
  unfold selectComponent, bind at 1, get at 1.
  destruct s as [h a cs conns sel]. unfold deref. simpl.
  destruct sel as [old|], component as [r0|];
    unfold bind, update_component, modify, ret, set_heap, set_selectedComponent,
      deref; simpl;
    eexists; (split; [reflexivity|]); rewrite ?length_insert; (split; [done|]);
    intros r Hr;
    repeat (first [ rewrite (lookup_total_insert_if _ _ r)
                      by (rewrite ?length_insert; done)
                  | case_decide; simplify_eq ]);
    try done; by destruct (h !!! r).
Qed.

(** X8: selectComponent(component) makes [component] (or nothing, for null)
    the selection and moves the [selected] flag with it: on a graph whose
    component list refers to allocated objects and whose flags agree with
    the selection, afterwards the flags agree with the new selection.
    Components, connections, pin arrays and every other field of every
    component are unchanged. *)
Theorem selectComponent_spec (s : Simulator) (component : option nat) :
  (∀ r, r ∈ components s → r < length (heap s)) →
  selection_ok s →
  ∃ s',
    selectComponent component s = Returned tt s'
    ∧ selectedComponent s' = component
    ∧ selection_ok s'
    ∧ components s' = components s
    ∧ connections s' = connections s
    ∧ arrays s' = arrays s
    ∧ ∀ r, r < length (heap s) → unselected (deref s' r) = unselected (deref s r).
Proof.
  intros Hrefs Hsel.
  destruct (selectComponent_result s component) as (h & -> & Hlen & Hh).
  eexists. split; [reflexivity|]. simpl. split_and!; try done.
  - intros r Hr. simpl in Hr. unfold deref. simpl.
    rewrite (Hh r (Hrefs r Hr)). simpl.
    destruct (decide (component = Some r)); [done|].
    split; [|done]. destruct (decide (selectedComponent s = Some r)); [done|].
    intros Hflag. by apply (Hsel r Hr) in Hflag.
  - intros r Hr. unfold deref at 1. simpl. by rewrite (Hh r Hr).
Qed.

Lemma selectComponent_spec_witness :
  (∀ r, r ∈ components inverter_chain_state →
        r < length (heap inverter_chain_state))
  ∧ selection_ok inverter_chain_state
  ∧ ∃ s', selectComponent (Some 1) inverter_chain_state = Returned tt s'
          ∧ selectedComponent s' = Some 1 ∧ selection_ok s'.
Proof.
  assert (Hc : ∀ r, r ∈ components inverter_chain_state → r = 0 ∨ r = 1 ∨ r = 2).
  { intros r Hr. vm_compute in Hr. repeat (apply elem_of_cons in Hr as [->|Hr]; [auto|]).
    by apply elem_of_nil in Hr. }
  assert (H1 : ∀ r, r ∈ components inverter_chain_state →
                    r < length (heap inverter_chain_state)).
  { intros r Hr. destruct (Hc r Hr) as [->|[->| ->]]; vm_compute; lia. }
  assert (H2 : selection_ok inverter_chain_state).
  { intros r Hr. destruct (Hc r Hr) as [->|[->| ->]]; by vm_compute. }
  split; [exact H1|]. split; [exact H2|].
  destruct (selectComponent_spec inverter_chain_state (Some 1) H1 H2)
    as (s' & Heq & Hs & Hok & _).
  exists s'. done.
Defined.

Lemma handleKeyDown_Delete (s : Simulator) (sel : nat) :
  selectedComponent s = Some sel →
  handleKeyDown "Delete" s = removeComponent (cid s sel) s.
Proof.
  intros Hsel. unfold handleKeyDown, bind at 1, get at 1. rewrite Hsel.
  rewrite decide_True by done. unfold bind, cid.
  destruct (removeComponent (id (deref s sel)) s) as [[] s'| |]; try done.
Qed.

(** X9: The Delete key on a graph with unique ids removes the selected
    component: it is no longer in the component list, every connection
    touching it is gone, and nothing is selected.  The Escape key only
    clears the selection.  Any other key, and Delete when nothing is
    selected, change nothing. *)
Theorem handleKeyDown_spec (s : Simulator) (key : string) :
  (∀ sel, unique_ids s → selectedComponent s = Some sel → sel ∈ components s →
          key = "Delete" →
          ∃ index s',
            handleKeyDown key s = Returned tt s'
            ∧ components s !! index = Some sel
            ∧ components s' = delete index (components s)
            ∧ (sel ∉ components s')
            ∧ (∀ conn, conn ∈ connections s' → from conn ≠ sel ∧ to conn ≠ sel)
            ∧ (∀ conn, conn ∈ connections s → from conn ≠ sel → to conn ≠ sel →
                       from conn ∈ components s → to conn ∈ components s →
                       conn ∈ connections s')
            ∧ selectedComponent s' = None)
  ∧ (key = "Escape" →
     ∃ s', handleKeyDown key s = Returned tt s'
           ∧ selectComponent None s = Returned tt s'
           ∧ selectedComponent s' = None
           ∧ components s' = components s ∧ connections s' = connections s)
  ∧ (key ≠ "Escape" → (key ≠ "Delete" ∨ selectedComponent s = None) →
     handleKeyDown key s = Returned tt s).
Proof.
  split_and!.
  - intros sel Hnd Hsel Hin ->. rewrite (handleKeyDown_Delete s sel Hsel).
    destruct (findIndex s (cid s sel)) as [index|] eqn:Hfind.
    + destruct (removeComponent_found s _ index Hfind) as (sel' & -> & Hsel').
      destruct (findIndex_Some s _ index Hfind) as (r & Hr & Hid & _).
      assert (r = sel) as ->.
      { apply (NoDup_fmap_eq (cid s) (components s)); auto.
        by eapply list_elem_of_lookup_2. }
      eexists index, _. split; [reflexivity|]. simpl. split_and!; try done.
      * intros Hin'. by apply (NoDup_fmap_delete_ne (cid s) _ _ _ _ Hnd Hr) in Hin'.
      * intros conn Hconn. apply list_elem_of_filter in Hconn as [[Hf Ht] _].
        split; congruence.
      * intros conn Hconn Hf Ht Hfin Htin. apply list_elem_of_filter.
        split; [|done]. split; intros Heq.
        -- by apply Hf, (NoDup_fmap_eq (cid s) (components s)).
        -- by apply Ht, (NoDup_fmap_eq (cid s) (components s)).
      * rewrite Hsel', Hsel. by rewrite decide_True.
    + exfalso. by apply (findIndex_None s _ Hfind sel).
  - intros ->. unfold handleKeyDown, bind at 1, get at 1.
    destruct (selectComponent_result s None) as (h & Heq & _).
    destruct (selectedComponent s) eqn:Hsel; simpl; unfold bind at 1, ret;
      rewrite Heq; eexists; split_and!; reflexivity.
  - intros Hesc Hdel. unfold handleKeyDown, bind at 1, get at 1.
    rewrite (decide_False (P := key = "Escape")) by done.
    destruct Hdel as [Hdel| ->]; [|done].
    destruct (selectedComponent s); [|done].
    by rewrite (decide_False (P := key = "Delete")) by done.
Qed.

Lemma handleKeyDown_spec_witness :
  unique_ids (run (selectComponent (Some 1)) inverter_chain_state)
  ∧ ∃ index s',
      handleKeyDown "Delete" (run (selectComponent (Some 1)) inverter_chain_state)
      = Returned tt s'
      ∧ components (run (selectComponent (Some 1)) inverter_chain_state) !! index
        = Some 1
      ∧ (1 ∉ components s')
      ∧ selectedComponent s' = None.
Proof.
  assert (H : unique_ids (run (selectComponent (Some 1)) inverter_chain_state)).
  { unfold unique_ids. apply (bool_decide_unpack _). by vm_compute. }
  assert (Hsel : selectedComponent (run (selectComponent (Some 1)) inverter_chain_state)
                 = Some 1) by (by vm_compute).
  assert (Hin : 1 ∈ components (run (selectComponent (Some 1)) inverter_chain_state)).
  { apply (bool_decide_unpack _). by vm_compute. }
  split; [exact H|].
  destruct (proj1 (handleKeyDown_spec (run (selectComponent (Some 1)) inverter_chain_state)
                     "Delete") 1 H Hsel Hin eq_refl)
    as (index & s' & Heq & Hidx & _ & Hnot & _ & _ & Hnone).
  exists index, s'. split_and!; assumption.
Defined.

(** X10: The Delete key when ids are not unique.  removeComponent is given
    the id of the selected component and removes the first component with
    that id.  If that is another component than the selected one, the
    other component is removed, the selected component stays in the graph
    with its fields (its [selected] flag included) as they were, and the
    selection is cleared. *)
Theorem handleKeyDown_Delete_shared_id (s : Simulator) (sel index first : nat) :
  selectedComponent s = Some sel →
  sel ∈ components s →
  findIndex s (cid s sel) = Some index →
  components s !! index = Some first →
  first ≠ sel →
  ∃ s',
    handleKeyDown "Delete" s = Returned tt s'
    ∧ components s' = delete index (components s)
    ∧ sel ∈ components s'
    ∧ deref s' sel = deref s sel
    ∧ selectedComponent s' = None.
Proof.
  intros Hsel Hin Hfind Hfirst Hne. rewrite (handleKeyDown_Delete s sel Hsel).
  destruct (removeComponent_found s _ index Hfind) as (sel' & -> & Hsel').
  eexists. split; [reflexivity|]. simpl. split_and!; try done.
  - by apply (elem_of_delete_other _ _ _ first).
  - rewrite Hsel', Hsel. by rewrite decide_True.
Qed.

Lemma handleKeyDown_Delete_shared_id_witness :
  ∃ s',
    handleKeyDown "Delete"
      (run (addComponent "NOT" "n1" 0 0 None ;; selectComponent (Some 3))
           inverter_chain_state)
    = Returned tt s'
    ∧ components s' = [0; 2; 3]
    ∧ selected (deref s' 3) = true
    ∧ selectedComponent s' = None.
Proof.
  set (s := run (addComponent "NOT" "n1" 0 0 None ;; selectComponent (Some 3))
                inverter_chain_state).
  assert (H1 : selectedComponent s = Some 3) by (by vm_compute).
  assert (H2 : 3 ∈ components s) by (apply (bool_decide_unpack _); by vm_compute).
  assert (H3 : findIndex s (cid s 3) = Some 1) by (by vm_compute).
  assert (H4 : components s !! 1 = Some 1) by (by vm_compute).
  assert (H5 : 1 ≠ 3) by lia.
  destruct (handleKeyDown_Delete_shared_id s 3 1 1 H1 H2 H3 H4 H5)
    as (s' & Heq & Hc & _ & Hd & Hs).
  exists s'. split; [exact Heq|]. split; [rewrite Hc; by vm_compute|].
  split; [rewrite Hd; by vm_compute|exact Hs].
Defined.

(** ** The template circuits under clicks *)

Lemma pressed_cons {A} `{EqDecision A} (peg c : A) (clicks : list A) :
  pressed peg (c :: clicks) = xorb (bool_decide (c = peg)) (pressed peg clicks).
Proof.
  unfold pressed. rewrite filter_cons. case_decide.
  - rewrite bool_decide_eq_true_2 by done. simpl length.
    rewrite Nat.odd_succ, <- Nat.negb_odd. by destruct (Nat.odd _).
  - rewrite bool_decide_eq_false_2 by done. by destruct (Nat.odd _).
Qed.

Lemma forEach_cons {A} (a : A) (l : list A) (f : A → M unit) (s : Simulator) :
  forEach (a :: l) f s
  = match f a s with
    | Returned _ s' => forEach l f s'
    | Thrown e s' => Thrown e s'
    | OutOfFuel => OutOfFuel
    end.
Proof. reflexivity. Qed.

Lemma half_adder_click (a b c : bool) :
  handleClick (Some (if c then 1 else 0)) (half_adder_state a b)
  = Returned tt (if c then half_adder_state a (negb b) else half_adder_state (negb a) b).
Proof. destruct a, b, c; vm_compute; reflexivity. Qed.

Lemma half_adder_clicks (clicks : list bool) (a b : bool) :
  forEach clicks (fun c => handleClick (Some (if c then 1 else 0))) (half_adder_state a b)
  = Returned tt (half_adder_state (xorb a (pressed false clicks))
                                  (xorb b (pressed true clicks))).
Proof.
  revert a b. induction clicks as [|c clicks IH]; intros a b.
  - unfold pressed. simpl. unfold ret. by rewrite !xorb_false_r.
  - rewrite forEach_cons, half_adder_click, !pressed_cons.
    assert (Hcongr : ∀ a a' b b', a = a' → b = b' →
                       Returned tt (half_adder_state a b)
                       = Returned tt (half_adder_state a' b'))
      by (by intros ???? -> ->).
    destruct c; rewrite IH; apply Hcongr;
      by destruct a, b, (pressed false clicks), (pressed true clicks).
Qed.

(** X11: The half-adder template works as a half adder under any clicking.
    Build it on a fresh simulator and click the INPUT pegs A and B any
    number of times in any order (each click toggles the peg and runs one
    simulate()): the session never throws, A and B show the parity of
    their clicks, and after the last click SUM shows A xor B and CARRY
    shows A and B. *)
Theorem half_adder_template_adds (clicks : list bool) :
  ∃ s,
    half_adder_session clicks empty_simulator = Returned tt s
    ∧ value_of s "input_a" = Some (VBool (pressed false clicks))
    ∧ value_of s "input_b" = Some (VBool (pressed true clicks))
    ∧ value_of s "sum_out"
      = Some (VBool (xorb (pressed false clicks) (pressed true clicks)))
    ∧ value_of s "carry_out"
      = Some (VBool (pressed false clicks && pressed true clicks)).
Proof.
  exists (half_adder_state (pressed false clicks) (pressed true clicks)).
  split.
  - unfold half_adder_session, bind.
    assert (Ht : Templates.halfAdderCircuit empty_simulator
                 = Returned (0, 1, 4, 5) (half_adder_state false false))
      by (vm_compute; reflexivity).
    rewrite Ht. apply (half_adder_clicks clicks false false).
  - destruct (pressed false clicks), (pressed true clicks);
      split_and!; vm_compute; reflexivity.
Qed.

Lemma mux_click (d0 d1 sel : bool) (c : mux_peg) :
  handleClick (Some match c with PegD0 => 0 | PegD1 => 1 | PegS => 2 end)
              (mux_state d0 d1 sel)
  = Returned tt match c with
                | PegD0 => mux_state (negb d0) d1 sel
                | PegD1 => mux_state d0 (negb d1) sel
                | PegS => mux_state d0 d1 (negb sel)
                end.
Proof. destruct d0, d1, sel, c; vm_compute; reflexivity. Qed.

Lemma mux_clicks (clicks : list mux_peg) (d0 d1 sel : bool) :
  forEach clicks
    (fun c => handleClick (Some match c with PegD0 => 0 | PegD1 => 1 | PegS => 2 end))
    (mux_state d0 d1 sel)
  = Returned tt (mux_state (xorb d0 (pressed PegD0 clicks))
                           (xorb d1 (pressed PegD1 clicks))
                           (xorb sel (pressed PegS clicks))).
Proof.
  revert d0 d1 sel. induction clicks as [|c clicks IH]; intros d0 d1 sel.
  - unfold pressed. simpl. unfold ret. by rewrite !xorb_false_r.
  - rewrite forEach_cons, mux_click, !pressed_cons.
    assert (Hcongr : ∀ d0 d0' d1 d1' sel sel', d0 = d0' → d1 = d1' → sel = sel' →
                       Returned tt (mux_state d0 d1 sel)
                       = Returned tt (mux_state d0' d1' sel'))
      by (by intros ?????? -> -> ->).
    destruct c; rewrite IH; apply Hcongr;
      by destruct d0, d1, sel, (pressed PegD0 clicks), (pressed PegD1 clicks),
           (pressed PegS clicks).
Qed.

(** X12: The 2:1 multiplexer template selects under any clicking.  Build it on
    a fresh simulator and click the INPUT pegs D0, D1 and S any number of
    times in any order: the session never throws, each peg shows the
    parity of its clicks, and after the last click the OUTPUT Y shows D1
    if S is true and D0 otherwise. *)
Theorem mux_template_selects (clicks : list mux_peg) :
  ∃ s,
    mux_session clicks empty_simulator = Returned tt s
    ∧ value_of s "input_d0" = Some (VBool (pressed PegD0 clicks))
    ∧ value_of s "input_d1" = Some (VBool (pressed PegD1 clicks))
    ∧ value_of s "input_s" = Some (VBool (pressed PegS clicks))
    ∧ value_of s "output_y"
      = Some (VBool (if pressed PegS clicks then pressed PegD1 clicks
                     else pressed PegD0 clicks)).
Proof.
  exists (mux_state (pressed PegD0 clicks) (pressed PegD1 clicks) (pressed PegS clicks)).
  split.
  - unfold mux_session, bind.
    assert (Ht : Templates.mux2to1Circuit empty_simulator
                 = Returned (0, 1, 2, 7) (mux_state false false false))
      by (vm_compute; reflexivity).
    rewrite Ht. apply (mux_clicks clicks false false false).
  - destruct (pressed PegD0 clicks), (pressed PegD1 clicks), (pressed PegS clicks);
      split_and!; vm_compute; reflexivity.
Qed.

(** ** The order returned for an acyclic graph *)

Section dependency_order.
Variable s : Simulator.
Hypothesis Hids : unique_ids s.
Hypothesis Hown : endpoints_owned s.
Hypothesis Hacyclic : ¬ has_cycle s.

Lemma same_id_same_component (a b : nat) :
  a ∈ components s → b ∈ components s → cid s a = cid s b → a = b.
Proof. apply (NoDup_fmap_eq (cid s) (components s)), Hids. Qed.

Lemma ordered_snoc (R : list nat) (c : nat) :
  ordered s R →
  (∀ conn, conn ∈ connections s → to conn = c → from conn ∈ R) →
  ordered s (R ++ [c]).
Proof.
  intros HR Hc j conn Hconn Hj.
  destruct (decide (j < length R)) as [Hlt|Hge].
  - rewrite lookup_app_l in Hj by done.
    destruct (HR j conn Hconn Hj) as (i & Hi & Hfrom).
    exists i. split; [done|]. rewrite lookup_app_l by lia. done.
  - rewrite lookup_app_r in Hj by lia.
    destruct (j - length R) as [|k] eqn:Hk; simpl in Hj; [|done].
    simplify_eq. pose proof (Hc conn Hconn eq_refl) as Hin.
    apply list_elem_of_lookup in Hin as [i Hi].
    exists i. split; [apply lookup_lt_Some in Hi; lia|].
    by apply lookup_app_l_Some.
Qed.

Lemma ordered_visit_all (fuel : nat) :
  (∀ c S st st',
      sort_inv s S st → c ∈ components s → (∀ a, a ∈ S → tc (feeds s) c a) →
      visit s fuel c st = Some st' →
      sort_inv s S st' ∧ c ∈ st'.2 ∧ ∃ A, st'.2 = st.2 ++ A) →
  ∀ l S st st',
    sort_inv s S st →
    (∀ d, d ∈ l → d ∈ components s ∧ ∀ a, a ∈ S → tc (feeds s) d a) →
    visit_all s fuel l st = Some st' →
    sort_inv s S st' ∧ (∀ d, d ∈ l → d ∈ st'.2) ∧ ∃ A, st'.2 = st.2 ++ A.
Proof.
  intros Hvisit l. induction l as [|c l IH]; intros S st st' Hinv Hl Hres.
  - unfold visit_all in Hres. simpl in Hres. simplify_eq.
    split_and!; [done| |exists []; by rewrite app_nil_r].
    intros d Hd. by apply elem_of_nil in Hd.
  - rewrite visit_all_cons in Hres.
    destruct (visit s fuel c st) as [st1|] eqn:Hc; [|done].
    destruct (Hl c) as [Hcin Hctc]; [left|].
    destruct (Hvisit c S st st1 Hinv Hcin Hctc Hc) as (Hinv1 & Hc1 & A1 & HA1).
    destruct (IH S st1 st' Hinv1) as (Hinv' & Hl' & A2 & HA2); [|done|].
    { intros d Hd. apply Hl. by right. }
    split_and!; [done| |].
    + intros d Hd. apply elem_of_cons in Hd as [->|Hd]; [|by apply Hl'].
      rewrite HA2. apply elem_of_app. by left.
    + exists (A1 ++ A2). by rewrite HA2, HA1, (assoc_L (++)).
Qed.

Lemma ordered_visit (fuel : nat) :
  ∀ c S st st',
    sort_inv s S st → c ∈ components s → (∀ a, a ∈ S → tc (feeds s) c a) →
    visit s fuel c st = Some st' →
    sort_inv s S st' ∧ c ∈ st'.2 ∧ ∃ A, st'.2 = st.2 ++ A.
Proof.
  induction fuel as [|fuel IH]; intros c S st st' Hinv Hc Htc Hres; [done|].
  simpl in Hres. destruct (decide (id (deref s c) ∈ st.1)) as [Hvis|Hnew].
  - simplify_eq. split_and!; [done| |exists []; by rewrite app_nil_r].
    destruct Hinv as (Hmark & _ & _).
    apply (Hmark c Hc) in Hvis as [?|HS]; [done|].
    exfalso. apply Hacyclic. exists c. by apply Htc.
  - rewrite visit_conns_froms in Hres.
    set (deps := filter (fun conn => id (deref s (to conn)) = id (deref s c))
                        (connections s)) in *.
    destruct (foldl _ _ (from <$> deps)) as [stf|] eqn:Hloop; [|done].
    simplify_eq. simpl.
    destruct Hinv as (Hmark & Hsub & Hord).
    destruct (ordered_visit_all fuel IH (from <$> deps) (c :: S)
                ({[id (deref s c)]} ∪ st.1, st.2) stf)
      as ((Hmarkf & Hsubf & Hordf) & Hdeps & A & HA); [| |exact Hloop|].
    { split_and!; simpl; [|done|done].
      intros r Hr. rewrite elem_of_union, elem_of_singleton, elem_of_cons, (Hmark r Hr).
      split.
      - intros [Heq|[?|?]]; [|by auto..].
        right. left. by apply same_id_same_component.
      - intros [?|[->|?]]; auto. }
    { intros d Hd. apply list_elem_of_fmap in Hd as (conn & -> & Hconn).
      apply list_elem_of_filter in Hconn as [Hto Hconn].
      destruct (Hown conn Hconn) as [Hfrom Htoin].
      assert (to conn = c) by (by apply same_id_same_component).
      split; [done|]. intros a Ha.
      apply elem_of_cons in Ha as [->|Ha].
      - apply tc_once. by exists conn.
      - eapply tc_l; [|by apply Htc]. by exists conn. }
    simpl in HA. split_and!.
    + split_and!; simpl.
      * intros r Hr. rewrite (Hmarkf r Hr), elem_of_app, elem_of_cons.
        rewrite list_elem_of_singleton. naive_solver.
      * intros r Hr. apply elem_of_app in Hr as [Hr|Hr]; [by apply Hsubf|].
        by apply list_elem_of_singleton in Hr as ->.
      * apply ordered_snoc; [done|]. intros conn Hconn Hto. apply Hdeps.
        apply list_elem_of_fmap. exists conn. split; [done|].
        apply list_elem_of_filter. split; [by rewrite Hto|done].
    + apply elem_of_app. right. by left.
    + exists (A ++ [c]). by rewrite HA, (assoc_L (++)).
Qed.

Lemma topologicalSort_ordered :
  ∃ sorted, topologicalSort s = Returned sorted s
            ∧ ordered s sorted
            ∧ ∀ c, c ∈ components s → c ∈ sorted.
Proof.
  destruct (topologicalSort_returns s) as (sorted & Heq & _).
  exists sorted. split; [done|].
  unfold topologicalSort in Heq.
  destruct (topologicalSort_from s (sort_fuel s)) as [sorted'|] eqn:Hfrom; [|done].
  simplify_eq. unfold topologicalSort_from in Hfrom.
  destruct (visit_all s (sort_fuel s) (components s) (∅, [])) as [st|] eqn:Hall; [|done].
  simpl in Hfrom. simplify_eq.
  destruct (ordered_visit_all (sort_fuel s) (ordered_visit (sort_fuel s))
              (components s) [] (∅, []) st)
    as ((_ & _ & Hord) & Hall' & _); [| |done|done].
  - split_and!; simpl.
    + intros r Hr. rewrite elem_of_nil. set_solver.
    + intros r Hr. by apply elem_of_nil in Hr.
    + intros j conn _ Hj. by rewrite lookup_nil in Hj.
  - intros d Hd. split; [done|]. intros a Ha. by apply elem_of_nil in Ha.
Qed.

End dependency_order.

(** X13: On an acyclic graph that satisfies its invariants, the order returned
    by topologicalSort is a topological order: it lists every component of
    the graph, and for every connection the source component comes
    strictly before the target component. *)
Theorem topologicalSort_respects_connections (s : Simulator) :
  well_formed s → ¬ has_cycle s →
  ∃ sorted,
    topologicalSort s = Returned sorted s
    ∧ sorted ≡ₚ components s
    ∧ ∀ conn, conn ∈ connections s →
              ∃ i j, sorted !! i = Some (from conn) ∧ sorted !! j = Some (to conn)
                     ∧ i < j.
Proof.
  intros [Hids Hown] Hacyclic.
  destruct (topologicalSort_ordered s Hids Hown Hacyclic) as (sorted & Heq & Hord & Hall).
  destruct (topologicalSort_permutation s (conj Hids Hown)) as (sorted' & Heq' & Hperm).
  rewrite Heq in Heq'. injection Heq' as <-.
  exists sorted. split_and!; [done..|].
  intros conn Hconn. destruct (Hown conn Hconn) as [_ Hto].
  apply Hall, list_elem_of_lookup in Hto as [j Hj].
  destruct (Hord j conn Hconn Hj) as (i & Hi & Hfrom). eauto.
Qed.

Lemma topologicalSort_respects_connections_witness :
  well_formed inverter_probe_state
  ∧ ¬ has_cycle inverter_probe_state
  ∧ ∃ sorted,
      topologicalSort inverter_probe_state = Returned sorted inverter_probe_state
      ∧ sorted ≡ₚ components inverter_probe_state
      ∧ ∀ conn, conn ∈ connections inverter_probe_state →
                ∃ i j, sorted !! i = Some (from conn) ∧ sorted !! j = Some (to conn)
                       ∧ i < j.
Proof.
  split; [apply inverter_probe_well_formed|].
  split; [apply inverter_probe_acyclic|].
  apply (topologicalSort_respects_connections inverter_probe_state);
    [apply inverter_probe_well_formed|apply inverter_probe_acyclic].
Defined.

(** ** Export followed by import *)

Lemma class_of_type_name (ty : ctype) : class_of (toUpperCase (type_name ty)) = Some ty.
Proof. by destruct ty. Qed.

Lemma type_name_inj (t1 t2 : ctype) : type_name t1 = type_name t2 → t1 = t2.
Proof. by destruct t1, t2. Qed.

(** One record imported: one object allocated, appended to the graph. *)
Lemma import_component_result (d : ComponentData) (ty : ctype) (s : Simulator) :
  data_type d = type_name ty →
  ∃ c pins,
    import_component d s
    = Returned tt (mkSimulator (heap s ++ [c]) (arrays s ++ [pins])
                               (components s ++ [length (heap s)])
                               (connections s) (selectedComponent s))
    ∧ imported d c.
Proof.
  intros Hty. unfold import_component, bind at 1.
  destruct (addComponent_known (data_type d) (data_id d) (data_x d) (data_y d)
              (data_label d) ty s) as (c & pins & -> & Hid & Htyc & Hx & Hy & _).
  { rewrite Hty. apply class_of_type_name. }
  set (s1 := mkSimulator _ _ _ _ _).
  assert (Hderef : deref s1 (length (heap s)) = c).
  { unfold deref, s1. simpl. by apply list_lookup_total_middle. }
  assert (Hins : ∀ c', <[length (heap s) := c']> (heap s ++ [c]) = heap s ++ [c']).
  { intros c'. rewrite insert_app_r_alt by done. by rewrite Nat.sub_diag. }
  case_decide as Hv.
  - unfold bind, get. rewrite Hderef. case_decide as Hin;
      unfold update_component, modify, set_heap; rewrite Hderef; simpl; rewrite Hins;
      eexists _, pins; (split; [reflexivity|]);
      unfold imported; simpl; split_and!; try done; by rewrite Htyc, Hty.
  - exists c, pins. split; [done|]. unfold imported. split_and!; try done.
    by rewrite Htyc, Hty.
Qed.

Lemma import_components_result (ds : list ComponentData) :
  ∀ s, Forall (fun d => ∃ ty, data_type d = type_name ty) ds →
       ∃ cs arrs,
         forEach ds import_component s
         = Returned tt (mkSimulator (heap s ++ cs) (arrays s ++ arrs)
                          (components s ++ seq (length (heap s)) (length ds))
                          (connections s) (selectedComponent s))
         ∧ Forall2 imported ds cs.
Proof.
  induction ds as [|d ds IH]; intros s Hds.
  - exists [], []. simpl. rewrite !app_nil_r. by destruct s.
  - apply Forall_cons in Hds as [[ty Hty] Hds].
    destruct (import_component_result d ty s Hty) as (c & pins & Heq & Hc).
    rewrite forEach_cons, Heq.
    destruct (IH (mkSimulator (heap s ++ [c]) (arrays s ++ [pins])
                              (components s ++ [length (heap s)])
                              (connections s) (selectedComponent s)) Hds)
      as (cs & arrs & -> & Hcs).
    exists (c :: cs), (pins :: arrs). simpl.
    rewrite <- !(assoc_L (++)), length_app. simpl.
    replace (length (heap s) + 1) with (S (length (heap s))) by lia.
    split; [done|]. by constructor.
Qed.

Lemma find_component_set_connections (s : Simulator) (l : list Connection) (i : string) :
  find_component (set_connections s l) i = find_component s i.
Proof. done. Qed.

Lemma connectComponents_found (s : Simulator) (fromId toId : string) (k j f t : nat) :
  find_component s fromId = Some f → find_component s toId = Some t →
  connectComponents fromId k toId j s
  = Returned (Some (mkConnection f k t j (VBool false) false))
      (set_connections s (connections s ++ [mkConnection f k t j (VBool false) false])).
Proof.
  intros Hf Ht. unfold connectComponents, bind at 1, get. by rewrite Hf, Ht.
Qed.

Lemma import_connections_result (cds : list ConnectionData) :
  ∀ s, Forall (fun d => is_Some (find_component s (data_from d))
                        ∧ is_Some (find_component s (data_to d))) cds →
       forEach cds import_connection s
       = Returned tt (set_connections s (connections s ++ (resolve s <$> cds))).
Proof.
  induction cds as [|d cds IH]; intros s Hcds.
  - simpl. rewrite app_nil_r. by destruct s.
  - apply Forall_cons in Hcds as [[[f Hf] [t Ht]] Hcds].
    rewrite forEach_cons.
    unfold import_connection at 1, bind.
    rewrite (connectComponents_found s _ _ _ _ f t Hf Ht).
    unfold ret. rewrite IH by done.
    simpl. unfold resolve at 2. rewrite Hf, Ht. simpl.
    by rewrite <- (assoc_L (++)).
Qed.

Section round_trip.
Variable s : Simulator.
Hypothesis Hrefs : ∀ r, r ∈ components s → r < length (heap s).
Hypothesis Hids : unique_ids s.
Hypothesis Hown : endpoints_owned s.

(** The graph after the component records were imported: the new objects
    [cs] follow the old ones in the store. *)
Variable cs : list Component.
Variable arrs : list (list jsval).
Hypothesis Hcs :
  Forall2 imported ((fun r => export_component (deref s r)) <$> components s) cs.

Let rebuilt : Simulator :=
  mkSimulator (heap s ++ cs) (arrays s ++ arrs)
              (seq (length (heap s)) (length (components s))) [] None.

Lemma rebuilt_component (k r : nat) :
  components s !! k = Some r →
  cs !! k = Some (deref rebuilt (length (heap s) + k))
  ∧ imported (export_component (deref s r)) (deref rebuilt (length (heap s) + k)).
Proof.
  intros Hk.
  assert (Hd : ((fun r => export_component (deref s r)) <$> components s) !! k
               = Some (export_component (deref s r)))
    by (by rewrite list_lookup_fmap, Hk).
  destruct (Forall2_lookup_l _ _ _ _ _ Hcs Hd) as (c & Hc & Himp).
  assert (deref rebuilt (length (heap s) + k) = c) as ->; [|done].
  unfold deref, rebuilt. simpl. rewrite lookup_total_app_r by lia.
  replace (length (heap s) + k - length (heap s)) with k by lia.
  by apply list_lookup_total_correct.
Qed.

Lemma rebuilt_cid (k r : nat) :
  components s !! k = Some r → cid rebuilt (length (heap s) + k) = cid s r.
Proof.
  intros Hk. destruct (rebuilt_component k r Hk) as (_ & Hid & _). exact Hid.
Qed.

Lemma rebuilt_find (k r : nat) :
  components s !! k = Some r →
  find_component rebuilt (cid s r) = Some (length (heap s) + k).
Proof.
  intros Hk. unfold find_component.
  assert (Hf : list_find (fun r' => id (deref rebuilt r') = cid s r) (components rebuilt)
               = Some (k, length (heap s) + k)); [|by rewrite Hf].
  apply list_find_Some. simpl. split_and!.
  - apply lookup_seq_lt. by eapply lookup_lt_Some.
  - by apply rebuilt_cid.
  - intros j y Hj Hlt Hy.
    apply lookup_seq in Hj as [-> Hjn].
    destruct (lookup_lt_is_Some_2 (components s) j Hjn) as [r' Hr'].
    fold (cid rebuilt (length (heap s) + j)) in Hy.
    rewrite (rebuilt_cid j r' Hr') in Hy.
    assert (H1 : (cid s <$> components s) !! j = Some (cid s r))
      by (by rewrite list_lookup_fmap, Hr'; simpl; rewrite Hy).
    assert (H2 : (cid s <$> components s) !! k = Some (cid s r))
      by (by rewrite list_lookup_fmap, Hk).
    pose proof (NoDup_lookup _ _ _ _ Hids H1 H2). lia.
Qed.

Lemma rebuilt_ids :
  cid rebuilt <$> components rebuilt = cid s <$> components s.
Proof.
  apply list_eq. intros k. rewrite !list_lookup_fmap. simpl.
  destruct (components s !! k) as [r|] eqn:Hk; simpl.
  - rewrite lookup_seq_lt by (by eapply lookup_lt_Some). simpl.
    by rewrite (rebuilt_cid k r Hk).
  - rewrite lookup_seq_ge; [done|]. by apply lookup_ge_None.
Qed.

Lemma rebuilt_resolve (conn : Connection) :
  conn ∈ connections s →
  ∃ kf kt,
    components s !! kf = Some (from conn) ∧ components s !! kt = Some (to conn)
    ∧ resolve rebuilt (export_connection s conn)
      = mkConnection (length (heap s) + kf) (fromOutput conn)
                     (length (heap s) + kt) (toInput conn) (VBool false) false.
Proof.
  intros Hconn. destruct (Hown conn Hconn) as [Hf Ht].
  apply list_elem_of_lookup in Hf as [kf Hkf].
  apply list_elem_of_lookup in Ht as [kt Hkt].
  exists kf, kt. split_and!; [done..|].
  unfold resolve, export_connection. simpl.
  fold (cid s (from conn)). fold (cid s (to conn)).
  by rewrite (rebuilt_find kf _ Hkf), (rebuilt_find kt _ Hkt).
Qed.

End round_trip.

(** X14: Export followed by import rebuilds the structure of the graph.  On a
    graph with unique ids whose connections join components of the graph,
    importCircuit(exportCircuit()) returns normally and leaves a graph
    with the same number of components in the same order, each with the
    id, type and position of the original, and with the same connections
    in the same order (same endpoint ids and pin indices), all carrying
    the value false; ids are still unique.  An INPUT that was true is
    true again; a gate gets the very pin array of the gate it was
    exported from (the array is shared, not copied).  No evaluation pass
    is run. *)
Theorem export_import_structure (s : Simulator) :
  (∀ r, r ∈ components s → r < length (heap s)) →
  unique_ids s → endpoints_owned s →
  ∃ s',
    export_import s = Returned tt s'
    ∧ well_formed s'
    ∧ length (components s') = length (components s)
    ∧ (∀ k r, components s !! k = Some r →
              ∃ r', components s' !! k = Some r'
                    ∧ id (deref s' r') = id (deref s r)
                    ∧ type (deref s' r') = type (deref s r)
                    ∧ x (deref s' r') = x (deref s r)
                    ∧ y (deref s' r') = y (deref s r)
                    ∧ (type (deref s r) = INPUT → value (deref s r) = VBool true →
                       value (deref s' r') = VBool true)
                    ∧ (type (deref s r) ≠ INPUT → value (deref s r) = VUndef →
                       ∀ a, inputs (deref s r) = VArr a →
                            inputs (deref s' r') = VArr a))
    ∧ export_connection s' <$> connections s' = export_connection s <$> connections s
    ∧ (∀ conn, conn ∈ connections s' → conn_value conn = VBool false).
Proof.
  intros Hrefs Hids Hown.
  set (ds := (fun r => export_component (deref s r)) <$> components s).
  set (cds := export_connection s <$> connections s).
  set (cleared := set_selectedComponent (set_connections (set_components s []) []) None).
  assert (Hexp : export_import s
                 = (forEach ds import_component ;; forEach cds import_connection) cleared).
  { reflexivity. }
  destruct (import_components_result ds cleared) as (cs & arrs & Hcomp & Hcs).
  { apply Forall_fmap, Forall_forall. intros r _. by exists (type (deref s r)). }
  assert (Hlen : length ds = length (components s)) by apply length_fmap.
  simpl in Hcomp. rewrite Hlen in Hcomp.
  set (rebuilt := mkSimulator (heap s ++ cs) (arrays s ++ arrs)
                    (seq (length (heap s)) (length (components s))) [] None) in *.
  pose proof (rebuilt_component s cs arrs Hcs) as Hcomponent.
  pose proof (rebuilt_cid s cs arrs Hcs) as Hcid.
  pose proof (rebuilt_ids s cs arrs Hcs) as Hidseq.
  pose proof (rebuilt_resolve s Hids Hown cs arrs Hcs) as Hresolve.
  pose proof (rebuilt_find s Hids cs arrs Hcs) as Hfind.
  cbv zeta in Hcomponent, Hcid, Hidseq, Hresolve, Hfind.
  fold rebuilt in Hcomponent, Hcid, Hidseq, Hresolve, Hfind.
  assert (Hconns : forEach cds import_connection rebuilt
                   = Returned tt (set_connections rebuilt (resolve rebuilt <$> cds))).
  { rewrite import_connections_result; [done|].
    apply Forall_fmap, Forall_forall. intros conn Hconn.
    destruct (Hown conn Hconn) as [Hf Ht].
    apply list_elem_of_lookup in Hf as [kf Hkf].
    apply list_elem_of_lookup in Ht as [kt Hkt].
    unfold export_connection. simpl.
    fold (cid s (from conn)). fold (cid s (to conn)).
    rewrite (Hfind kf _ Hkf), (Hfind kt _ Hkt). done. }
  exists (set_connections rebuilt (resolve rebuilt <$> cds)).
  split; [rewrite Hexp; unfold bind; by rewrite Hcomp, Hconns|].
  split_and!.
  - split.
    + unfold unique_ids. change (NoDup (cid rebuilt <$> components rebuilt)).
      by rewrite Hidseq.
    + intros conn Hconn. simpl in Hconn.
      apply list_elem_of_fmap in Hconn as (cd & -> & Hcd).
      apply list_elem_of_fmap in Hcd as (conn & -> & Hconn).
      destruct (Hresolve conn Hconn) as (kf & kt & Hkf & Hkt & ->). simpl.
      split; apply elem_of_seq; apply lookup_lt_Some in Hkf, Hkt; lia.
  - simpl. by rewrite length_seq.
  - intros k r Hk. exists (length (heap s) + k).
    destruct (Hcomponent k r Hk) as (_ & Hid & Hty & Hx & Hy & Hvalue & Hinputs).
    simpl in Hid, Hty, Hx, Hy, Hvalue, Hinputs. apply type_name_inj in Hty.
    change (deref (set_connections rebuilt (resolve rebuilt <$> cds)))
      with (deref rebuilt).
    simpl. split_and!; try done.
    + apply lookup_seq_lt. by eapply lookup_lt_Some.
    + intros HI Hv. rewrite Hvalue; rewrite ?Hv; [done|by rewrite Hty|done].
    + intros HI Hv a Ha. rewrite Hinputs; rewrite ?Hv, ?Ha; [done|by rewrite Hty|done].
  - simpl. unfold cds. rewrite <- !list_fmap_compose.
    apply list_fmap_ext. intros i conn Hi.
    apply list_elem_of_lookup_2 in Hi.
    destruct (Hresolve conn Hi) as (kf & kt & Hkf & Hkt & Heq).
    unfold compose. rewrite Heq. unfold export_connection.
    cbn [from to fromOutput toInput].
    f_equal; [exact (Hcid kf _ Hkf)|exact (Hcid kt _ Hkt)].
  - intros conn Hconn. simpl in Hconn.
    by apply list_elem_of_fmap in Hconn as (cd & -> & _).
Qed.

Lemma export_import_structure_witness :
  (∀ r, r ∈ components inverter_probe_state → r < length (heap inverter_probe_state))
  ∧ unique_ids inverter_probe_state
  ∧ endpoints_owned inverter_probe_state
  ∧ ∃ s', export_import inverter_probe_state = Returned tt s'
          ∧ well_formed s'
          ∧ length (components s') = length (components inverter_probe_state).
Proof.
  assert (H1 : ∀ r, r ∈ components inverter_probe_state →
                    r < length (heap inverter_probe_state)).
  { intros r Hr. vm_compute in Hr.
    repeat (apply elem_of_cons in Hr as [->|Hr]; [vm_compute; lia|]).
    by apply elem_of_nil in Hr. }
  destruct inverter_probe_well_formed as [H2 H3].
  split; [exact H1|]. split; [exact H2|]. split; [exact H3|].
  destruct (export_import_structure inverter_probe_state H1 H2 H3)
    as (s' & Heq & Hwf & Hlen & _).
  exists s'. split_and!; assumption.
Defined.

(** ** Import of arbitrary data *)

Lemma forEach_app {A} (l1 l2 : list A) (f : A → M unit) (s : Simulator) :
  forEach (l1 ++ l2) f s
  = match forEach l1 f s with
    | Returned _ s' => forEach l2 f s'
    | Thrown e s' => Thrown e s'
    | OutOfFuel => OutOfFuel
    end.
Proof.
  revert s. induction l1 as [|a l1 IH]; intros s; [done|].
  simpl. unfold bind. by destruct (f a s).
Qed.

Lemma import_component_known (d : ComponentData) (ty : ctype) (s : Simulator) :
  class_of (toUpperCase (data_type d)) = Some ty →
  ∃ c pins,
    import_component d s
    = Returned tt (mkSimulator (heap s ++ [c]) (arrays s ++ [pins])
                               (components s ++ [length (heap s)])
                               (connections s) (selectedComponent s))
    ∧ id c = data_id d ∧ type c = ty.
Proof.
  intros Hty. unfold import_component, bind at 1.
  destruct (addComponent_known (data_type d) (data_id d) (data_x d) (data_y d)
              (data_label d) ty s Hty) as (c & pins & -> & Hid & Htyc & _).
  set (s1 := mkSimulator _ _ _ _ _).
  assert (Hderef : deref s1 (length (heap s)) = c).
  { unfold deref, s1. simpl. by apply list_lookup_total_middle. }
  assert (Hins : ∀ c', <[length (heap s) := c']> (heap s ++ [c]) = heap s ++ [c']).
  { intros c'. rewrite insert_app_r_alt by done. by rewrite Nat.sub_diag. }
  case_decide as Hv.
  - unfold bind, get. rewrite Hderef. case_decide as Hin;
      unfold update_component, modify, set_heap; rewrite Hderef; simpl; rewrite Hins;
      eexists _, pins; (split; [reflexivity|]); done.
  - exists c, pins. done.
Qed.

Lemma import_components_known (ds : list ComponentData) :
  ∀ s, Forall (fun d => is_Some (class_of (toUpperCase (data_type d)))) ds →
       ∃ cs arrs,
         forEach ds import_component s
         = Returned tt (mkSimulator (heap s ++ cs) (arrays s ++ arrs)
                          (components s ++ seq (length (heap s)) (length ds))
                          (connections s) (selectedComponent s))
         ∧ id <$> cs = data_id <$> ds.
Proof.
  induction ds as [|d ds IH]; intros s Hds.
  - exists [], []. simpl. rewrite !app_nil_r. by destruct s.
  - apply Forall_cons in Hds as [[ty Hty] Hds].
    destruct (import_component_known d ty s Hty) as (c & pins & Heq & Hid & _).
    rewrite forEach_cons, Heq.
    destruct (IH (mkSimulator (heap s ++ [c]) (arrays s ++ [pins])
                              (components s ++ [length (heap s)])
                              (connections s) (selectedComponent s)) Hds)
      as (cs & arrs & -> & Hcs).
    exists (c :: cs), (pins :: arrs).
    split; [|by rewrite !fmap_cons, Hid, Hcs]. simpl.
    rewrite <- !(assoc_L (++)), length_app. simpl.
    by replace (length (heap s) + 1) with (S (length (heap s))) by lia.
Qed.

(** The connection loop of importCircuit creates a connection for each
    record both of whose ids resolve, and skips the others. *)
Lemma import_connections_filter (cds : list ConnectionData) :
  ∀ s, forEach cds import_connection s
       = Returned tt
           (set_connections s
              (connections s
               ++ (resolve s
                     <$> filter (fun d => is_Some (find_component s (data_from d))
                                          ∧ is_Some (find_component s (data_to d)))
                                cds))).
Proof.
  induction cds as [|d cds IH]; intros s.
  - simpl. rewrite app_nil_r. by destruct s.
  - rewrite forEach_cons, filter_cons.
    unfold import_connection at 1, bind.
    destruct (find_component s (data_from d)) as [f|] eqn:Hf;
      [destruct (find_component s (data_to d)) as [t|] eqn:Ht|].
    + rewrite (connectComponents_found s _ _ _ _ f t Hf Ht).
      unfold ret. rewrite IH. rewrite decide_True by (split; by eexists).
      simpl. unfold resolve at 2. rewrite Hf, Ht. simpl.
      by rewrite <- (assoc_L (++)).
    + unfold connectComponents, bind, get. rewrite Hf, Ht. unfold ret.
      rewrite IH. rewrite decide_False; [done|].
      intros [_ [? ?]]. done.
    + unfold connectComponents, bind, get. rewrite Hf. unfold ret.
      rewrite IH. rewrite decide_False; [done|].
      intros [[? ?] _]. done.
Qed.

(** X15: importCircuit on data whose component types are all known.  The call
    returns normally whatever the connection records say: it discards the
    previous graph, creates one component per record in the listed order
    with the listed ids, and creates a connection, in the listed order,
    for each connection record both of whose ids belong to an imported
    component (attached to the first component with that id).  A record
    naming an id that no imported component has is skipped without any
    error. *)
Theorem importCircuit_known_types (circuitData : CircuitData) (s : Simulator) :
  Forall (fun d => is_Some (class_of (toUpperCase (data_type d))))
         (data_components circuitData) →
  ∃ s',
    importCircuit circuitData s = Returned tt s'
    ∧ components s' = seq (length (heap s)) (length (data_components circuitData))
    ∧ (∀ k r, components s' !! k = Some r →
              (data_id <$> data_components circuitData) !! k = Some (cid s' r))
    ∧ connections s'
      = resolve s'
          <$> filter (fun d => is_Some (find_component s' (data_from d))
                               ∧ is_Some (find_component s' (data_to d)))
                     (data_connections circuitData)
    ∧ selectedComponent s' = None.
Proof.
  intros Hknown.
  set (cleared := set_selectedComponent (set_connections (set_components s []) []) None).
  assert (Himp : importCircuit circuitData s
                 = (forEach (data_components circuitData) import_component ;;
                    forEach (data_connections circuitData) import_connection) cleared)
    by reflexivity.
  destruct (import_components_known (data_components circuitData) cleared Hknown)
    as (cs & arrs & Hcomp & Hcs).
  simpl in Hcomp.
  eexists. split.
  { rewrite Himp. unfold bind. rewrite Hcomp. apply import_connections_filter. }
  simpl. split_and!; try done.
  intros k r Hk. apply lookup_seq in Hk as [-> Hk].
  unfold cid, deref. simpl. rewrite lookup_total_app_r by lia.
  replace (length (heap s) + k - length (heap s)) with k by lia.
  rewrite <- Hcs, list_lookup_fmap.
  assert (Hlen : length cs = length (data_components circuitData)).
  { apply (f_equal length) in Hcs. by rewrite !length_fmap in Hcs. }
  destruct (lookup_lt_is_Some_2 cs k) as [c Hc]; [lia|].
  by rewrite (list_lookup_total_correct _ _ _ Hc), Hc.
Qed.

Lemma importCircuit_known_types_witness :
  ∃ s',
    importCircuit
      (mkCircuitData [mkComponentData "A" "input" 0 0 (VBool true) None;
                      mkComponentData "g" "Not" 5 5 VUndef None]
                     [mkConnectionData "A" 0 "g" 0; mkConnectionData "A" 0 "zz" 0])
      inverter_chain_state
    = Returned tt s'
    ∧ components s' = [3; 4]
    ∧ selectedComponent s' = None.
Proof.
  destruct (importCircuit_known_types
              (mkCircuitData [mkComponentData "A" "input" 0 0 (VBool true) None;
                              mkComponentData "g" "Not" 5 5 VUndef None]
                             [mkConnectionData "A" 0 "g" 0; mkConnectionData "A" 0 "zz" 0])
              inverter_chain_state)
    as (s' & Heq & Hc & _ & _ & Hsel).
  - repeat constructor; by eexists.
  - exists s'. split; [exact Heq|]. split; [rewrite Hc; by vm_compute|exact Hsel].
Defined.

(** X16: importCircuit on data with an unknown component type.  If the record
    at some position has a type that addComponent does not know and all
    records before it are known, the call throws "Unknown component
    type"; the previous graph is gone, the components of the records
    before the bad one have been created, and no connection exists: the
    simulator is left with a partly imported graph. *)
Theorem importCircuit_unknown_type (circuitData : CircuitData) (s : Simulator)
    (before after : list ComponentData) (d : ComponentData) :
  data_components circuitData = before ++ d :: after →
  Forall (fun d => is_Some (class_of (toUpperCase (data_type d)))) before →
  class_of (toUpperCase (data_type d)) = None →
  ∃ s',
    importCircuit circuitData s = Thrown (unknown_type (data_type d)) s'
    ∧ components s' = seq (length (heap s)) (length before)
    ∧ connections s' = []
    ∧ selectedComponent s' = None.
Proof.
  intros Hdata Hknown Hbad.
  set (cleared := set_selectedComponent (set_connections (set_components s []) []) None).
  assert (Himp : importCircuit circuitData s
                 = (forEach (data_components circuitData) import_component ;;
                    forEach (data_connections circuitData) import_connection) cleared)
    by reflexivity.
  destruct (import_components_known before cleared Hknown) as (cs & arrs & Hcomp & _).
  simpl in Hcomp.
  eexists. split.
  { rewrite Himp, Hdata. unfold bind at 1. rewrite forEach_app, Hcomp, forEach_cons.
    unfold import_component at 1, bind at 1.
    rewrite addComponent_unknown by done. reflexivity. }
  done.
Qed.

Lemma importCircuit_unknown_type_witness :
  ∃ s',
    importCircuit
      (mkCircuitData [mkComponentData "A" "INPUT" 0 0 (VBool true) None;
                      mkComponentData "fa" "FULL_ADDER" 5 5 VUndef None;
                      mkComponentData "o" "OUTPUT" 9 9 VUndef None]
                     [mkConnectionData "A" 0 "o" 0])
      inverter_chain_state
    = Thrown (Error "Unknown component type: FULL_ADDER") s'
    ∧ components s' = [3]
    ∧ connections s' = [].
Proof.
  destruct (importCircuit_unknown_type
              (mkCircuitData [mkComponentData "A" "INPUT" 0 0 (VBool true) None;
                              mkComponentData "fa" "FULL_ADDER" 5 5 VUndef None;
                              mkComponentData "o" "OUTPUT" 9 9 VUndef None]
                             [mkConnectionData "A" 0 "o" 0])
              inverter_chain_state
              [mkComponentData "A" "INPUT" 0 0 (VBool true) None]
              [mkComponentData "o" "OUTPUT" 9 9 VUndef None]
              (mkComponentData "fa" "FULL_ADDER" 5 5 VUndef None))
    as (s' & Heq & Hc & Hconn & _).
  - done.
  - repeat constructor. by eexists.
  - done.
  - exists s'. split; [exact Heq|]. split; [rewrite Hc; by vm_compute|exact Hconn].
Defined.

(** ** What simulate() delivers along the connections *)

Lemma array_set_lookup_eq (l : list jsval) (k : nat) (v : jsval) :
  array_set l k v !! k = Some v.
Proof.
  unfold array_set. case_decide.
  - by apply list_lookup_insert_eq.
  - rewrite lookup_app_r by lia. rewrite lookup_app_r by (rewrite length_replicate; lia).
    rewrite length_replicate. by replace (k - length l - (k - length l)) with 0 by lia.
Qed.

Lemma array_set_lookup_ne (l : list jsval) (k i : nat) (v : jsval) :
  i ≠ k → default VUndef (array_set l k v !! i) = default VUndef (l !! i).
Proof.
  intros Hne. unfold array_set. case_decide.
  - by rewrite list_lookup_insert_ne.
  - destruct (decide (i < length l)).
    + by rewrite lookup_app_l.
    + rewrite lookup_app_r by lia. rewrite (lookup_ge_None_2 l i) by lia. simpl.
      destruct (decide (i < k)).
      * rewrite lookup_app_l by (rewrite length_replicate; lia).
        by rewrite lookup_replicate_2 by lia.
      * rewrite lookup_ge_None_2; [done|].
        rewrite length_app, length_replicate. simpl. lia.
Qed.

Lemma read_set_arrays (s : Simulator) (a k : nat) (v : jsval) (l : location) :
  a < length (arrays s) →
  read (set_arrays s (<[a := array_set (array_of s a) k v]> (arrays s))) l
  = if decide (l = Pin a k) then v else read s l.
Proof.
  intros Ha. destruct (decide (l = Pin a k)) as [->|Hne].
  - unfold read, array_of. cbn [arrays set_arrays].
    rewrite list_lookup_total_insert_eq by done. by rewrite array_set_lookup_eq.
  - destruct l as [a' k'|r]; [|done].
    unfold read, array_of. cbn [arrays set_arrays].
    destruct (decide (a' = a)) as [->|Ha'].
    + rewrite list_lookup_total_insert_eq by done.
      apply array_set_lookup_ne. congruence.
    + by rewrite list_lookup_total_insert_ne.
Qed.

Lemma read_set_value (s : Simulator) (r : nat) (v : jsval) (l : location) :
  r < length (heap s) →
  read (set_heap s (<[r := set_value (deref s r) v]> (heap s))) l
  = if decide (l = Value r) then v else read s l.
Proof.
  intros Hr. destruct (decide (l = Value r)) as [->|Hne].
  - unfold read, deref. cbn [heap set_heap].
    by rewrite list_lookup_total_insert_eq.
  - destruct l as [a k|r']; [done|].
    unfold read, deref. cbn [heap set_heap].
    rewrite list_lookup_total_insert_ne; [done|congruence].
Qed.

Lemma read_set_output (s : Simulator) (r : nat) (v : jsval) (l : location) :
  read (set_heap s (<[r := set_output (deref s r) v]> (heap s))) l = read s l.
Proof.
  destruct l as [a k|r']; simpl; [done|].
  rewrite deref_update. case_decide as H; [|done]. by destruct H as [-> _].
Qed.

Lemma compute_value (s s1 : Simulator) (r : nat) (v : jsval) :
  compute r s = Returned v s1 → ∀ l, read s1 l = read s l.
Proof.
  intros Heq l. pose proof (compute_cases r s) as H. rewrite Heq in H.
  destruct H as [(_ & -> & _)|(_ & _ & _ & ->)]; [done|]. apply read_set_output.
Qed.

(** The value compute() returns depends only on the component's class,
    on which array holds its pins, and on the places it reads. *)
Lemma compute_ext (s s' s1 : Simulator) (r : nat) (v : jsval) :
  type (deref s' r) = type (deref s r) →
  inputs (deref s' r) = inputs (deref s r) →
  (∀ l, l ∈ operands s r → read s' l = read s l) →
  compute r s = Returned v s1 → ∃ s1', compute r s' = Returned v s1'.
Proof.
  intros Hty Hin Hread Heq. revert Hread Heq.
  unfold compute, operands, binary_gate, bind, get, get_index, update_component,
    modify, ret.
  cbv beta iota. rewrite Hty.
  destruct (type (deref s r)); cbv beta iota; rewrite ?Hin;
    destruct (inputs (deref s r)) as [| | |a];
    intros Hread Heq; simplify_eq; eauto.
  all: try (pose proof (Hread (Pin a 0) ltac:(set_solver)) as H0; simpl in H0).
  all: try (pose proof (Hread (Pin a 1) ltac:(set_solver)) as H1; simpl in H1).
  all: try (pose proof (Hread (Value r) ltac:(set_solver)) as Hv; simpl in Hv).
  all: rewrite ?H0, ?H1, ?Hv; eauto.
Qed.

Lemma target_same (s0 s : Simulator) (conn : Connection) :
  same_graph s0 s → target s conn = target s0 conn.
Proof.
  intros (_ & _ & _ & _ & Hcomp & _). unfold target.
  destruct (Hcomp (to conn)) as (_ & -> & _ & _ & -> & _). done.
Qed.

Lemma operands_same (s0 s : Simulator) (r : nat) :
  same_graph s0 s → operands s r = operands s0 r.
Proof.
  intros (_ & _ & _ & _ & Hcomp & _). unfold operands.
  destruct (Hcomp r) as (_ & -> & _ & _ & -> & _). done.
Qed.

Lemma forEach_seq_inv (I : nat → Simulator → Prop) (f : nat → M unit) (n : nat) :
  ∀ start s,
    (∀ i st, start ≤ i < start + n → I i st →
             ∃ st', f i st = Returned tt st' ∧ I (S i) st') →
    I start s →
    ∃ s', forEach (seq start n) f s = Returned tt s' ∧ I (start + n) s'.
Proof.
  induction n as [|n IH]; intros start s Hstep Hs.
  - exists s. by rewrite Nat.add_0_r.
  - destruct (Hstep start s ltac:(lia) Hs) as (st' & Heq & Hst').
    destruct (IH (S start) st') as (s' & Heq' & Hs').
    + intros i st Hi. apply Hstep. lia.
    + done.
    + exists s'. simpl. unfold bind. rewrite Heq.
      split; [done|]. by replace (start + S n) with (S start + n) by lia.
Qed.

Section propagation.
Variable s0 : Simulator.
Hypothesis Hok : graph_ok s0.

(** One iteration of the second loop: the source is computed, its result
    is stored in the connection and written to the connection's place;
    nothing else that a later compute() reads is changed. *)
Lemma propagate_connection_step (m : nat) (st : Simulator) (c : Connection) :
  same_graph s0 st → connections st !! m = Some c →
  ∃ v st1 l st',
    compute (from c) st = Returned v st1
    ∧ target s0 c = Some l
    ∧ propagate_connection m st = Returned tt st'
    ∧ same_graph s0 st'
    ∧ connections st' = <[m := set_conn_value c v]> (connections st)
    ∧ ∀ l', read st' l' = if decide (l' = l) then v else read st l'.
Proof.
  intros Hs Hc.
  pose proof (same_graph_ok s0 st Hok Hs) as Hoks.
  assert (Hconn : c ∈ connections st) by (by eapply list_elem_of_lookup_2).
  pose proof Hoks as (Hrefs & Hown & _). destruct (Hown _ Hconn) as [Hfrom Hto].
  destruct (compute_returns st (from c) Hoks Hfrom) as (v & st1 & Heq).
  pose proof (compute_same_graph s0 st (from c) Hs) as Hs1. rewrite Heq in Hs1.
  pose proof (compute_value _ _ _ _ Heq) as Hread1.
  assert (Hconns1 : connections st1 = connections st).
  { pose proof (compute_cases (from c) st) as H. rewrite Heq in H.
    by destruct H as [(_ & -> & _)|(_ & _ & _ & ->)]. }
  unfold propagate_connection, bind at 1, get at 1.
  rewrite (list_lookup_total_correct _ _ _ Hc).
  unfold bind at 1. rewrite Heq.
  unfold bind at 1, update_connection, modify.
  unfold bind at 1, get.
  rewrite Hconns1, (list_lookup_total_correct _ _ _ Hc).
  pose proof (same_graph_set_conn_value _ _ m v Hs1) as Hs2.
  rewrite Hconns1, (list_lookup_total_correct _ _ _ Hc) in Hs2.
  set (s2 := set_connections st1 _) in *.
  assert (Hread2 : ∀ l', read s2 l' = read st l').
  { intros l'. rewrite <- Hread1. by destruct l'. }
  pose proof (target_same s0 s2 c Hs2) as Htarget. unfold target in Htarget.
  exists v, st1.
  case_decide as Hty.
  - pose proof (same_graph_ok s0 s2 Hok Hs2) as (_ & _ & Hpins).
    assert (Hto2 : to c ∈ components s2).
    { destruct Hs2 as (-> & _). by destruct Hs as (<- & _). }
    destruct (Hpins (to c) Hto2 Hty) as (a & Ha & Hlen).
    rewrite Ha in Htarget.
    unfold set_index. rewrite Ha.
    eexists (Pin a (toInput c)), _. split_and!; try done.
    + by apply same_graph_set_arrays.
    + intros l'. rewrite read_set_arrays by done. by rewrite Hread2.
  - unfold setValue, update_component, modify.
    assert (Hlen : to c < length (heap s2)).
    { destruct Hs2 as (_ & _ & -> & _). destruct Hs as (_ & _ & <- & _).
      by apply Hrefs. }
    eexists (Value (to c)), _. split_and!; try done.
    + apply same_graph_set_value; [done|].
      by destruct (decide (type (deref s2 (to c)) = OUTPUT)).
    + intros l'. rewrite read_set_value by done. by rewrite Hread2.
Qed.

Lemma delivered_step (m : nat) (st : Simulator) :
  m < length (connections s0) → delivered s0 m st →
  ∃ st', propagate_connection m st = Returned tt st' ∧ delivered s0 (S m) st'.
Proof.
  intros Hm [Hs Hinv].
  assert (Hlen : length (connections st) = length (connections s0)).
  { destruct Hs as (_ & _ & _ & _ & _ & Hw).
    apply (f_equal length) in Hw. by rewrite !length_fmap in Hw. }
  destruct (lookup_lt_is_Some_2 (connections st) m) as [c Hc]; [lia|].
  destruct (propagate_connection_step m st c Hs Hc)
    as (v & st1 & l & st' & Hcompute & Htarget & Heq & Hs' & Hconns & Hread).
  exists st'. split; [done|]. split; [done|].
  assert (Hkeep : ∀ ls : list location,
             l ∉ ls → ∀ l', l' ∈ ls → read st' l' = read st l').
  { intros ls Hls l' Hl'. rewrite Hread. rewrite decide_False; [done|]. by intros ->. }
  assert (Hshape : ∀ r, type (deref st' r) = type (deref st r)
                        ∧ inputs (deref st' r) = inputs (deref st r)).
  { intros r. destruct Hs as (_ & _ & _ & _ & Hcomp & _).
    destruct Hs' as (_ & _ & _ & _ & Hcomp' & _).
    destruct (Hcomp r) as (_ & -> & _ & _ & -> & _).
    destruct (Hcomp' r) as (_ & -> & _ & _ & -> & _). done. }
  intros k conn Hk Hconn. rewrite Hconns in Hconn.
  destruct (decide (k = m)) as [->|Hne].
  - rewrite list_lookup_insert_eq in Hconn by lia. simplify_eq.
    change (target s0 (set_conn_value c v)) with (target s0 c).
    split.
    + intros _. exists l. split; [done|]. rewrite Hread. by rewrite decide_True.
    + intros Hsettled. simpl.
      apply (compute_ext st st' st1); [apply Hshape..| |done].
      apply Hkeep. rewrite (operands_same s0 st) by done.
      apply (Hsettled m (set_conn_value c v) l); [lia| |done].
      rewrite Hconns. apply list_lookup_insert_eq. lia.
  - rewrite list_lookup_insert_ne in Hconn by done.
    destruct (Hinv k conn ltac:(lia) Hconn) as [Hlast Hset].
    assert (Hlater : ∀ j later, j < m → connections st !! j = Some later →
                                connections st' !! j = Some later).
    { intros j later Hj Hlater. rewrite Hconns.
      rewrite list_lookup_insert_ne by lia. done. }
    assert (Hcm : connections st' !! m = Some (set_conn_value c v)).
    { rewrite Hconns. apply list_lookup_insert_eq. lia. }
    split.
    + intros Hno. destruct Hlast as (l' & Hl' & Hval).
      { intros j later Hj Hj'. apply (Hno j); [lia|]. apply Hlater; [lia|done]. }
      exists l'. split; [done|]. rewrite Hread, decide_False; [done|].
      intros ->. apply (Hno m (set_conn_value c v)); [lia|done|].
      change (target s0 (set_conn_value c v)) with (target s0 c). congruence.
    + intros Hno. destruct Hset as (st2 & Hst2).
      { intros j later l' Hj Hj'. apply (Hno j); [lia|]. apply Hlater; [lia|done]. }
      apply (compute_ext st st' st2); [apply Hshape..| |done].
      apply Hkeep. rewrite (operands_same s0 st) by done.
      by apply (Hno m (set_conn_value c v) l); [lia|done|].
Qed.

Lemma propagate_pass_delivers (s1 : Simulator) :
  same_graph s0 s1 →
  ∃ s', propagate_pass s1 = Returned tt s'
        ∧ delivered s0 (length (connections s0)) s'.
Proof.
  intros Hs.
  assert (Hlen : length (connections s1) = length (connections s0)).
  { destruct Hs as (_ & _ & _ & _ & _ & Hw).
    apply (f_equal length) in Hw. by rewrite !length_fmap in Hw. }
  unfold propagate_pass, bind at 1, get. rewrite Hlen.
  apply (forEach_seq_inv (delivered s0) propagate_connection (length (connections s0)) 0 s1).
  - intros i st Hi. apply delivered_step. lia.
  - split; [done|]. intros k conn Hk. lia.
Qed.

End propagation.

Lemma target_wiring (s : Simulator) (c c' : Connection) :
  wiring c = wiring c' → target s c = target s c'.
Proof. unfold wiring, target. intros [= _ _ Hto Hti _]. by rewrite Hto, Hti. Qed.

Lemma same_graph_lookup (s0 s : Simulator) (k : nat) (conn : Connection) :
  same_graph s0 s → connections s !! k = Some conn →
  ∃ conn0, connections s0 !! k = Some conn0 ∧ wiring conn0 = wiring conn.
Proof.
  intros (_ & _ & _ & _ & _ & Hw) Hconn.
  assert (H : (wiring <$> connections s0) !! k = Some (wiring conn)).
  { by rewrite <- Hw, list_lookup_fmap, Hconn. }
  rewrite list_lookup_fmap in H.
  destruct (connections s0 !! k) as [conn0|]; simpl in H; [|done].
  exists conn0. split; [done|congruence].
Qed.

(** X17: What one call of simulate() leaves on the wires.  On a graph that
    satisfies the store invariant the call returns, and for the
    connection at each position k of the list:
    - if no later connection writes the same place (the same pin of the
      same pins array, or the value of the same OUTPUT), that place holds
      the connection's value afterwards: where several connections drive
      one pin, the last one in the list wins;
    - if no connection at position k or later writes a place that the
      source's compute() reads, the connection's value is what compute()
      of the source returns in the final state: a connection from an
      INPUT carries the INPUT's value, and a connection from a gate
      carries the gate function of the pin values the gate ends with,
      provided the connections feeding the gate come before it in the
      list. *)
Theorem simulate_delivers (s : Simulator) :
  graph_ok s →
  ∃ s',
    simulate s = Returned tt s'
    ∧ ∀ k conn,
        connections s' !! k = Some conn →
        (last_writer s k →
         ∃ l, target s conn = Some l ∧ read s' l = conn_value conn)
        ∧ (settled s k →
           ∃ s'', compute (from conn) s' = Returned (conn_value conn) s'').
Proof.
  intros Hok.
  destruct (topologicalSort_returns s) as (sorted & Hsort & _ & Hin & _).
  assert (Hsorted : ∀ r, r ∈ sorted → r ∈ components s).
  { intros r Hr. destruct (Hin r Hr) as [?|Hf]; [done|].
    unfold froms in Hf. apply list_elem_of_fmap in Hf as (conn & -> & Hconn).
    destruct Hok as (_ & Hown & _). by apply Hown. }
  pose proof (evaluate_pass_returns s Hok sorted Hsorted s (same_graph_refl s)) as Hev.
  destruct (evaluate_pass sorted s) as [[] s1| |] eqn:Hev1; [|done..].
  destruct (propagate_pass_delivers s Hok s1 Hev) as (s' & Hprop & Hs' & Hinv).
  exists s'. split.
  { unfold simulate, bind. by rewrite Hsort, Hev1. }
  intros k conn Hconn.
  assert (Hk : k < length (connections s)).
  { destruct (same_graph_lookup s s' k conn Hs' Hconn) as (conn0 & Hconn0 & _).
    by eapply lookup_lt_Some. }
  destruct (same_graph_lookup s s' k conn Hs' Hconn) as (conn0 & Hconn0 & Hw).
  destruct (Hinv k conn Hk Hconn) as [Hlast Hset].
  split.
  - intros Hlw. apply Hlast. intros j later Hj Hlater.
    destruct (same_graph_lookup s s' j later Hs' Hlater) as (later0 & Hlater0 & Hw').
    rewrite <- (target_wiring s later0 later Hw'), <- (target_wiring s conn0 conn Hw).
    apply (Hlw j conn0 later0); [lia|done..].
  - intros Hst. apply Hset. intros j later l Hj Hlater Hl.
    destruct (same_graph_lookup s s' j later Hs' Hlater) as (later0 & Hlater0 & Hw').
    rewrite <- (target_wiring s later0 later Hw') in Hl.
    replace (from conn) with (from conn0) by (unfold wiring in Hw; congruence).
    apply (Hst j conn0 later0 l); [lia|done..].
Qed.

Lemma inverter_probe_graph_ok : graph_ok inverter_probe_state.
Proof.
  split_and!.
  - intros r Hr. vm_compute in Hr.
    apply elem_of_cons in Hr as [->|Hr];
      [|apply elem_of_cons in Hr as [->|Hr];
        [|apply list_elem_of_singleton in Hr as ->]]; vm_compute; lia.
  - apply inverter_probe_well_formed.
  - intros r Hr _. vm_compute in Hr.
    apply elem_of_cons in Hr as [->|Hr];
      [|apply elem_of_cons in Hr as [->|Hr];
        [|apply list_elem_of_singleton in Hr as ->]];
      eexists; (split; [by vm_compute|vm_compute; lia]).
Qed.

Lemma simulate_delivers_witness :
  graph_ok inverter_probe_state
  ∧ ∃ s',
      simulate inverter_probe_state = Returned tt s'
      ∧ ∀ k conn,
          connections s' !! k = Some conn →
          (last_writer inverter_probe_state k →
           ∃ l, target inverter_probe_state conn = Some l
                ∧ read s' l = conn_value conn)
          ∧ (settled inverter_probe_state k →
             ∃ s'', compute (from conn) s' = Returned (conn_value conn) s'').
Proof.
  split; [apply inverter_probe_graph_ok|].
  apply (simulate_delivers inverter_probe_state), inverter_probe_graph_ok.
Defined.

(** ** The rows of a truth table *)

Section truth_table_rows.
Import TruthTableGenerator.

Lemma generate_lookup (inputs : list string) (f : option (list value → value))
    (i : nat) :
  length inputs < 32 → i < 2 ^ length inputs →
  ∃ table, generate inputs f = Some table
           ∧ length table = 2 ^ length inputs
           ∧ table !! i = Some (make_row inputs f (Z.of_nat i)).
Proof.
  intros Hlen Hi. unfold generate. rewrite decide_True by done.
  eexists. split; [reflexivity|].
  split; [by rewrite length_map, length_seq|].
  change (map ?g (seq 0 ?n)) with (g <$> seq 0 n).
  by rewrite list_lookup_fmap, lookup_seq_lt by done.
Qed.

Lemma make_row_lookup (inputs : list string) (f : option (list value → value))
    (i : Z) (name : string) :
  name ≠ "output" →
  make_row inputs f i !! name
  = fill_row (Z.of_nat (length inputs)) i 0 inputs ∅ !! name.
Proof.
  intros Hname. unfold make_row. simpl.
  destruct f; [by rewrite lookup_insert_ne|done].
Qed.

Lemma row_index_lt (v : list bool) : row_index v < 2 ^ length v.
Proof.
  induction v as [|b v IH]; simpl; [lia|].
  destruct b; simpl; lia.
Qed.

Lemma row_index_bit (v : list bool) (k : nat) (b : bool) :
  v !! k = Some b →
  Z.testbit (Z.of_nat (row_index v)) (Z.of_nat (length v - 1 - k)) = b.
Proof.
  revert k. induction v as [|b0 v IH]; intros k Hk; [done|].
  pose proof (row_index_lt v) as Hlt.
  assert (Hz : Z.of_nat (row_index (b0 :: v))
               = (Z.b2z b0 * 2 ^ Z.of_nat (length v) + Z.of_nat (row_index v))%Z).
  { simpl. rewrite Nat2Z.inj_add, Nat2Z.inj_mul, Nat2Z.inj_pow. by destruct b0. }
  assert (Hr : (0 ≤ Z.of_nat (row_index v) < 2 ^ Z.of_nat (length v))%Z).
  { split; [lia|]. rewrite <- (Nat2Z.inj_pow 2). lia. }
  rewrite Hz. destruct k as [|k]; simpl in Hk.
  - simplify_eq. replace (length (b :: v) - 1 - 0) with (length v) by (simpl; lia).
    rewrite Z.testbit_odd, Z.shiftr_div_pow2 by lia.
    rewrite Z.div_add_l by lia. rewrite Z.div_small by done.
    rewrite Z.add_0_r. by destruct b.
  - pose proof (lookup_lt_Some _ _ _ Hk) as Hklt.
    replace (length (b0 :: v) - 1 - S k) with (length v - 1 - k) by (simpl; lia).
    rewrite <- (Z.mod_pow2_bits_low _ (Z.of_nat (length v))) by lia.
    rewrite Z.add_comm, Z.mod_add by lia. rewrite Z.mod_small by done.
    by apply IH.
Qed.

Lemma bits_determine (n i j : nat) :
  i < 2 ^ n → j < 2 ^ n →
  (∀ k, k < n → bit j (n - 1 - k) = bit i (n - 1 - k)) → j = i.
Proof.
  intros Hi Hj Hbits. apply Nat2Z.inj, Z.bits_inj'. intros m Hm.
  assert (Hpow : Z.of_nat (2 ^ n) = (2 ^ Z.of_nat n)%Z) by apply Nat2Z.inj_pow.
  destruct (decide (m < Z.of_nat n)%Z) as [Hlt|Hge].
  - specialize (Hbits (n - 1 - Z.to_nat m) ltac:(lia)).
    replace (n - 1 - (n - 1 - Z.to_nat m)) with (Z.to_nat m) in Hbits by lia.
    unfold bit in Hbits. rewrite Z2Nat.id in Hbits by done.
    injection Hbits as Hbits. by apply Z.b2z_inj.
  - rewrite <- (Z.mod_small (Z.of_nat j) (2 ^ Z.of_nat n)) by lia.
    rewrite <- (Z.mod_small (Z.of_nat i) (2 ^ Z.of_nat n)) by lia.
    by rewrite !Z.mod_pow2_bits_high by lia.
Qed.

End truth_table_rows.

(** X18: TruthTableGenerator.generate with a repeated input name.  The rows
    are objects keyed by name, so a name listed more than once has one
    field, and it holds the bit of the LAST position where the name
    occurs: in row i, the field of a name (other than 'output' and
    '__proto__') whose last occurrence is at position index is bit
    (N-1-index) of i, and the columns of the earlier occurrences are
    lost.  No row has a field '__proto__', not even when that is one of
    the names, and a key that is neither an input name nor 'output' is
    absent. *)
Theorem generate_repeated_names (inputs : list string)
    (f : option (list TruthTableGenerator.value → TruthTableGenerator.value))
    (i index : nat) (name : string) :
  length inputs < 32 → i < 2 ^ length inputs →
  inputs !! index = Some name →
  (∀ j, index < j → inputs !! j ≠ Some name) →
  name ≠ "output" → name ≠ "__proto__" →
  ∃ table r,
    TruthTableGenerator.generate inputs f = Some table
    ∧ table !! i = Some r
    ∧ r !! name = Some (TruthTableGenerator.bit i (length inputs - 1 - index))
    ∧ r !! "__proto__" = None
    ∧ ∀ key, key ∉ inputs → key ≠ "output" → r !! key = None.
Proof.
  intros Hlen Hi Hname Hlast Hout Hproto.
  destruct (generate_lookup inputs f i Hlen Hi) as (table & Heq & _ & Hrow).
  exists table, (TruthTableGenerator.make_row inputs f (Z.of_nat i)).
  split; [done|]. split; [done|]. split_and!.
  - rewrite make_row_lookup by done.
    rewrite (fill_row_last _ _ _ _ _ index) by done.
    f_equal. apply js_bit; [done..|]. by eapply lookup_lt_Some.
  - rewrite make_row_lookup by done. by rewrite fill_row_proto.
  - intros key Hkey Hkey'. rewrite make_row_lookup by done.
    by rewrite fill_row_other.
Qed.

Lemma generate_repeated_names_witness :
  ∃ table r,
    TruthTableGenerator.generate ["A"; "__proto__"; "A"] None = Some table
    ∧ table !! 1 = Some r
    ∧ r !! "A" = Some (TruthTableGenerator.Val (VNum 1))
    ∧ r !! "__proto__" = None
    ∧ ∀ key, key ∉ ["A"; "__proto__"; "A"] → key ≠ "output" → r !! key = None.
Proof.
  apply (generate_repeated_names ["A"; "__proto__"; "A"] None 1 2 "A").
  - simpl. lia.
  - simpl. lia.
  - done.
  - intros j Hj. rewrite lookup_ge_None_2; [done|simpl; lia].
  - done.
  - done.
Defined.

(** X19: The truth table lists every assignment exactly once.  For fewer than
    32 pairwise distinct input names, none of them 'output' or
    '__proto__': whatever values 0/1 one chooses for the inputs, the row
    at the position given by reading the chosen bits as a binary number
    (first input most significant) holds exactly these values, and every
    row that agrees with it on all the inputs is that same row. *)
Theorem generate_lists_each_assignment_once (inputs : list string)
    (f : option (list TruthTableGenerator.value → TruthTableGenerator.value))
    (v : list bool) :
  length inputs < 32 → NoDup inputs → "output" ∉ inputs →
  "__proto__" ∉ inputs →
  length v = length inputs →
  ∃ table r,
    TruthTableGenerator.generate inputs f = Some table
    ∧ table !! row_index v = Some r
    ∧ (∀ k name b, inputs !! k = Some name → v !! k = Some b →
                   r !! name = Some (TruthTableGenerator.Val (VNum (Z.b2z b))))
    ∧ ∀ j r', table !! j = Some r' →
              (∀ name, name ∈ inputs → r' !! name = r !! name) →
              j = row_index v.
Proof.
  intros Hlen Hnd Hout Hproto Hv.
  pose proof (row_index_lt v) as Hi. rewrite Hv in Hi.
  destruct (generate_lookup inputs f (row_index v) Hlen Hi)
    as (table & Heq & Hlength & Hrow).
  assert (Hfield : ∀ i k name, i < 2 ^ length inputs → inputs !! k = Some name →
             TruthTableGenerator.make_row inputs f (Z.of_nat i) !! name
             = Some (TruthTableGenerator.bit i (length inputs - 1 - k))).
  { intros i k name Hilt Hname.
    rewrite make_row_lookup
      by (intros ->; apply Hout; by eapply list_elem_of_lookup_2).
    apply fill_row_bit; [done..|].
    intros ->. apply Hproto. by eapply list_elem_of_lookup_2. }
  exists table, (TruthTableGenerator.make_row inputs f (Z.of_nat (row_index v))).
  split; [done|]. split; [done|]. split.
  - intros k name b Hname Hb. rewrite (Hfield _ k) by done.
    unfold TruthTableGenerator.bit. rewrite <- Hv. by rewrite (row_index_bit v k b).
  - intros j r' Hj Hagree.
    assert (Hjlt : j < 2 ^ length inputs).
    { rewrite <- Hlength. by eapply lookup_lt_Some. }
    destruct (generate_lookup inputs f j Hlen Hjlt) as (table' & Heq' & _ & Hrow').
    assert (table' = table) by congruence. subst table'.
    assert (r' = TruthTableGenerator.make_row inputs f (Z.of_nat j)) by congruence.
    subst r'.
    apply (bits_determine (length inputs)); [done..|].
    intros k Hk. destruct (lookup_lt_is_Some_2 inputs k Hk) as [name Hname].
    specialize (Hagree name ltac:(by eapply list_elem_of_lookup_2)).
    rewrite (Hfield j k), (Hfield (row_index v) k) in Hagree by done.
    congruence.
Qed.

Lemma generate_lists_each_assignment_once_witness :
  ∃ table r,
    TruthTableGenerator.generate ["A"; "B"] None = Some table
    ∧ table !! 2 = Some r
    ∧ (∀ k name b, ["A"; "B"] !! k = Some name → [true; false] !! k = Some b →
                   r !! name = Some (TruthTableGenerator.Val (VNum (Z.b2z b))))
    ∧ ∀ j r', table !! j = Some r' →
              (∀ name, name ∈ ["A"; "B"] → r' !! name = r !! name) →
              j = 2.
Proof.
  apply (generate_lists_each_assignment_once ["A"; "B"] None [true; false]).
  - simpl. lia.
  - apply (bool_decide_unpack _). by vm_compute.
  - apply (bool_decide_unpack _). by vm_compute.
  - apply (bool_decide_unpack _). by vm_compute.
  - done.
Defined.

(** ** What clicks and keys can select *)

Lemma triple_and {A} (P P' : Simulator → Prop) (m : M A)
    (Q Q' : A → Simulator → Prop) (E E' : Simulator → Prop) :
  triple P m Q E → triple (fun s => P s ∧ P' s) m Q' E' →
  triple (fun s => P s ∧ P' s) m (fun a s => Q a s ∧ Q' a s) (fun s => E s ∧ E' s).
Proof.
  intros H H' s [Hs Hs']. specialize (H s Hs). specialize (H' s (conj Hs Hs')).
  by destruct (m s).
Qed.

Section selection.

Lemma update_component_session (r : nat) (f : Component → Component) :
  (∀ c, type (f c) = type c ∧ inputs (f c) = inputs c) →
  triple session_ok (update_component r f) (fun _ => session_ok) session_ok.
Proof.
  intros Hf. apply triple_and; [by apply update_component_ok|].
  apply triple_modify. intros s [_ Hsel] r' Hr'. simpl in *.
  destruct (Hsel r' Hr') as [Hin Hty]. split; [done|].
  rewrite deref_update. case_decide as H; [|done].
  destruct H as [? _]; subst. by rewrite (proj1 (Hf _)).
Qed.

Lemma addComponent_session (t i : string) (x0 y0 : Z) (l : option string) :
  triple session_ok (addComponent t i x0 y0 l) (fun _ => session_ok) session_ok.
Proof.
  apply triple_and; [apply addComponent_ok|].
  intros s [(Hrefs & _) Hsel]. destruct (class_of (toUpperCase t)) as [ty|] eqn:Hclass.
  - destruct (addComponent_known t i x0 y0 l ty s Hclass) as (c & pins & -> & _).
    intros r Hr. simpl in Hr. destruct (Hsel r Hr) as [Hin Hty].
    split; [simpl; apply elem_of_app; by left|].
    unfold deref. simpl. by rewrite lookup_total_app_l by (by apply Hrefs).
  - by rewrite addComponent_unknown.
Qed.

Lemma removeComponent_session (i : string) :
  triple session_ok (removeComponent i) (fun _ => session_ok) session_ok.
Proof.
  apply triple_and; [apply removeComponent_ok|].
  intros s [_ Hsel]. destruct (findIndex s i) as [index|] eqn:Hfind.
  - destruct (removeComponent_found s i index Hfind) as (sel & -> & Hsel').
    destruct (findIndex_Some s i index Hfind) as (r0 & Hr0 & Hid & _).
    intros r Hr. simpl in Hr. subst sel.
    destruct (selectedComponent s) as [old|] eqn:Hold; [|done].
    case_decide as Hne; simplify_eq.
    destruct (Hsel r Hold) as [Hin Hty]. split; [|done]. simpl.
    apply (elem_of_delete_other _ _ _ r0); [done..|]. congruence.
  - unfold removeComponent, bind, get. by rewrite Hfind.
Qed.

Lemma connectComponents_session (fromId toId : string) (k j : nat) :
  triple session_ok (connectComponents fromId k toId j) (fun _ => session_ok) session_ok.
Proof.
  apply triple_and; [apply connectComponents_ok|].
  intros s [_ Hsel]. unfold connectComponents, bind, get.
  destruct (find_component s fromId); [|done].
  destruct (find_component s toId); done.
Qed.

Lemma simulate_session : triple session_ok simulate (fun _ => session_ok) session_ok.
Proof.
  apply triple_and; [apply simulate_ok|].
  intros s [Hok Hsel].
  destruct (simulate_returns_same_graph s Hok) as (s' & -> & Hs).
  destruct Hs as (Hc & Hs & _ & _ & Hcomp & _).
  intros r Hr. rewrite Hs in Hr. destruct (Hsel r Hr) as [Hin Hty].
  rewrite Hc. split; [done|]. by destruct (Hcomp r) as (_ & -> & _).
Qed.

Lemma selectComponent_session (component : option nat) :
  triple (fun s => session_ok s ∧ ∀ r, component = Some r →
                              r ∈ components s ∧ type (deref s r) ≠ INPUT)
         (selectComponent component) (fun _ => session_ok) session_ok.
Proof.
  intros s [[Hok Hsel] Hnew].
  pose proof (selectComponent_ok component s Hok) as Hok'.
  destruct (selectComponent_result s component) as (h & Heq & Hlen & Hh).
  rewrite Heq in *. split; [done|].
  intros r Hr. simpl in Hr. destruct (Hnew r Hr) as [Hin Hty].
  split; [done|]. unfold deref. simpl.
  destruct Hok as (Hrefs & _). by rewrite Hh by (by apply Hrefs).
Qed.

Lemma toggle_session (r : nat) : triple session_ok (toggle r) (fun _ => session_ok) session_ok.
Proof.
  unfold toggle. apply triple_bind_get. intros a.
  apply (triple_pre _ session_ok); [naive_solver|].
  apply (triple_seq _ session_ok); [by apply update_component_session|].
  apply (triple_ret (fun _ => session_ok)).
Qed.

Lemma handleClick_session (clickedComponent : option nat) :
  triple (fun s => session_ok s ∧ ∀ r, clickedComponent = Some r → r ∈ components s)
         (handleClick clickedComponent) (fun _ => session_ok) session_ok.
Proof.
  destruct clickedComponent as [r|]; simpl.
  - apply triple_bind_get. intros a. case_decide as Hty.
    + apply (triple_pre _ session_ok); [naive_solver|].
      apply (triple_seq _ session_ok); [apply toggle_session|apply simulate_session].
    + eapply triple_pre; [|apply selectComponent_session].
      intros s (-> & HJ & Hin). split; [done|]. intros r' [= <-]. split; [|done].
      by apply Hin.
  - eapply triple_pre; [|apply selectComponent_session]. naive_solver.
Qed.

Lemma handleKeyDown_session (key : string) :
  triple session_ok (handleKeyDown key) (fun _ => session_ok) session_ok.
Proof.
  unfold handleKeyDown. apply triple_bind_get. intros a.
  apply (triple_pre _ session_ok); [naive_solver|].
  apply (triple_seq _ session_ok).
  { destruct (selectedComponent a); [case_decide|];
      [apply removeComponent_session|apply triple_skip..]. }
  case_decide; [|apply triple_skip].
  eapply triple_pre; [|apply selectComponent_session]. naive_solver.
Qed.

Lemma exec_session (c : api_call) : triple session_ok (exec c) (fun _ => session_ok) session_ok.
Proof.
  destruct c as [t i x0 y0 l|i|f k t j|[n|]|key| |]; simpl.
  - apply (triple_seq _ session_ok); [apply addComponent_session|apply triple_skip].
  - apply removeComponent_session.
  - apply (triple_seq _ session_ok); [apply connectComponents_session|apply triple_skip].
  - apply triple_bind_get. intros a.
    destruct (components a !! n) as [r|] eqn:Hr.
    + eapply triple_pre; [|apply (handleClick_session (Some r))].
      intros s (-> & HJ). split; [done|]. intros r' [= <-].
      by eapply list_elem_of_lookup_2.
    + eapply triple_pre; [|apply (handleClick_session None)]. naive_solver.
  - eapply triple_pre; [|apply (handleClick_session None)]. naive_solver.
  - apply handleKeyDown_session.
  - apply simulate_session.
  - apply triple_modify. intros s _. split.
    + split_and!; intros r Hr; simpl in Hr; by apply elem_of_nil in Hr.
    + intros r Hr. done.
Qed.

Lemma after_calls_session (calls : list api_call) : session_ok (after_calls calls).
Proof.
  unfold after_calls. induction calls as [|c calls IH] using rev_ind.
  - split; [apply graph_ok_empty|]. intros r Hr. done.
  - rewrite foldl_app. simpl. apply (triple_run session_ok); [apply exec_session|exact IH].
Qed.

End selection.

(** X20: Clicks and keys never select an INPUT.  Whatever sequence of
    addComponent, removeComponent, connectComponents, click, key,
    simulate and clear calls is made on a fresh simulator (a click may
    hit any component or the empty canvas), the selected component, if
    there is one, is a component of the graph and is not an INPUT: a
    click on an INPUT toggles it and leaves the selection as it was. *)
Theorem clicks_never_select_an_input (calls : list api_call) (r : nat) :
  selectedComponent (after_calls calls) = Some r →
  r ∈ components (after_calls calls)
  ∧ type (deref (after_calls calls) r) ≠ INPUT.
Proof.
  intros Hr. destruct (after_calls_session calls) as [_ Hsel]. by apply Hsel.
Qed.

Lemma clicks_never_select_an_input_witness :
  1 ∈ components
        (after_calls [CallAddComponent "INPUT" "A" 0 0 None;
                      CallAddComponent "NOT" "g" 50 0 None;
                      CallClick (Some 0); CallClick (Some 1); CallClick (Some 0)])
  ∧ type (deref
            (after_calls [CallAddComponent "INPUT" "A" 0 0 None;
                          CallAddComponent "NOT" "g" 50 0 None;
                          CallClick (Some 0); CallClick (Some 1); CallClick (Some 0)])
            1) ≠ INPUT.
Proof.
  apply (clicks_never_select_an_input
           [CallAddComponent "INPUT" "A" 0 0 None;
            CallAddComponent "NOT" "g" 50 0 None;
            CallClick (Some 0); CallClick (Some 1); CallClick (Some 0)] 1).
  by vm_compute.
Defined.

(** ** CircuitTemplates.fullAdderCircuit *)

(** X21: The full-adder template cannot be built.  On any simulator the call
    throws "Unknown component type: FULL_ADDER" at its fourth
    addComponent: the previous graph has been cleared, the three INPUTs
    input_a, input_b and input_cin are all the graph holds, neither
    OUTPUT has been created and there is no connection. *)
Theorem fullAdderCircuit_throws (s : Simulator) :
  ∃ s',
    Templates.fullAdderCircuit s
    = Thrown (Error "Unknown component type: FULL_ADDER") s'
    ∧ cid s' <$> components s' = ["input_a"; "input_b"; "input_cin"]
    ∧ type ∘ deref s' <$> components s' = [INPUT; INPUT; INPUT]
    ∧ connections s' = []
    ∧ selectedComponent s' = None.
Proof.
  destruct s as [h a cs conns sel].
  eexists. split; [reflexivity|]. simpl.
  assert (Hh : ∀ (c1 c2 c3 : Component),
             ((h ++ [c1]) ++ [c2]) ++ [c3] = h ++ [c1; c2; c3]).
  { intros. by rewrite <- !(assoc_L (++)). }
  unfold cid, deref, compose. simpl. rewrite !length_app. simpl.
  rewrite !Hh.
  rewrite (lookup_total_app_r h _ (length h)) by lia.
  rewrite (lookup_total_app_r h _ (length h + 1)) by lia.
  rewrite (lookup_total_app_r h _ (length h + 1 + 1)) by lia.
  replace (length h - length h) with 0 by lia.
  replace (length h + 1 - length h) with 1 by lia.
  replace (length h + 1 + 1 - length h) with 2 by lia.
  done.
Qed.
